(** * DoggOSFuzzy: defuzzification, Takagi-Sugeno inference and Mamdani cuts

    A shallow embedding of
      - [doggos/inference/defuzzification_algorithms.py],
      - [doggos/inference/takagi_sugeno_inference_system.py],
      - [doggos/knowledge/consequents/mamdani_consequent.py],
      - [doggos/utils/membership_functions/membership_functions.py]
        (the piecewise linear functions).

    Numbers.  The Python code computes with IEEE-754 doubles inside NumPy
    arrays.  The embedding reads them in two ways.
      - Exactly: a finite double is a rational ([Q]) and every operation
        is the exact one.  This is the reading of the algebraic
        statements; equality of numbers is [Qeq], and where a function
        returns the value that Python returns the statement uses Leibniz
        equality of the rational expression the code evaluates.
      - As binary64 numbers (module [Binary64], on Rocq's primitive
        floats), for the Karnik-Mendel loop, where rounding decides which
        branch is taken, and for the domain of
        [takagi_sugeno_karnik_mendel], where rounding decides the number
        of its cells.

    Exceptions.  Python exceptions are values of [pyerr]; a call that may
    raise returns a [result].  An unbounded [while] loop takes a fuel
    argument and returns [None] when the fuel is used up: [None] is never
    a Python outcome, and a loop that returns [None] for every fuel does
    not terminate. *)

From Stdlib Require Import QArith Qabs Qround Qminmax Lqa Lia ZArith.
From Stdlib Require Import List Bool Arith PeanoNat.
From Stdlib Require Import Sorting.Sorted Sorting.Permutation.
From Stdlib Require Floats.PrimFloat Floats.SpecFloat Floats.FloatOps.
From Stdlib Require Floats.FloatAxioms.
Import ListNotations.

Open Scope Q_scope.

(** ** Python outcomes *)

Inductive pyerr : Type :=
| IndexError
| ValueError
| TypeError
| ZeroDivisionError
| OverflowError
| KeyError
| BareException.

Inductive result (A : Type) : Type :=
| Ok (a : A)
| Raise (e : pyerr).

Arguments Ok {A} a.
Arguments Raise {A} e.

Definition rbind {A B : Type} (m : result A) (k : A -> result B) : result B :=
  match m with
  | Ok a => k a
  | Raise e => Raise e
  end.

(** A computation that contains an unbounded loop: [None] means the fuel
    was too small, [Some r] is the Python outcome [r]. *)
Definition fueled (A : Type) : Type := option (result A).

Definition fbind {A B : Type} (m : fueled A) (k : A -> fueled B) : fueled B :=
  match m with
  | Some (Ok a) => k a
  | Some (Raise e) => Some (Raise e)
  | None => None
  end.

Definition lift {A : Type} (m : result A) : fueled A := Some m.

Declare Scope py_scope.
Delimit Scope py_scope with py.
Notation "x <- m ;; k" := (rbind m (fun x => k))
  (at level 61, m at next level, right associativity) : py_scope.
Notation "x <~ m ;; k" := (fbind m (fun x => k))
  (at level 61, m at next level, right associativity) : py_scope.
Open Scope py_scope.

(** ** The NumPy operations the code uses, on one-dimensional arrays *)

Module Np.

Definition array : Type := list Q.

(** [np.sum] *)
Definition sum (a : array) : Q := fold_right Qplus 0 a.

Fixpoint zip_with {A : Type} (f : A -> A -> A) (a b : list A) : list A :=
  match a, b with
  | x :: a', y :: b' => f x y :: zip_with f a' b'
  | _, _ => []
  end.

(** [a + s], [a / s] with a Python scalar [s] *)
Definition add_scalar (a : array) (s : Q) : array := map (fun x => x + s) a.
Definition div_scalar (a : array) (s : Q) : array := map (fun x => x / s) a.

(** [np.zeros(shape=n)] *)
Definition zeros (n : nat) : array := repeat 0 n.

(** Broadcasting of a one-dimensional source into [n] cells: the same
    length, or a single cell that is repeated; anything else is a
    [ValueError]. *)
Definition broadcast_to {A : Type} (n : nat) (src : list A)
  : result (list A) :=
  if Nat.eqb (length src) n then Ok src
  else match src with
       | [x] => Ok (repeat x n)
       | _ => Raise ValueError
       end.

(** An elementwise binary operation on two arrays, with broadcasting. *)
Definition binop {A : Type} (f : A -> A -> A) (a b : list A)
  : result (list A) :=
  if Nat.eqb (length a) (length b) then Ok (zip_with f a b)
  else match a, b with
       | [x], _ => Ok (map (f x) b)
       | _, [y] => Ok (map (fun x => f x y) a)
       | _, _ => Raise ValueError
       end.

(** [w[:j] = src] *)
Definition set_prefix {A : Type} (w : list A) (j : nat) (src : list A)
  : result (list A) :=
  s <- broadcast_to (length (firstn j w)) src ;;
  Ok (s ++ skipn j w).

(** [w[j:] = src] *)
Definition set_suffix {A : Type} (w : list A) (j : nat) (src : list A)
  : result (list A) :=
  s <- broadcast_to (length (skipn j w)) src ;;
  Ok (firstn j w ++ s).

(** [np.average(a, weights=w)] for one-dimensional [a] and [w]: the
    shapes must agree, and a zero sum of weights raises. *)
Definition average (a w : array) : result Q :=
  if negb (Nat.eqb (length a) (length w)) then Raise TypeError
  else
    let scl := sum w in
    if Qeq_bool scl 0 then Raise ZeroDivisionError
    else Ok (sum (zip_with Qmult a w) / scl).

(** [np.where(mask)[0]]: the indices at which the mask holds,
    ascending. *)
Fixpoint where_from (i : nat) (mask : list bool) : list nat :=
  match mask with
  | [] => []
  | b :: mask' =>
      if b then i :: where_from (S i) mask' else where_from (S i) mask'
  end.

Definition where_ (mask : list bool) : list nat := where_from 0 mask.

(** [l[-1]] and [l[0]] *)
Fixpoint last_item {A : Type} (l : list A) : result A :=
  match l with
  | [] => Raise IndexError
  | [x] => Ok x
  | _ :: l' => last_item l'
  end.

Definition first_item {A : Type} (l : list A) : result A :=
  match l with
  | [] => Raise IndexError
  | x :: _ => Ok x
  end.

(** [np.max(rows, axis=0)] for at least one row, all rows of one
    length. *)
Definition max_axis0 (first : array) (others : list array) : array :=
  fold_left (zip_with Qmax) others first.

End Np.

(** ** defuzzification_algorithms.py *)

(** The additive bias [1e-10] and [np.finfo(float).eps = 2^-52]. *)
Definition bias : Q := 1 # 10000000000.
Definition eps : Q := 1 # 4503599627370496.

(** The argument of [__membership_func_union]: one array, or a collection
    of arrays; the code tells them apart by [isinstance(mfs[0], Iterable)]. *)
Inductive mfs_arg : Type :=
| OneArray (a : Np.array)
| ManyArrays (rows : list Np.array).

Fixpoint broadcast_rows (n : nat) (rows : list Np.array)
  : result (list Np.array) :=
  match rows with
  | [] => Ok []
  | r :: rows' =>
      r' <- Np.broadcast_to n r ;;
      rs <- broadcast_rows n rows' ;;
      Ok (r' :: rs)
  end.

Definition membership_func_union (mfs : mfs_arg) : result Np.array :=
  rows <- match mfs with
          | OneArray [] => Raise IndexError
          | OneArray a => Ok [a]
          | ManyArrays [] => Raise IndexError
          | ManyArrays rows => Ok rows
          end ;;
  match rows with
  | [] => Raise IndexError
  | r0 :: _ =>
      reshaped <- broadcast_rows (length r0) rows ;;
      match reshaped with
      | [] => Raise IndexError
      | first :: others => Ok (Np.max_axis0 first others)
      end
  end.

Definition center_of_gravity (domain : Np.array) (mfs : mfs_arg) : result Q :=
  cut <- membership_func_union mfs ;;
  Np.average domain cut.

Definition find_k (c : Q) (domain : Np.array) : result nat :=
  Np.last_item (Np.where_ (map (fun d => Qle_bool d c) domain)).

Definition find_c_minute (under_k_mf over_k_mf : Np.array)
    (c : Q) (domain : Np.array) : result Q :=
  k <- find_k c domain ;;
  let weights := Np.zeros (length domain) in
  weights <- Np.set_prefix weights (k + 1) (firstn (k + 1) under_k_mf) ;;
  weights <- Np.set_suffix weights (k + 1) (skipn (k + 1) over_k_mf) ;;
  let weights := Np.add_scalar weights bias in
  Np.average domain weights.

(** The [while] loop of [__find_y]; one unit of fuel per execution of the
    loop body. *)
Fixpoint find_y_loop (fuel : nat) (partial_find_c_minute : Q -> result Q)
    (c_prim c_minute : Q) : fueled Q :=
  if Qle_bool (Qabs (c_minute - c_prim)) eps then Some (Ok c_minute)
  else
    match fuel with
    | O => None
    | S fuel' =>
        c_next <~ lift (partial_find_c_minute c_minute) ;;
        find_y_loop fuel' partial_find_c_minute c_minute c_next
    end.

Definition find_y (fuel : nat)
    (partial_find_c_minute : Q -> Np.array -> result Q)
    (domain thetas : Np.array) : fueled Q :=
  c_prim <~ lift (Np.average domain thetas) ;;
  c_minute <~ lift (partial_find_c_minute c_prim domain) ;;
  find_y_loop fuel (fun c => partial_find_c_minute c domain) c_prim c_minute.

Definition karnik_mendel (fuel : nat) (lmfs umfs : mfs_arg)
    (domain : Np.array) : fueled Q :=
  lower_cut <~ lift (membership_func_union lmfs) ;;
  upper_cut <~ lift (membership_func_union umfs) ;;
  s <~ lift (Np.binop Qplus lower_cut upper_cut) ;;
  let thetas := Np.add_scalar (Np.div_scalar s 2) bias in
  y_l <~ find_y fuel (find_c_minute upper_cut lower_cut) domain thetas ;;
  y_r <~ find_y fuel (find_c_minute lower_cut upper_cut) domain thetas ;;
  Some (Ok ((y_l + y_r) / 2)).

Definition weighted_average (firings outputs : Np.array) : result Q :=
  Np.average outputs (Np.add_scalar firings bias).

(** ** The Karnik-Mendel functions on IEEE binary64 numbers

    The same functions, run on the numbers Python runs them on: Rocq's
    primitive floats are IEEE-754 binary64 with rounding to nearest even,
    as Python's and NumPy's [float64].  [np.sum] adds an array of fewer
    than eight cells from left to right; the statements that evaluate a
    call use such arrays, and the general ones do not depend on the order
    of the additions.  The membership arguments are single arrays, whose
    union is the array itself. *)

Module Binary64.

Import PrimFloat.

Definition array : Type := list float.

Definition sum (a : array) : float := fold_left add a 0%float.

Definition zeros (n : nat) : array := repeat 0%float n.

Definition add_scalar (a : array) (s : float) : array :=
  map (fun x => (x + s)%float) a.

Definition div_scalar (a : array) (s : float) : array :=
  map (fun x => (x / s)%float) a.

Definition average (a w : array) : result float :=
  if negb (Nat.eqb (length a) (length w)) then Raise TypeError
  else
    let scl := sum w in
    if eqb scl 0 then Raise ZeroDivisionError
    else Ok (sum (Np.zip_with mul a w) / scl)%float.

(** [1e-10] is read as the nearest binary64 number, as Python reads it. *)
#[local] Set Warnings "-inexact-float".

Definition bias : float := 1e-10%float.
Definition eps : float := 0x1p-52%float.

Definition membership_func_union (mfs : array) : result array :=
  match mfs with
  | [] => Raise IndexError
  | _ => Ok mfs
  end.

Definition find_k (c : float) (domain : array) : result nat :=
  Np.last_item (Np.where_ (map (fun d => leb d c) domain)).

Definition find_c_minute (under_k_mf over_k_mf : array)
    (c : float) (domain : array) : result float :=
  k <- find_k c domain ;;
  let weights := zeros (length domain) in
  weights <- Np.set_prefix weights (k + 1) (firstn (k + 1) under_k_mf) ;;
  weights <- Np.set_suffix weights (k + 1) (skipn (k + 1) over_k_mf) ;;
  let weights := add_scalar weights bias in
  average domain weights.

Fixpoint find_y_loop (fuel : nat) (partial_find_c_minute : float -> result float)
    (c_prim c_minute : float) : fueled float :=
  if ltb eps (abs (c_minute - c_prim)) then
    match fuel with
    | O => None
    | S fuel' =>
        c_next <~ lift (partial_find_c_minute c_minute) ;;
        find_y_loop fuel' partial_find_c_minute c_minute c_next
    end
  else Some (Ok c_minute).

Definition find_y (fuel : nat)
    (partial_find_c_minute : float -> array -> result float)
    (domain thetas : array) : fueled float :=
  c_prim <~ lift (average domain thetas) ;;
  c_minute <~ lift (partial_find_c_minute c_prim domain) ;;
  find_y_loop fuel (fun c => partial_find_c_minute c domain) c_prim c_minute.

Definition karnik_mendel (fuel : nat) (lmfs umfs domain : array)
  : fueled float :=
  lower_cut <~ lift (membership_func_union lmfs) ;;
  upper_cut <~ lift (membership_func_union umfs) ;;
  s <~ lift (Np.binop add lower_cut upper_cut) ;;
  let thetas := add_scalar (div_scalar s 2) bias in
  y_l <~ find_y fuel (find_c_minute upper_cut lower_cut) domain thetas ;;
  y_r <~ find_y fuel (find_c_minute lower_cut upper_cut) domain thetas ;;
  Some (Ok ((y_l + y_r) / 2)%float).

Definition center_of_gravity (domain mfs : array) : result float :=
  cut <- membership_func_union mfs ;;
  average domain cut.

(** The integer that [math.floor] and [ceil] give on a double; both fail
    on an infinity and on nan. *)
Definition floor_of (x : float) : option Z :=
  match FloatOps.Prim2SF x with
  | SpecFloat.S754_zero _ => Some 0%Z
  | SpecFloat.S754_finite s m e =>
      let n := if s then Z.neg m else Z.pos m in
      Some (if (0 <=? e)%Z then n * 2 ^ e else n / 2 ^ (- e))%Z
  | _ => None
  end.

Definition ceil_of (x : float) : option Z :=
  match FloatOps.Prim2SF x with
  | SpecFloat.S754_zero _ => Some 0%Z
  | SpecFloat.S754_finite s m e =>
      let n := if s then Z.neg m else Z.pos m in
      Some (if (0 <=? e)%Z then n * 2 ^ e else - ((- n) / 2 ^ (- e)))%Z
  | _ => None
  end.

(** [math.floor]: [OverflowError] on an infinity, [ValueError] on nan. *)
Definition math_floor (x : float) : result Z :=
  match floor_of x with
  | Some z => Ok z
  | None => if is_nan x then Raise ValueError else Raise OverflowError
  end.

(** A Python [int] as a float, rounded to the nearest even; the floor of
    a double is a double, so that for it the conversion is exact. *)
Definition of_int (z : Z) : float :=
  FloatOps.SF2Prim
    (SpecFloat.binary_normalize FloatOps.prec FloatOps.emax z 0 false).

(** The length that [np.arange] computes from [(stop - start) / step]:
    its ceiling, [ValueError] on nan, [OverflowError] when it does not
    fit a machine integer. *)
Definition arange_length (value : float) : result nat :=
  match ceil_of value with
  | Some z =>
      if ((- 2 ^ 63 <=? z) && (z <=? 2 ^ 63))%Z then Ok (Z.to_nat z)
      else Raise OverflowError
  | None => if is_nan value then Raise ValueError else Raise OverflowError
  end.

(** [np.arange(start, stop, step)] on Python floats: the first cell is
    [start], the second [start + step], and the cell [i] from the third
    on is [start + i * delta] with [delta] the difference of the first
    two.  An array that the memory cannot hold is not modelled. *)
Definition arange (start stop step : float) : result array :=
  if eqb step 0 then Raise ZeroDivisionError
  else
    length <- arange_length ((stop - start) / step) ;;
    let next := (start + step)%float in
    let delta := (next - start)%float in
    Ok (map (fun i => match i with
                      | O => start
                      | S O => next
                      | _ => (start + of_int (Z.of_nat i) * delta)%float
                      end)
            (seq 0 length)).

(** [calculate_membership] on NumPy [float64] values, whose division by
    zero gives nan or an infinity and does not raise. *)
Definition interpolate (x : float) (prev cur : float * float) : float :=
  let distance_horizontal := (fst cur - fst prev)%float in
  let distance_vertical := (snd cur - snd prev)%float in
  let distance_of_x := (x - fst prev)%float in
  let horizontal_proportion := (distance_of_x / distance_horizontal)%float in
  (distance_vertical * horizontal_proportion + snd prev)%float.

Fixpoint scan_bracket (x : float) (prev : float * float)
    (rest : list (float * float)) : float :=
  match rest with
  | [] => 0%float
  | cur :: rest' =>
      if leb x (fst cur) then interpolate x prev cur
      else scan_bracket x cur rest'
  end.

Definition calculate_membership (x : float)
    (outputs_of_rules : list (float * float)) : float :=
  match outputs_of_rules with
  | [] => 0%float
  | [p] => if eqb x (fst p) then snd p else 0%float
  | p0 :: rest => if leb (fst p0) x then scan_bracket x p0 rest else 0%float
  end.

(** [rows[np.argsort(key(rows))]] for keys none of which is nan: the rows
    in ascending order of their key, rows with equal keys in their
    order. *)
Fixpoint insert_by {A : Type} (key : A -> float) (a : A) (l : list A)
  : list A :=
  match l with
  | [] => [a]
  | b :: l' => if leb (key a) (key b) then a :: l else b :: insert_by key a l'
  end.

Definition sort_by {A : Type} (key : A -> float) (l : list A) : list A :=
  fold_right (insert_by key) [] l.

(** A row of [outputs_of_rules]: the rule's output, then the lower and
    upper firing. *)
Definition rule_row : Type := (float * (float * float))%type.

Definition lower_point (r : rule_row) : float * float :=
  (fst r, fst (snd r)).
Definition upper_point (r : rule_row) : float * float :=
  (fst r, snd (snd r)).

Definition takagi_sugeno_karnik_mendel (fuel : nat)
    (firings : list (float * float)) (outputs : array) (step : float)
  : fueled float :=
  if negb (Nat.eqb (length outputs) (length firings))
  then Some (Raise ValueError)
  else
    let outputs_of_rules : list rule_row :=
      sort_by fst (combine outputs firings) in
    first_row <~ lift (Np.first_item outputs_of_rules) ;;
    start <~ lift (math_floor (fst first_row / step)) ;;
    last_row <~ lift (Np.last_item outputs_of_rules) ;;
    stop <~ lift (math_floor (fst last_row / step + 1)) ;;
    domain <~ lift (arange (of_int start * step) (of_int stop * step) step) ;;
    let lmf :=
      map (fun x => calculate_membership x (map lower_point outputs_of_rules))
          domain in
    let umf :=
      map (fun x => calculate_membership x (map upper_point outputs_of_rules))
          domain in
    karnik_mendel fuel lmf umf domain.

End Binary64.

(** A value of a NumPy [float64] cell: an exact rational, or one of the
    non-finite values that a division by zero produces without raising
    (the sign of an infinity is not kept). *)
Inductive float64 : Type :=
| Finite (q : Q)
| Inf
| NaN.

(** [a / b] on [float64] scalars *)
Definition f64_div (a b : Q) : float64 :=
  if Qeq_bool b 0 then (if Qeq_bool a 0 then NaN else Inf)
  else Finite (a / b).

(** [q * v] and [v + q] for a finite [q] *)
Definition f64_scale (q : Q) (v : float64) : float64 :=
  match v with
  | Finite r => Finite (q * r)
  | Inf => if Qeq_bool q 0 then NaN else Inf
  | NaN => NaN
  end.

Definition f64_add (v : float64) (q : Q) : float64 :=
  match v with
  | Finite r => Finite (r + q)
  | Inf => Inf
  | NaN => NaN
  end.

(** [math.floor] *)
Definition math_floor (v : float64) : result Z :=
  match v with
  | Finite q => Ok (Qfloor q)
  | Inf => Raise OverflowError
  | NaN => Raise ValueError
  end.

(** The body of the [for] loop of [calculate_membership] once the
    bracket [prev, cur] is found. *)
Definition interpolate (x : Q) (prev cur : Q * Q) : float64 :=
  let distance_horizontal := fst cur - fst prev in
  let distance_vertical := snd cur - snd prev in
  let distance_of_x := x - fst prev in
  let horizontal_proportion := f64_div distance_of_x distance_horizontal in
  f64_add (f64_scale distance_vertical horizontal_proportion) (snd prev).

(** [for i in range(1, len(outputs_of_rules))], with [prev] the row
    [i - 1] and [rest] the rows from [i] on. *)
Fixpoint scan_bracket (x : Q) (prev : Q * Q) (rest : list (Q * Q))
  : float64 :=
  match rest with
  | [] => Finite 0
  | cur :: rest' =>
      if Qle_bool x (fst cur) then interpolate x prev cur
      else scan_bracket x cur rest'
  end.

Definition calculate_membership (x : Q) (outputs_of_rules : list (Q * Q))
  : float64 :=
  match outputs_of_rules with
  | [] => Finite 0
  | [p] => if Qeq_bool x (fst p) then Finite (snd p) else Finite 0
  | p0 :: rest =>
      if Qle_bool (fst p0) x then scan_bracket x p0 rest else Finite 0
  end.

(** [np.arange(start, stop, step)]: ceil((stop - start) / step) values
    from [start] on, [step] apart. *)
Definition arange (start stop step : Q) : Np.array :=
  map (fun i => start + inject_Z (Z.of_nat i) * step)
      (seq 0 (Z.to_nat (Qceiling ((stop - start) / step)))).

(** [rows[np.argsort(key(rows))]]: the rows in ascending order of their
    key.  Rows with equal keys keep their order, which is what NumPy's
    default sort does on the short arrays of a rule base. *)
Fixpoint insert_by {A : Type} (key : A -> Q) (a : A) (l : list A) : list A :=
  match l with
  | [] => [a]
  | b :: l' =>
      if Qle_bool (key a) (key b) then a :: l else b :: insert_by key a l'
  end.

Definition sort_by {A : Type} (key : A -> Q) (l : list A) : list A :=
  fold_right (insert_by key) [] l.

(** An array of [float64] cells as exact rationals, when all are finite. *)
Fixpoint finite_array (a : list float64) : option Np.array :=
  match a with
  | [] => Some []
  | Finite q :: a' => option_map (cons q) (finite_array a')
  | _ :: _ => None
  end.

(** A row of [outputs_of_rules]: the rule's output, then the lower and
    upper firing. *)
Definition rule_row : Type := (Q * (Q * Q))%type.

Definition lower_point (r : rule_row) : Q * Q := (fst r, fst (snd r)).
Definition upper_point (r : rule_row) : Q * Q := (fst r, snd (snd r)).

(** [firings] is the N x 2 array of (lower, upper) firings, [outputs] the
    N outputs.  A nan among the memberships makes every comparison in
    [__find_k] false, so that [karnik_mendel] ends in its [IndexError]. *)
Definition takagi_sugeno_karnik_mendel (fuel : nat)
    (firings : list (Q * Q)) (outputs : Np.array) (step : Q) : fueled Q :=
  if negb (Nat.eqb (length outputs) (length firings))
  then Some (Raise ValueError)
  else
    let outputs_of_rules : list rule_row :=
      sort_by fst (combine outputs firings) in
    first_row <~ lift (Np.first_item outputs_of_rules) ;;
    start <~ lift (math_floor (f64_div (fst first_row) step)) ;;
    last_row <~ lift (Np.last_item outputs_of_rules) ;;
    stop <~ lift (math_floor (f64_add (f64_div (fst last_row) step) 1)) ;;
    let domain := arange (inject_Z start * step) (inject_Z stop * step) step in
    let lmf :=
      map (fun x => calculate_membership x (map lower_point outputs_of_rules))
          domain in
    let umf :=
      map (fun x => calculate_membership x (map upper_point outputs_of_rules))
          domain in
    match finite_array lmf, finite_array umf with
    | Some lmf, Some umf =>
        karnik_mendel fuel (OneArray lmf) (OneArray umf) domain
    | _, _ => Some (Raise IndexError)
    end.

(** ** defuzzification_algorithms.py: the Type-1 defuzzifiers *)

(** [np.max(cut)]: a zero-size array has no maximum. *)
Definition np_max (a : Np.array) : result Q :=
  match a with
  | [] => Raise ValueError
  | x :: a' => Ok (fold_left Qmax a' x)
  end.

(** [np.where(cut == maximum)[0]] *)
Definition where_equal (cut : Np.array) (maximum : Q) : list nat :=
  Np.where_ (map (fun v => Qeq_bool v maximum) cut).

(** [domain[index]] for an index that is not negative *)
Definition getitem_array (domain : Np.array) (index : nat) : result Q :=
  match nth_error domain index with
  | Some d => Ok d
  | None => Raise IndexError
  end.

Definition largest_of_maximum (domain : Np.array) (mfs : mfs_arg)
  : result Q :=
  cut <- membership_func_union mfs ;;
  maximum <- np_max cut ;;
  index <- Np.last_item (where_equal cut maximum) ;;
  getitem_array domain index.

Definition smallest_of_maximum (domain : Np.array) (mfs : mfs_arg)
  : result Q :=
  cut <- membership_func_union mfs ;;
  maximum <- np_max cut ;;
  index <- Np.first_item (where_equal cut maximum) ;;
  getitem_array domain index.

(** [indices[middle]] *)
Definition getitem_index (indices : list nat) (i : nat) : result nat :=
  match nth_error indices i with
  | Some k => Ok k
  | None => Raise IndexError
  end.

(** [middle_of_maximum] indexes the domain with a list of one index, so
    that it returns an array of one cell. *)
Definition middle_of_maximum (domain : Np.array) (mfs : mfs_arg)
  : result Np.array :=
  cut <- membership_func_union mfs ;;
  maximum <- np_max cut ;;
  let indices := where_equal cut maximum in
  let size := length indices in
  let middle := Nat.div size 2 in
  index <- getitem_index indices middle ;;
  d <- getitem_array domain index ;;
  Ok [d].

(** [[domain[index] for index in indices]] *)
Fixpoint take_items (domain : Np.array) (indices : list nat)
  : result Np.array :=
  match indices with
  | [] => Ok []
  | index :: indices' =>
      d <- getitem_array domain index ;;
      rest <- take_items domain indices' ;;
      Ok (d :: rest)
  end.

Definition mean_of_maxima (domain : Np.array) (mfs : mfs_arg)
  : result float64 :=
  cut <- membership_func_union mfs ;;
  maximum <- np_max cut ;;
  let indices := where_equal cut maximum in
  let size := length indices in
  items <- take_items domain indices ;;
  let total := Np.sum items in
  Ok (f64_div total (inject_Z (Z.of_nat size))).

(** [center_of_sums].  [np.array] of rows of different lengths, and of a
    domain and sums of different lengths, is a [ValueError]; the final
    quotient is a NumPy scalar division, which does not raise. *)
Definition center_of_sums (domain : Np.array) (membership_functions : mfs_arg)
  : result float64 :=
  sums_of_memberships <-
    match membership_functions with
    | OneArray [] => Raise IndexError
    | OneArray a => Ok a
    | ManyArrays [] => Raise IndexError
    | ManyArrays (r0 :: rows) =>
        if forallb (fun r => Nat.eqb (length r) (length r0)) rows
        then Ok (fold_left (Np.zip_with Qplus) rows r0)
        else Raise ValueError
    end ;;
  if negb (Nat.eqb (length domain) (length sums_of_memberships))
  then Raise ValueError
  else
    let numerator := Np.sum (Np.zip_with Qmult domain sums_of_memberships) in
    let denominator := Np.sum sums_of_memberships in
    Ok (f64_div numerator denominator).

(** ** membership_functions.py, on Python floats *)

(** [a / b] on Python floats *)
Definition py_div (a b : Q) : result Q :=
  if Qeq_bool b 0 then Raise ZeroDivisionError else Ok (a / b).

(** A Python [bool] used as a factor. *)
Definition bool_factor (b : bool) : Q := if b then 1 else 0.

Definition Qlt_bool (x y : Q) : bool := negb (Qle_bool y x).

(** [triangular(l_end, center, r_end, max_value)(value)]: both quotients
    are evaluated whatever the side of [value]. *)
Definition triangular (l_end center r_end max_value value : Q) : result Q :=
  rising <- py_div (max_value * (value - l_end)) (center - l_end) ;;
  falling <- py_div (r_end - value) (r_end - center) ;;
  Ok (Qmin 1
        (Qmax 0
           (rising * bool_factor (Qle_bool value center)
            + (max_value * falling) * bool_factor (Qlt_bool center value)))).

Definition trapezoidal (l_end l_center r_center r_end max_value value : Q)
  : result Q :=
  rising <- py_div (value - l_end) (l_center - l_end) ;;
  falling <- py_div (r_end - value) (r_end - r_center) ;;
  Ok (Qmin 1
        (Qmax 0
           (((max_value * rising) * bool_factor (Qle_bool value l_center)
             + (max_value * falling) * bool_factor (Qle_bool r_center value))
            + max_value
              * (bool_factor (Qlt_bool l_center value)
                 * bool_factor (Qlt_bool value r_center))))).

Definition linear (a b max_value value : Q) : Q :=
  if Qlt_bool 0 (value * a + b) then Qmin (value * a + b) max_value else 0.

(** ** takagi_sugeno_inference_system.py *)

(** A membership degree: one value for Type-1 sets, a (lower, upper) pair
    for interval Type-2 sets. *)
Inductive degree : Type :=
| Scalar (v : Q)
| Interval (lower upper : Q).

(** Clauses and linguistic variables are dictionary keys: only their
    identity matters. *)
Definition clause_id : Type := nat.
Definition variable_id : Type := nat.

(** Modelled from the spec: the classes [Rule], [TakagiSugenoConsequent]
    and [Term] are not under src.  A rule is what [infer] uses of it: the
    values of [consequent.function_parameters] in their order, the
    consequent's [output] on the measures of one sample, and the
    antecedent's [fire] on the features of one sample; both are pure and
    may raise. *)
Record Rule : Type := {
  function_parameters : list Q;
  consequent_output : list (variable_id * Q) -> result Q;
  antecedent_fire : list (clause_id * degree) -> result degree
}.

(** An instance holds its rule base and nothing else: [__cache] is an
    attribute of the class. *)
Record TakagiSugenoInferenceSystem : Type := {
  rule_base : list Rule
}.

(** The calls that [infer] makes, in the order it makes them. *)
Inductive call : Type :=
| OutputCall (rule_index : nat)
| FireCall (rule_index : nat)
| DefuzzCall (firings : list degree) (outputs : Np.array).

(** What lives outside the instances: the dictionary bound to the class
    attribute [__cache], and the log of the calls made so far. *)
Record world : Type := {
  class_cache : list (list Q * Q);
  calls : list call
}.

Definition stateful (A : Type) : Type := world -> result A * world.

Definition sret {A : Type} (a : A) : stateful A := fun w => (Ok a, w).

Definition sbind {A B : Type} (m : stateful A) (k : A -> stateful B)
  : stateful B :=
  fun w =>
    match m w with
    | (Ok a, w') => k a w'
    | (Raise e, w') => (Raise e, w')
    end.

Notation "x <<- m ;; k" := (sbind m (fun x => k))
  (at level 61, m at next level, right associativity) : py_scope.

(** A call of a pure function that may raise, written to the log. *)
Definition logged {A : Type} (c : call) (r : result A) : stateful A :=
  fun w =>
    (r, {| class_cache := class_cache w; calls := calls w ++ [c] |}).

Definition pure_result {A : Type} (r : result A) : stateful A :=
  fun w => (r, w).

(** Equality of the tuples used as dictionary keys: the same length and
    numerically equal items. *)
Fixpoint key_eqb (k1 k2 : list Q) : bool :=
  match k1, k2 with
  | [], [] => true
  | x :: k1', y :: k2' => Qeq_bool x y && key_eqb k1' k2'
  | _, _ => false
  end.

Fixpoint cache_lookup (key : list Q) (cache : list (list Q * Q)) : option Q :=
  match cache with
  | [] => None
  | (k, v) :: cache' =>
      if key_eqb key k then Some v else cache_lookup key cache'
  end.

(** [self.__cache[_input]] *)
Definition cache_getitem (key : list Q) : stateful Q :=
  fun w =>
    match cache_lookup key (class_cache w) with
    | Some v => (Ok v, w)
    | None => (Raise KeyError, w)
    end.

(** [self.__cache[input_tuple] = conclusion] *)
Definition cache_setitem (key : list Q) (v : Q) : stateful unit :=
  fun w =>
    (Ok tt, {| class_cache := (key, v) :: class_cache w; calls := calls w |}).

Definition is_cached (key : list Q) : stateful bool :=
  fun w =>
    match cache_getitem key w with
    | (Ok _, w') => (Ok true, w')
    | (Raise _, w') => (Ok false, w')
    end.

Definition get_input_tuple (self : TakagiSugenoInferenceSystem)
    (input : list Q) : list Q :=
  fold_left
    (fun in_values rule =>
       fold_left (fun in_values param => in_values ++ [param])
                 (function_parameters rule) in_values)
    (rule_base self) input.

(** The loop over the rule base, from the rule of index [i]. *)
Fixpoint evaluate_rules (i : nat) (rules : list Rule)
    (single_measures : list (variable_id * Q))
    (single_features : list (clause_id * degree))
    (outputs : list Q) (firings : list degree)
  : stateful (list Q * list degree) :=
  match rules with
  | [] => sret (outputs, firings)
  | rule :: rules' =>
      o <<- logged (OutputCall i) (consequent_output rule single_measures) ;;
      f <<- logged (FireCall i) (antecedent_fire rule single_features) ;;
      evaluate_rules (S i) rules' single_measures single_features
        (outputs ++ [o]) (firings ++ [f])
  end.

(** The body of the loop over the samples, after the slicing. *)
Definition infer_sample (self : TakagiSugenoInferenceSystem)
    (defuzzification_method : list degree -> Np.array -> result Q)
    (single_features : list (clause_id * degree))
    (single_measures : list (variable_id * Q)) : stateful Q :=
  let input_tuple := get_input_tuple self (map snd single_measures) in
  cached <<- is_cached input_tuple ;;
  if cached then cache_getitem input_tuple
  else
    evaluated <<- evaluate_rules 0 (rule_base self) single_measures
                    single_features [] [] ;;
    let ind := sort_by fst (combine (fst evaluated) (snd evaluated)) in
    let outputs := map fst ind in
    let firings := map snd ind in
    conclusion <<- logged (DefuzzCall firings outputs)
                     (defuzzification_method firings outputs) ;;
    _ <<- cache_setitem input_tuple conclusion ;;
    sret conclusion.

(** [value[i]] and [np.take(value, i, axis=-1)] for every key of a
    dictionary of per-sample sequences. *)
Fixpoint take_sample {K X : Type} (i : nat) (d : list (K * list X))
  : result (list (K * X)) :=
  match d with
  | [] => Ok []
  | (k, v) :: d' =>
      match nth_error v i with
      | None => Raise IndexError
      | Some x =>
          rest <- take_sample i d' ;;
          Ok ((k, x) :: rest)
      end
  end.

Fixpoint infer_samples (self : TakagiSugenoInferenceSystem)
    (defuzzification_method : list degree -> Np.array -> result Q)
    (features : list (clause_id * list degree))
    (measures : list (variable_id * list Q))
    (samples : list nat) (conclusions : list Q) : stateful (list Q) :=
  match samples with
  | [] => sret conclusions
  | i :: samples' =>
      single_features <<- pure_result (take_sample i features) ;;
      single_measures <<- pure_result (take_sample i measures) ;;
      conclusion <<- infer_sample self defuzzification_method
                       single_features single_measures ;;
      infer_samples self defuzzification_method features measures samples'
        (conclusions ++ [conclusion])
  end.

(** [infer]; the three [isinstance] checks hold by typing. *)
Definition infer (self : TakagiSugenoInferenceSystem)
    (defuzzification_method : list degree -> Np.array -> result Q)
    (features : list (clause_id * list degree))
    (measures : list (variable_id * list Q)) : stateful (list Q) :=
  first <<- pure_result (Np.first_item (map snd measures)) ;;
  infer_samples self defuzzification_method features measures
    (seq 0 (length first)) [].

(** ** mamdani_consequent.py *)

(** NumPy values of rank 0, 1 and 2. *)
Inductive ndarray : Type :=
| Nd0 (q : Q)
| Nd1 (a : list Q)
| Nd2 (rows : list (list Q)).

(** [np.minimum(v, s)] with a scalar [s] *)
Definition np_minimum (v : ndarray) (s : Q) : ndarray :=
  match v with
  | Nd0 q => Nd0 (Qmin q s)
  | Nd1 a => Nd1 (map (fun x => Qmin x s) a)
  | Nd2 rows => Nd2 (map (map (fun x => Qmin x s)) rows)
  end.

(** [v[i]] *)
Definition getitem (v : ndarray) (i : nat) : result ndarray :=
  match v with
  | Nd0 _ => Raise IndexError
  | Nd1 a =>
      match nth_error a i with
      | Some q => Ok (Nd0 q)
      | None => Raise IndexError
      end
  | Nd2 rows =>
      match nth_error rows i with
      | Some r => Ok (Nd1 r)
      | None => Raise IndexError
      end
  end.

(** The argument [rule_firing] as [output] tells it apart: a float, a
    tuple of floats, or any other object. *)
Inductive firing_arg : Type :=
| FiringFloat (f : Q)
| FiringTuple (items : list Q)
| FiringOther.

(** What [output] can return. *)
Inductive pyval : Type :=
| PyNone
| PyArray (v : ndarray)
| PyTuple2 (first second : ndarray).

(** Modelled from the spec: the class [Clause] is not under src.  Of the
    clause the consequent reads [fuzzy_set], the membership array of a
    Type-1 set or the (lmf_array, umf_array) rows of an interval Type-2
    set. *)
Record MamdaniConsequent : Type := {
  clause_fuzzy_set : ndarray;
  cut_mf : pyval
}.

Definition t1_cut (self : MamdaniConsequent) (rule_firing : Q)
  : result pyval * MamdaniConsequent :=
  let cut := PyArray (np_minimum (clause_fuzzy_set self) rule_firing) in
  (Ok cut, {| clause_fuzzy_set := clause_fuzzy_set self; cut_mf := cut |}).

Definition tuple_item (t : list Q) (i : nat) : result Q :=
  match nth_error t i with
  | Some q => Ok q
  | None => Raise IndexError
  end.

Definition it2_cut (self : MamdaniConsequent) (rule_firing : list Q)
  : result pyval * MamdaniConsequent :=
  let cut :=
    lmf <- getitem (clause_fuzzy_set self) 0 ;;
    l <- tuple_item rule_firing 0 ;;
    umf <- getitem (clause_fuzzy_set self) 1 ;;
    u <- tuple_item rule_firing 1 ;;
    Ok (PyTuple2 (np_minimum lmf l) (np_minimum umf u)) in
  match cut with
  | Ok v =>
      (Ok v, {| clause_fuzzy_set := clause_fuzzy_set self; cut_mf := v |})
  | Raise e => (Raise e, self)
  end.

(** [MamdaniConsequent.output]: the inner [if] has no [else], so a tuple
    of another length falls off the end of the function. *)
Definition output (self : MamdaniConsequent) (rule_firing : firing_arg)
  : result pyval * MamdaniConsequent :=
  match rule_firing with
  | FiringFloat f => t1_cut self f
  | FiringTuple items =>
      if Nat.eqb (length items) 2 then it2_cut self items
      else (Ok PyNone, self)
  | FiringOther => (Raise BareException, self)
  end.

(** * Vocabulary of the statements *)

(** [sigma n g] is g(0) + ... + g(n-1). *)
Fixpoint sigma (n : nat) (g : nat -> Q) : Q :=
  match n with
  | O => 0
  | S n' => sigma n' g + g n'
  end.

(** The arithmetic mean of an array. *)
Definition arithmetic_mean (a : Np.array) : Q :=
  Np.sum a / inject_Z (Z.of_nat (length a)).

(** [k] is the largest index of [domain] whose value is at most [c]. *)
Definition switch_index (domain : Np.array) (c : Q) (k : nat) : Prop :=
  (k < length domain)%nat /\
  nth k domain 0 <= c /\
  forall j, (k < j < length domain)%nat -> ~ nth j domain 0 <= c.

(** The weight of index [i] for the switch index [k]: the "under" array up
    to [k], the "over" array after it, plus the bias. *)
Definition reweighted (under over : Np.array) (k i : nat) : Q :=
  (if (i <=? k)%nat then nth i under 0 else nth i over 0) + bias.

(** The array of weights that [__find_c_minute] hands to [np.average]. *)
Definition kweights (under over : Np.array) (k : nat) : Np.array :=
  Np.add_scalar (firstn (k + 1) under ++ skipn (k + 1) over) bias.

(** The candidate that follows from the switch index [k]. *)
Definition centroid (under over domain : Np.array) (k : nat) : Q :=
  Np.sum (Np.zip_with Qmult domain (kweights under over k))
  / Np.sum (kweights under over k).

(** [km_converges step c y]: starting from the candidate [c], replacing
    [c] by [step c] until two consecutive candidates are within [eps] of
    each other ends with the candidate [y]. *)
Inductive km_converges (step : Q -> Q -> Prop) : Q -> Q -> Prop :=
| km_stop (c c2 : Q) :
    step c c2 -> Qabs (c2 - c) <= eps -> km_converges step c c2
| km_next (c c2 y : Q) :
    step c c2 -> eps < Qabs (c2 - c) ->
    km_converges step c2 y -> km_converges step c y.

(** The step relation of a Python function: it returns [c2] on [c]. *)
Definition returns (f : Q -> result Q) (c c2 : Q) : Prop := f c = Ok c2.

(** The candidates the loop can ever hold: the start value and whatever
    the step returns on a candidate. *)
Inductive km_candidate (step : Q -> result Q) (c0 : Q) : Q -> Prop :=
| candidate_start : km_candidate step c0 c0
| candidate_step (c c2 : Q) :
    km_candidate step c0 c -> step c = Ok c2 -> km_candidate step c0 c2.

(** The membership arrays of an argument of [__membership_func_union]. *)
Definition rows_of (mfs : mfs_arg) : list Np.array :=
  match mfs with
  | OneArray a => [a]
  | ManyArrays rows => rows
  end.

(** The arrays of [mfs] all have [n] cells, and there is at least one. *)
Definition well_shaped (n : nat) (mfs : mfs_arg) : Prop :=
  rows_of mfs <> [] /\ Forall (fun r => length r = n) (rows_of mfs).

(** The largest value at position [i] among the rows. *)
Definition column_max (rows : list Np.array) (i : nat) : Q :=
  match rows with
  | [] => 0
  | first :: others =>
      fold_left Qmax (map (fun r => nth i r 0) others) (nth i first 0)
  end.

(** [cut] is the elementwise maximum of the arrays of [mfs]. *)
Definition elementwise_max (mfs : mfs_arg) (cut : Np.array) : Prop :=
  exists first others,
    rows_of mfs = first :: others /\
    length cut = length first /\
    forall i, (i < length first)%nat ->
              nth i cut 0 = column_max (first :: others) i.

(** The weights of the first average: (lower + upper) / 2 + 1e-10. *)
Definition km_thetas (lower upper : Np.array) : Np.array :=
  Np.add_scalar (Np.div_scalar (Np.zip_with Qplus lower upper) 2) bias.

(** The claim with an explicit tolerance: on coinciding lower and upper
    memberships [karnik_mendel] is within [tol] of [center_of_gravity]. *)
Definition degenerate_matches_cog (tol : Q) : Prop :=
  forall (domain m : Np.array) (fuel : nat) (r g : Q),
    domain <> [] -> Sorted Qle domain -> length m = length domain ->
    Forall (fun v => 0 <= v) m -> Exists (fun v => 0 < v) m ->
    karnik_mendel fuel (OneArray m) (OneArray m) domain = Some (Ok r) ->
    center_of_gravity domain (OneArray m) = Ok g ->
    Qabs (r - g) <= tol.

(** The value at [x] of the straight line through two points. *)
Definition line_through (prev cur : Q * Q) (x : Q) : Q :=
  (snd cur - snd prev) * ((x - fst prev) / (fst cur - fst prev)) + snd prev.

(** [v] is a least, respectively a greatest, value of [l]. *)
Definition is_minimum (v : Q) (l : list Q) : Prop :=
  In v l /\ Forall (fun u => v <= u) l.

Definition is_maximum (v : Q) (l : list Q) : Prop :=
  In v l /\ Forall (fun u => u <= v) l.

(** One step of the specified iteration: find the switch index of [c],
    reweight with "under" up to it and "over" after it plus the bias, and
    average the domain again. *)
Definition km_step (under over domain : Np.array) (c c2 : Q) : Prop :=
  exists k weights,
    switch_index domain c k /\
    length weights = length domain /\
    (forall i, (i < length domain)%nat ->
               nth i weights 0 = reweighted under over k i) /\
    Np.average domain weights = Ok c2.

(** The specified procedure: unions, thetas, the two converging runs from
    the thetas-weighted average, and the mean of their results. *)
Definition km_spec (lmfs umfs : mfs_arg) (domain : Np.array) (r : Q) : Prop :=
  exists lower upper thetas c0 y_l y_r,
    elementwise_max lmfs lower /\
    elementwise_max umfs upper /\
    length thetas = length domain /\
    (forall i, (i < length domain)%nat ->
               nth i thetas 0 = (nth i lower 0 + nth i upper 0) / 2 + bias) /\
    Np.average domain thetas = Ok c0 /\
    km_converges (km_step upper lower domain) c0 y_l /\
    km_converges (km_step lower upper domain) c0 y_r /\
    r = (y_l + y_r) / 2.

(** The calls made by the loop over [n] rules from index [i]. *)
Definition rule_calls (i n : nat) : list call :=
  flat_map (fun j => [OutputCall j; FireCall j]) (seq i n).

(** [pairs] is what the rules return on one sample, in rule-base order. *)
Definition rules_return (rules : list Rule)
    (single_measures : list (variable_id * Q))
    (single_features : list (clause_id * degree))
    (pairs : list (Q * degree)) : Prop :=
  Forall2 (fun rule p =>
             consequent_output rule single_measures = Ok (fst p) /\
             antecedent_fire rule single_features = Ok (snd p))
          rules pairs.

(** Concrete rules and systems for the examples: [single_measures[v]]
    and [single_features[c]], which raise [KeyError] on a missing key. *)
Definition lookup_measure (v : variable_id)
    (single_measures : list (variable_id * Q)) : result Q :=
  match find (fun p => Nat.eqb (fst p) v) single_measures with
  | Some p => Ok (snd p)
  | None => Raise KeyError
  end.

Definition lookup_degree (c : clause_id)
    (single_features : list (clause_id * degree)) : result degree :=
  match find (fun p => Nat.eqb (fst p) c) single_features with
  | Some p => Ok (snd p)
  | None => Raise KeyError
  end.

(** The rule IF clause [c] THEN y = coefficient * x, for the variable x
    of identity 0. *)
Definition linear_rule (coefficient : Q) (c : clause_id) : Rule :=
  {| function_parameters := [coefficient];
     consequent_output :=
       fun sm => x <- lookup_measure 0%nat sm ;; Ok (coefficient * x);
     antecedent_fire := lookup_degree c |}.

(** Two inference systems with the same consequents, whose antecedents
    read different clauses. *)
Definition system_a : TakagiSugenoInferenceSystem :=
  {| rule_base := [linear_rule 1 0%nat; linear_rule 2 1%nat] |}.

Definition system_b : TakagiSugenoInferenceSystem :=
  {| rule_base := [linear_rule 1 1%nat; linear_rule 2 0%nat] |}.

(** The array of Type-1 firings. *)
Fixpoint scalar_firings (firings : list degree) : result Np.array :=
  match firings with
  | [] => Ok []
  | Scalar v :: firings' =>
      rest <- scalar_firings firings' ;; Ok (v :: rest)
  | Interval _ _ :: _ => Raise TypeError
  end.

(** [weighted_average] as a defuzzification method of [infer]. *)
Definition weighted_average_method (firings : list degree)
    (outputs : Np.array) : result Q :=
  fs <- scalar_firings firings ;; weighted_average fs outputs.

(** The state right after the class is created: [__cache = {}], and no
    call made. *)
Definition empty_world : world := {| class_cache := []; calls := [] |}.

(** [k] is an index at which [cut] is largest. *)
Definition is_argmax (cut : Np.array) (k : nat) : Prop :=
  (k < length cut)%nat /\
  forall j, (j < length cut)%nat -> nth j cut 0 <= nth k cut 0.

(** The positions at which [cut] is largest, in ascending order. *)
Definition maxima_positions (cut : Np.array) : list nat :=
  filter (fun k => forallb (fun v => Qle_bool v (nth k cut 0)) cut)
         (seq 0 (length cut)).

(** The first coordinates of the points ascend strictly. *)
Definition strictly_ascending (points : list (Q * Q)) : Prop :=
  StronglySorted (fun a b => fst a < fst b) points.





(** The number of samples [infer] loops over: the length of the first
    sequence of measures. *)
Definition sample_count (measures : list (variable_id * list Q)) : nat :=
  match measures with
  | [] => 0%nat
  | (_, values) :: _ => length values
  end.

(** Every conclusion the cache of [w] gives is given by the cache of
    [w'] too. *)
Definition cache_kept (w w' : world) : Prop :=
  forall key v,
    cache_lookup key (class_cache w) = Some v ->
    cache_lookup key (class_cache w') = Some v.

(** The call log of [w'] is that of [w] with further calls after it. *)
Definition log_extended (w w' : world) : Prop :=
  exists later, calls w' = calls w ++ later.

(** * Properties *)

Lemma fbind_lift_ok {A B : Type} (a : A) (k : A -> fueled B) :
  fbind (lift (Ok a)) k = k a.
Proof. reflexivity. Qed.

(** ** Finite sums indexed by position *)

Lemma sigma_ext (n : nat) (g h : nat -> Q) :
  (forall i, (i < n)%nat -> g i == h i) -> sigma n g == sigma n h.
Proof.
  induction n as [|n IH]; intros E; simpl.
  - reflexivity.
  - rewrite IH by (intros; apply E; lia).
    rewrite (E n) by lia. reflexivity.
Qed.

Lemma sigma_le (n : nat) (g h : nat -> Q) :
  (forall i, (i < n)%nat -> g i <= h i) -> sigma n g <= sigma n h.
Proof.
  induction n as [|n IH]; intros E; simpl.
  - lra.
  - specialize (IH (fun i Hi => E i (Nat.lt_lt_succ_r _ _ Hi))).
    specialize (E n (Nat.lt_succ_diag_r n)). lra.
Qed.

Lemma sigma_pos (n : nat) (g : nat -> Q) :
  (0 < n)%nat -> (forall i, (i < n)%nat -> 0 < g i) -> 0 < sigma n g.
Proof.
  induction n as [|n IH]; intros Hn E; [lia|]. simpl.
  destruct n as [|n].
  - simpl. specialize (E 0%nat ltac:(lia)). lra.
  - assert (0 < sigma (S n) g) by (apply IH; [lia | intros; apply E; lia]).
    specialize (E (S n) ltac:(lia)). lra.
Qed.

Lemma sigma_shift (n : nat) (g : nat -> Q) :
  sigma (S n) g == g 0%nat + sigma n (fun i => g (S i)).
Proof.
  induction n as [|n IH].
  - simpl. lra.
  - change (sigma (S (S n)) g) with (sigma (S n) g + g (S n)).
    rewrite IH. simpl. lra.
Qed.

Lemma sigma_plus (n : nat) (g h : nat -> Q) :
  sigma n (fun i => g i + h i) == sigma n g + sigma n h.
Proof. induction n as [|n IH]; simpl; [|rewrite IH]; lra. Qed.

Lemma sigma_scale (n : nat) (c : Q) (g : nat -> Q) :
  sigma n (fun i => c * g i) == c * sigma n g.
Proof. induction n as [|n IH]; simpl; [|rewrite IH]; lra. Qed.

Lemma sigma_const (n : nat) (c : Q) :
  sigma n (fun _ => c) == inject_Z (Z.of_nat n) * c.
Proof.
  induction n as [|n IH].
  - simpl. unfold inject_Z. lra.
  - change (sigma (S n) (fun _ => c)) with (sigma n (fun _ => c) + c).
    rewrite IH, Nat2Z.inj_succ. unfold Z.succ. rewrite inject_Z_plus.
    change (inject_Z 1) with 1. lra.
Qed.

(** ** NumPy sums and averages as indexed sums *)

Lemma sum_sigma (a : Np.array) :
  Np.sum a == sigma (length a) (fun i => nth i a 0).
Proof.
  induction a as [|x a IH].
  - reflexivity.
  - change (length (x :: a)) with (S (length a)).
    rewrite sigma_shift. simpl. fold (Np.sum a). rewrite IH. reflexivity.
Qed.

Lemma zip_with_length (f : Q -> Q -> Q) (a b : Np.array) :
  length a = length b -> length (Np.zip_with f a b) = length a.
Proof.
  revert b; induction a as [|x a IH]; intros [|y b] E; simpl in *;
    try discriminate; auto.
Qed.

Lemma zip_with_nth (f : Q -> Q -> Q) (a b : Np.array) (i : nat) (d : Q) :
  length a = length b -> (i < length a)%nat ->
  nth i (Np.zip_with f a b) d = f (nth i a d) (nth i b d).
Proof.
  revert b i; induction a as [|x a IH]; intros [|y b] i E Hi; simpl in *;
    try discriminate; try lia.
  destruct i; [reflexivity|]. apply IH; lia.
Qed.

Lemma dot_sigma (a w : Np.array) :
  length a = length w ->
  Np.sum (Np.zip_with Qmult a w)
  == sigma (length a) (fun i => nth i a 0 * nth i w 0).
Proof.
  intros E. rewrite sum_sigma, zip_with_length by assumption.
  apply sigma_ext. intros i Hi. rewrite zip_with_nth by assumption.
  reflexivity.
Qed.

Lemma add_scalar_length (a : Np.array) (s : Q) :
  length (Np.add_scalar a s) = length a.
Proof. apply length_map. Qed.

Lemma add_scalar_nth (a : Np.array) (s : Q) (i : nat) :
  (i < length a)%nat -> nth i (Np.add_scalar a s) 0 = nth i a 0 + s.
Proof.
  intros Hi. unfold Np.add_scalar.
  rewrite (nth_indep _ 0 (0 + s)) by (rewrite length_map; exact Hi).
  apply (map_nth (fun x => x + s)).
Qed.

(** [np.average] succeeds exactly on arrays of one shape whose weights do
    not sum to zero, and then it is the quotient of the two sums. *)
Lemma average_ok (a w : Np.array) :
  length a = length w -> ~ Np.sum w == 0 ->
  Np.average a w = Ok (Np.sum (Np.zip_with Qmult a w) / Np.sum w).
Proof.
  intros E Hs. unfold Np.average.
  rewrite E, Nat.eqb_refl. simpl.
  destruct (Qeq_bool (Np.sum w) 0) eqn:Hq; [|reflexivity].
  apply Qeq_bool_iff in Hq. contradiction.
Qed.

Lemma average_inv (a w : Np.array) (r : Q) :
  Np.average a w = Ok r ->
  length a = length w /\ ~ Np.sum w == 0 /\
  r = Np.sum (Np.zip_with Qmult a w) / Np.sum w.
Proof.
  unfold Np.average. intros H.
  destruct (Nat.eqb (length a) (length w)) eqn:El; simpl in H;
    [|discriminate].
  destruct (Qeq_bool (Np.sum w) 0) eqn:Hq; [discriminate|].
  apply Nat.eqb_eq in El. repeat split; auto.
  - intros Hz. apply Qeq_bool_iff in Hz. congruence.
  - congruence.
Qed.

Lemma sum_pos (w : Np.array) :
  w <> [] -> Forall (fun x => 0 < x) w -> 0 < Np.sum w.
Proof.
  intros Hne Hw. rewrite sum_sigma. apply sigma_pos.
  - destruct w; [congruence | simpl; lia].
  - intros i Hi. rewrite Forall_forall in Hw. apply Hw, nth_In, Hi.
Qed.

(** Quotients against a positive denominator. *)
Lemma div_ge_iff (d s y : Q) : 0 < s -> (y <= d / s <-> 0 <= d - y * s).
Proof.
  intros Hs. split; intros H.
  - assert (y * s <= d / s * s) by (apply Qmult_le_compat_r; lra).
    assert (d / s * s == d) by (field; lra). lra.
  - apply Qle_shift_div_l; lra.
Qed.

Lemma div_lt_iff (d s y : Q) : 0 < s -> (d / s < y <-> d - y * s < 0).
Proof.
  intros Hs. pose proof (div_ge_iff d s y Hs) as [H1 H2].
  split; intros H.
  - destruct (Qlt_le_dec (d - y * s) 0); [assumption|].
    specialize (H2 q). lra.
  - destruct (Qlt_le_dec (d / s) y); [assumption|].
    specialize (H1 q). lra.
Qed.

(** ** [weighted_average] *)

Lemma inject_nat_pos (n : nat) : (0 < n)%nat -> 0 < inject_Z (Z.of_nat n).
Proof.
  intros Hn. change 0 with (inject_Z 0). rewrite <- Zlt_Qlt. lia.
Qed.

Lemma repeat_nth (x d : Q) (n i : nat) :
  (i < n)%nat -> nth i (repeat x n) d = x.
Proof.
  revert i; induction n as [|n IH]; intros i Hi; [lia|].
  destruct i; simpl; [reflexivity | apply IH; lia].
Qed.

Lemma weighted_average_sigma (firings outputs : Np.array) :
  length firings = length outputs ->
  ~ sigma (length outputs) (fun i => nth i firings 0 + bias) == 0 ->
  exists r,
    weighted_average firings outputs = Ok r /\
    r == sigma (length outputs)
           (fun i => nth i outputs 0 * (nth i firings 0 + bias))
         / sigma (length outputs) (fun i => nth i firings 0 + bias).
Proof.
  intros El Hs. unfold weighted_average.
  assert (Hsum : Np.sum (Np.add_scalar firings bias)
                 == sigma (length outputs) (fun i => nth i firings 0 + bias)).
  { rewrite sum_sigma, add_scalar_length, El. apply sigma_ext.
    intros i Hi. rewrite add_scalar_nth by lia. reflexivity. }
  eexists. split.
  - apply average_ok.
    + rewrite add_scalar_length. auto.
    + rewrite Hsum. exact Hs.
  - rewrite Hsum. apply Qdiv_comp; [|reflexivity].
    rewrite dot_sigma by (rewrite add_scalar_length; auto).
    apply sigma_ext. intros i Hi. rewrite add_scalar_nth by lia.
    reflexivity.
Qed.

(** C8. [weighted_average(firings, outputs)] is the quotient of
    sum(outputs[i] * (firings[i] + 1e-10)) by sum(firings[i] + 1e-10);
    with one nonzero firing degree [f] for every rule and at least one
    output it is the arithmetic mean of the outputs. *)
Theorem weighted_average_uniform_mean (outputs : Np.array) (f : Q) :
  outputs <> [] -> 0 <= f -> ~ f == 0 ->
  (forall firings,
      length firings = length outputs ->
      ~ sigma (length outputs) (fun i => nth i firings 0 + bias) == 0 ->
      exists r,
        weighted_average firings outputs = Ok r /\
        r == sigma (length outputs)
               (fun i => nth i outputs 0 * (nth i firings 0 + bias))
             / sigma (length outputs) (fun i => nth i firings 0 + bias))
  /\
  exists r,
    weighted_average (repeat f (length outputs)) outputs = Ok r /\
    r == arithmetic_mean outputs.
Proof.
  intros Hne Hf0 Hf. split.
  - intros firings. apply weighted_average_sigma.
  - set (n := length outputs).
    assert (Hn : (0 < n)%nat)
      by (subst n; destruct outputs; [congruence | simpl; lia]).
    pose proof (inject_nat_pos n Hn) as Hq.
    assert (Hb : 0 < f + bias) by (unfold bias; lra).
    assert (Hw : sigma n (fun i => nth i (repeat f n) 0 + bias)
                 == inject_Z (Z.of_nat n) * (f + bias)).
    { rewrite <- sigma_const. apply sigma_ext. intros i Hi.
      rewrite repeat_nth by exact Hi. reflexivity. }
    destruct (weighted_average_sigma (repeat f n) outputs) as (r & Hr & Er).
    + apply repeat_length.
    + fold n. rewrite Hw. intros Hz.
      assert (0 < inject_Z (Z.of_nat n) * (f + bias))
        by (apply Qmult_lt_0_compat; assumption).
      lra.
    + exists r. split; [exact Hr|]. rewrite Er. fold n. rewrite Hw.
      assert (Hd : sigma n (fun i => nth i outputs 0 * (nth i (repeat f n) 0 + bias))
                   == (f + bias) * Np.sum outputs).
      { rewrite sum_sigma, <- sigma_scale. apply sigma_ext. intros i Hi.
        rewrite repeat_nth by exact Hi. lra. }
      rewrite Hd. unfold arithmetic_mean. fold n. field. split; lra.
Qed.

Lemma weighted_average_uniform_mean_witness :
  exists r,
    weighted_average (repeat (1 # 2) 3) [3; 4; 5] = Ok r /\
    r == arithmetic_mean [3; 4; 5].
Proof.
  apply (weighted_average_uniform_mean [3; 4; 5] (1 # 2)).
  - discriminate.
  - lra.
  - lra.
Defined.

(** ** The switch index, [__find_k] *)

Lemma last_item_cons {A : Type} (x y : A) (l : list A) :
  Np.last_item (x :: y :: l) = Np.last_item (y :: l).
Proof. reflexivity. Qed.

Lemma last_where_from (mask : list bool) (i : nat) :
  match Np.last_item (Np.where_from i mask) with
  | Ok k =>
      exists m, k = (i + m)%nat /\ (m < length mask)%nat /\
                nth m mask false = true /\
                forall m', (m < m' < length mask)%nat ->
                           nth m' mask false = false
  | Raise e =>
      e = IndexError /\
      forall m, (m < length mask)%nat -> nth m mask false = false
  end.
Proof.
  revert i. induction mask as [|b mask IH]; intros i.
  - simpl. split; [reflexivity | intros; lia].
  - specialize (IH (S i)). simpl Np.where_from.
    destruct (Np.where_from (S i) mask) as [|j rest] eqn:Hw.
    + simpl in IH. destruct IH as [_ IH]. destruct b; simpl.
      * exists 0%nat. repeat split; try lia.
        intros m' Hm'. destruct m'; [lia|]. apply IH. simpl in Hm'. lia.
      * split; [reflexivity|]. intros m Hm.
        destruct m; [reflexivity|]. apply IH. simpl in Hm. lia.
    + assert (E : Np.last_item (if b then i :: j :: rest else j :: rest)
                  = Np.last_item (j :: rest))
        by (destruct b; reflexivity).
      rewrite E. destruct (Np.last_item (j :: rest)) as [k|e].
      * destruct IH as (m & -> & Hm & Ht & Hlast).
        exists (S m). repeat split; simpl; try lia; auto.
        intros m' Hm'. destruct m'; [lia|]. apply Hlast. lia.
      * destruct IH as [_ IH]. exfalso.
        clear E. revert Hw. generalize (S i).
        clear - IH. induction mask as [|b' mask IH']; intros i' Hw.
        -- discriminate.
        -- simpl in Hw. pose proof (IH 0%nat ltac:(simpl; lia)) as H0.
           simpl in H0. subst b'.
           apply (IH' (fun m Hm => IH (S m) ltac:(simpl; lia)) (S i') Hw).
Qed.

Lemma mask_nth (domain : Np.array) (c : Q) (m : nat) :
  (m < length domain)%nat ->
  nth m (map (fun d => Qle_bool d c) domain) false
  = Qle_bool (nth m domain 0) c.
Proof.
  intros Hm.
  rewrite (nth_indep _ false (Qle_bool 0 c)) by (rewrite length_map; exact Hm).
  apply (map_nth (fun d => Qle_bool d c)).
Qed.

Lemma Qle_bool_false (x y : Q) : Qle_bool x y = false <-> ~ x <= y.
Proof.
  rewrite <- Qle_bool_iff. destruct (Qle_bool x y); split; intros H;
    try congruence; try (exfalso; apply H; reflexivity).
Qed.

Lemma find_k_ok_iff (c : Q) (domain : Np.array) (k : nat) :
  find_k c domain = Ok k <-> switch_index domain c k.
Proof.
  unfold find_k, Np.where_, switch_index.
  pose proof (last_where_from (map (fun d => Qle_bool d c) domain) 0) as H.
  rewrite length_map in H.
  destruct (Np.last_item _) as [k'|e].
  - destruct H as (m & -> & Hm & Ht & Hlast). simpl.
    rewrite mask_nth in Ht by exact Hm. apply Qle_bool_iff in Ht.
    assert (Hl : forall j, (m < j < length domain)%nat ->
                           ~ nth j domain 0 <= c).
    { intros j Hj. apply Qle_bool_false. rewrite <- mask_nth by lia.
      apply Hlast, Hj. }
    split.
    + intros E. injection E as <-. auto.
    + intros (Hk & Hle & Hgt). f_equal.
      destruct (Nat.lt_trichotomy m k) as [Hlt | [-> | Hlt]];
        [|reflexivity|].
      * exfalso. apply (Hl k); [lia | exact Hle].
      * exfalso. apply (Hgt m); [lia | exact Ht].
  - destruct H as [_ H]. split; [discriminate|].
    intros (Hk & Hle & _). exfalso.
    specialize (H k Hk). rewrite mask_nth in H by exact Hk.
    apply Qle_bool_false in H. contradiction.
Qed.

Lemma find_k_raise (c : Q) (domain : Np.array) (e : pyerr) :
  find_k c domain = Raise e ->
  e = IndexError /\
  forall j, (j < length domain)%nat -> ~ nth j domain 0 <= c.
Proof.
  unfold find_k, Np.where_.
  pose proof (last_where_from (map (fun d => Qle_bool d c) domain) 0) as H.
  rewrite length_map in H.
  destruct (Np.last_item _) as [k'|e']; [discriminate|].
  intros E. injection E as <-. destruct H as [-> H]. split; [reflexivity|].
  intros j Hj. apply Qle_bool_false. rewrite <- mask_nth by exact Hj.
  apply H, Hj.
Qed.

Lemma find_k_total (c : Q) (domain : Np.array) (j : nat) :
  (j < length domain)%nat -> nth j domain 0 <= c ->
  exists k, find_k c domain = Ok k.
Proof.
  intros Hj Hle. destruct (find_k c domain) as [k|e] eqn:E.
  - exists k. reflexivity.
  - apply find_k_raise in E. destruct E as [_ E].
    exfalso. exact (E j Hj Hle).
Qed.

(** ** The reweighting of [__find_c_minute] *)

Lemma broadcast_to_same (n : nat) (src : Np.array) :
  length src = n -> Np.broadcast_to n src = Ok src.
Proof. intros <-. unfold Np.broadcast_to. rewrite Nat.eqb_refl. reflexivity. Qed.

Lemma splice_length (under over : Np.array) (k n : nat) :
  length under = n -> length over = n -> (k < n)%nat ->
  length (firstn (k + 1) under ++ skipn (k + 1) over) = n.
Proof.
  intros Hu Ho Hk. rewrite length_app, length_firstn, length_skipn. lia.
Qed.

Lemma splice_nth (under over : Np.array) (k i : nat) :
  (k < length under)%nat ->
  nth i (firstn (k + 1) under ++ skipn (k + 1) over) 0
  = if (i <=? k)%nat then nth i under 0 else nth i over 0.
Proof.
  intros Hk.
  assert (Hl : length (firstn (k + 1) under) = (k + 1)%nat)
    by (rewrite length_firstn; lia).
  destruct (Nat.leb_spec i k) as [Hi|Hi].
  - rewrite app_nth1 by lia. rewrite nth_firstn.
    destruct (Nat.ltb_spec i (k + 1)); [reflexivity | lia].
  - rewrite app_nth2 by lia. rewrite Hl, nth_skipn. f_equal. lia.
Qed.

Lemma kweights_length (under over : Np.array) (k n : nat) :
  length under = n -> length over = n -> (k < n)%nat ->
  length (kweights under over k) = n.
Proof.
  intros Hu Ho Hk. unfold kweights.
  rewrite add_scalar_length. apply splice_length; assumption.
Qed.

Lemma kweights_nth (under over : Np.array) (k n i : nat) :
  length under = n -> length over = n -> (k < n)%nat -> (i < n)%nat ->
  nth i (kweights under over k) 0 = reweighted under over k i.
Proof.
  intros Hu Ho Hk Hi. unfold kweights, reweighted.
  rewrite add_scalar_nth by (rewrite (splice_length _ _ k n); assumption).
  rewrite splice_nth by lia. reflexivity.
Qed.

(** With arrays of the domain's length, [__find_c_minute] is the average
    of the domain under [kweights] at the switch index. *)
Lemma find_c_minute_switch (under over domain : Np.array) (c : Q) (k : nat) :
  length under = length domain -> length over = length domain ->
  find_k c domain = Ok k ->
  find_c_minute under over c domain
  = Np.average domain (kweights under over k).
Proof.
  intros Hu Ho Hk. unfold find_c_minute. rewrite Hk. simpl.
  apply find_k_ok_iff in Hk. destruct Hk as (Hk & _).
  set (n := length domain) in *.
  assert (Hz : length (Np.zeros n) = n) by apply repeat_length.
  assert (Hf : length (firstn (k + 1) under) = (k + 1)%nat)
    by (rewrite length_firstn; lia).
  unfold Np.set_prefix.
  rewrite broadcast_to_same by (rewrite !length_firstn; lia).
  simpl. unfold Np.set_suffix.
  rewrite broadcast_to_same.
  2:{ rewrite !length_skipn, length_app, length_skipn, Hf, Hz. lia. }
  simpl. rewrite firstn_app, Hf, Nat.sub_diag, firstn_O, app_nil_r.
  rewrite firstn_all2 by lia. reflexivity.
Qed.

(** ** The fixed-point loop of [__find_y], relationally *)

Lemma km_converges_impl (step step' : Q -> Q -> Prop) (c y : Q) :
  (forall a b, step a b -> step' a b) ->
  km_converges step c y -> km_converges step' c y.
Proof.
  intros Himp. induction 1 as [c c2 Hs Hd | c c2 y Hs Hd _ IH].
  - apply km_stop; auto.
  - apply km_next with c2; auto.
Qed.

Lemma loop_exit_iff (c c2 : Q) :
  Qle_bool (Qabs (c2 - c)) eps = true <-> Qabs (c2 - c) <= eps.
Proof. apply Qle_bool_iff. Qed.

Lemma loop_continue_iff (c c2 : Q) :
  Qle_bool (Qabs (c2 - c)) eps = false <-> eps < Qabs (c2 - c).
Proof.
  rewrite Qle_bool_false. split; intros H.
  - apply Qnot_le_lt, H.
  - apply Qlt_not_le, H.
Qed.

Lemma find_y_loop_eq (fuel : nat) (step : Q -> result Q) (c c2 : Q) :
  find_y_loop fuel step c c2
  = if Qle_bool (Qabs (c2 - c)) eps then Some (Ok c2)
    else match fuel with
         | O => None
         | S fuel' =>
             c_next <~ lift (step c2) ;; find_y_loop fuel' step c2 c_next
         end.
Proof. destruct fuel; reflexivity. Qed.

Lemma find_y_loop_exit (fuel : nat) (step : Q -> result Q) (c c2 : Q) :
  Qabs (c2 - c) <= eps -> find_y_loop fuel step c c2 = Some (Ok c2).
Proof.
  intros H. apply loop_exit_iff in H. rewrite find_y_loop_eq, H.
  reflexivity.
Qed.

Lemma find_y_loop_continue (fuel : nat) (step : Q -> result Q) (c c2 : Q) :
  eps < Qabs (c2 - c) ->
  find_y_loop (S fuel) step c c2
  = (c_next <~ lift (step c2) ;; find_y_loop fuel step c2 c_next).
Proof.
  intros H. apply loop_continue_iff in H. rewrite find_y_loop_eq, H.
  reflexivity.
Qed.

Lemma find_y_loop_sound (fuel : nat) (step : Q -> result Q) (c c2 y : Q) :
  step c = Ok c2 ->
  find_y_loop fuel step c c2 = Some (Ok y) -> km_converges (returns step) c y.
Proof.
  revert c c2. induction fuel as [|fuel IH]; intros c c2 Hs Hl.
  - rewrite find_y_loop_eq in Hl.
    destruct (Qle_bool (Qabs (c2 - c)) eps) eqn:E; [|discriminate].
    injection Hl as <-. apply km_stop; [exact Hs | apply loop_exit_iff, E].
  - rewrite find_y_loop_eq in Hl.
    destruct (Qle_bool (Qabs (c2 - c)) eps) eqn:E.
    + injection Hl as <-. apply km_stop; [exact Hs | apply loop_exit_iff, E].
    + destruct (step c2) as [c3|e] eqn:Hs2; simpl in Hl; [|discriminate].
      apply km_next with c2; [exact Hs | apply loop_continue_iff, E |].
      apply (IH c2 c3 Hs2 Hl).
Qed.

Lemma find_y_loop_complete (step : Q -> result Q) (c y : Q) :
  km_converges (returns step) c y ->
  exists c2 fuel0,
    step c = Ok c2 /\
    forall fuel, (fuel0 <= fuel)%nat ->
                 find_y_loop fuel step c c2 = Some (Ok y).
Proof.
  induction 1 as [c c2 Hs Hd | c c2 y Hs Hd _ (c3 & fuel0 & Hs2 & IH)].
  - exists c2, 0%nat. split; [exact Hs|].
    intros fuel _. apply find_y_loop_exit, Hd.
  - exists c2, (S fuel0). split; [exact Hs|].
    intros fuel Hf. destruct fuel as [|fuel]; [lia|].
    rewrite find_y_loop_continue by exact Hd.
    rewrite Hs2. simpl. apply IH. lia.
Qed.

Lemma km_converges_functional (step : Q -> result Q) (c y y' : Q) :
  km_converges (returns step) c y -> km_converges (returns step) c y' ->
  y = y'.
Proof.
  intros H. revert y'.
  induction H as [c c2 Hs Hd | c c2 y Hs Hd _ IH]; intros y' H';
    inversion H' as [c0 c2' Hs' Hd' | c0 c2' y0 Hs' Hd' Hrest]; subst;
    unfold returns in Hs, Hs'; rewrite Hs in Hs'; injection Hs' as <-.
  - reflexivity.
  - exfalso. lra.
  - exfalso. lra.
  - apply IH, Hrest.
Qed.

Lemma find_y_loop_mono (fuel fuel' : nat) (step : Q -> result Q)
    (c c2 : Q) (r : result Q) :
  (fuel <= fuel')%nat ->
  find_y_loop fuel step c c2 = Some r ->
  find_y_loop fuel' step c c2 = Some r.
Proof.
  revert fuel' c c2. induction fuel as [|fuel IH]; intros fuel' c c2 Hf Hl;
    rewrite find_y_loop_eq in Hl; rewrite find_y_loop_eq;
    destruct (Qle_bool (Qabs (c2 - c)) eps); try assumption;
    try discriminate.
  destruct fuel' as [|fuel']; [lia|].
  destruct (step c2) as [c3|e]; simpl in *; [|assumption].
  apply IH; [lia | exact Hl].
Qed.

(** ** Ascending domains *)

Lemma sorted_nth_le (l : Np.array) (i j : nat) :
  Sorted Qle l -> (i <= j < length l)%nat -> nth i l 0 <= nth j l 0.
Proof.
  intros Hs. apply Sorted_StronglySorted in Hs.
  2:{ intros x y z. apply Qle_trans. }
  revert i j. induction Hs as [|x l Hs IH Hx]; intros i j Hij.
  - simpl in Hij. lia.
  - destruct i, j; simpl in *; try lia.
    + lra.
    + rewrite Forall_forall in Hx. apply Hx, nth_In. lia.
    + apply IH. lia.
Qed.

(** ** The Karnik-Mendel iteration on a fixed domain *)

Section KarnikMendelIteration.

Variables domain under over : Np.array.

Hypothesis domain_nonempty : domain <> [].
Hypothesis domain_ascending : Sorted Qle domain.
Hypothesis under_shape : length under = length domain.
Hypothesis over_shape : length over = length domain.
Hypothesis under_positive : Forall (fun w => 0 < w + bias) under.
Hypothesis over_positive : Forall (fun w => 0 < w + bias) over.

Let n := length domain.
Let x (i : nat) : Q := nth i domain 0.
Let W (k i : nat) : Q := reweighted under over k i.
Let F (k : nat) : Q := centroid under over domain k.
Let step (c : Q) : result Q := find_c_minute under over c domain.

Lemma n_pos : (0 < n)%nat.
Proof. subst n. destruct domain; [congruence | simpl; lia]. Qed.

Lemma W_pos (k i : nat) : (i < n)%nat -> 0 < W k i.
Proof.
  intros Hi. subst W. unfold reweighted. simpl.
  rewrite Forall_forall in under_positive, over_positive.
  destruct (i <=? k)%nat.
  - apply under_positive, nth_In. subst n. lia.
  - apply over_positive, nth_In. subst n. lia.
Qed.

Lemma kweights_sum (k : nat) :
  (k < n)%nat -> Np.sum (kweights under over k) == sigma n (W k).
Proof.
  intros Hk. rewrite sum_sigma.
  rewrite (kweights_length under over k n) by assumption.
  apply sigma_ext. intros i Hi.
  rewrite (kweights_nth under over k n) by assumption. reflexivity.
Qed.

Lemma kweights_sum_pos (k : nat) :
  (k < n)%nat -> 0 < Np.sum (kweights under over k).
Proof.
  intros Hk. rewrite kweights_sum by exact Hk.
  apply sigma_pos; [apply n_pos | intros; apply W_pos; assumption].
Qed.

(** The moment of the weights about [y]: its sign tells on which side
    of [y] the candidate lies. *)
Lemma moment (k : nat) (y : Q) :
  (k < n)%nat ->
  Np.sum (Np.zip_with Qmult domain (kweights under over k))
  - y * Np.sum (kweights under over k)
  == sigma n (fun i => W k i * (x i - y)).
Proof.
  intros Hk.
  rewrite dot_sigma
    by (rewrite (kweights_length under over k n); auto).
  rewrite kweights_sum by exact Hk. fold n.
  rewrite <- sigma_scale.
  assert (E : forall a b, a - b == a + (-(1)) * b) by (intros; lra).
  rewrite E, <- sigma_scale, <- sigma_plus.
  apply sigma_ext. intros i Hi.
  rewrite (kweights_nth under over k n) by assumption.
  subst x W. simpl. lra.
Qed.

Lemma centroid_ge (k : nat) (y : Q) :
  (k < n)%nat ->
  (y <= F k <-> 0 <= sigma n (fun i => W k i * (x i - y))).
Proof.
  intros Hk. rewrite <- moment by exact Hk.
  apply div_ge_iff, kweights_sum_pos, Hk.
Qed.

Lemma centroid_lt (k : nat) (y : Q) :
  (k < n)%nat ->
  (F k < y <-> sigma n (fun i => W k i * (x i - y)) < 0).
Proof.
  intros Hk. rewrite <- moment by exact Hk.
  apply div_lt_iff, kweights_sum_pos, Hk.
Qed.

Lemma x_le (i j : nat) : (i <= j < n)%nat -> x i <= x j.
Proof. apply sorted_nth_le, domain_ascending. Qed.

(** Every candidate is at least the first domain value. *)
Lemma centroid_ge_first (k : nat) : (k < n)%nat -> x 0%nat <= F k.
Proof.
  intros Hk. apply centroid_ge; [exact Hk|].
  apply Qle_trans with (sigma n (fun _ => 0)).
  - rewrite sigma_const. lra.
  - apply sigma_le. intros i Hi.
    pose proof (W_pos k i Hi). pose proof (x_le 0 i ltac:(lia)).
    apply Qmult_le_0_compat; lra.
Qed.

(** No crossing: a candidate that jumps right from [s] to [q] or beyond
    and one that jumps left from [t], between them, to [p] or below,
    cannot both exist when [p <= s]. *)
Lemma no_crossing (p s t q : nat) :
  (p <= s)%nat -> (s < t)%nat -> (t <= q)%nat -> (q < n)%nat ->
  x q <= F s -> F t < x (S p) -> False.
Proof.
  intros Hps Hst Htq Hq Hright Hleft.
  apply centroid_ge in Hright; [|lia].
  apply centroid_lt in Hleft; [|lia].
  assert (Hle : sigma n (fun i => W s i * (x i - x q))
                <= sigma n (fun i => W t i * (x i - x (S p)))).
  { apply sigma_le. intros i Hi.
    pose proof (W_pos s i Hi) as Hws. pose proof (W_pos t i Hi) as Hwt.
    pose proof (x_le (S p) q ltac:(lia)) as Hpq.
    subst W. unfold reweighted in *. simpl in *.
    destruct (Nat.leb_spec i s) as [Hs|Hs];
      destruct (Nat.leb_spec i t) as [Ht|Ht]; try lia.
    - apply Qmult_le_l; [exact Hws | lra].
    - pose proof (x_le i q ltac:(lia)). pose proof (x_le (S p) i ltac:(lia)).
      apply Qle_trans with 0.
      + assert (0 <= (nth i over 0 + bias) * (x q - x i))
          by (apply Qmult_le_0_compat; lra). lra.
      + apply Qmult_le_0_compat; lra.
    - apply Qmult_le_l; [exact Hws | lra]. }
  lra.
Qed.

(** An argument at or above the first domain value has a switch index,
    and the step returns the centroid for it. *)
Lemma step_at (c : Q) :
  x 0%nat <= c ->
  exists k, switch_index domain c k /\ step c = Ok (F k).
Proof.
  intros Hc. destruct (find_k_total c domain 0) as [k Hk];
    [apply n_pos | exact Hc |].
  exists k. split; [apply find_k_ok_iff, Hk|].
  subst step. simpl.
  rewrite (find_c_minute_switch under over domain c k) by assumption.
  apply find_k_ok_iff in Hk. destruct Hk as (Hk & _).
  apply average_ok.
  - symmetry. apply kweights_length; assumption.
  - pose proof (kweights_sum_pos k Hk). lra.
Qed.

(** The bounds kept by the loop: [lo] is zero or follows an index whose
    candidate reached the present one, [hi] is the length or an index
    whose candidate fell at or below the present one. *)
Let lo_ok (lo kp : nat) : Prop :=
  lo = 0%nat \/ exists s, lo = S s /\ x kp <= F s.

Let hi_ok (hi kp : nat) : Prop :=
  hi = n \/ ((hi < n)%nat /\ F hi < x (S kp)).

Lemma loop_terminates (m : nat) :
  forall lo hi kp k,
    (hi - lo <= m)%nat -> (lo <= kp < hi)%nat -> (hi <= n)%nat ->
    switch_index domain (F kp) k ->
    lo_ok lo kp -> hi_ok hi kp ->
    exists y, forall fuel, (m <= fuel)%nat ->
                find_y_loop fuel step (F kp) (F k) = Some (Ok y).
Proof.
  induction m as [|m IH]; intros lo hi kp k Hm Hkp Hhi Hsw Hlo Hhiok;
    [lia|].
  destruct (Qle_bool (Qabs (F k - F kp)) eps) eqn:Hexit.
  - exists (F k). intros fuel _.
    apply find_y_loop_exit, loop_exit_iff, Hexit.
  - apply loop_continue_iff in Hexit.
    assert (Hne : k <> kp).
    { intros ->. revert Hexit. apply Qle_not_lt.
      apply Qabs_case; intros _; unfold eps; lra. }
    pose proof Hsw as (Hk & Hkle & Hkgt). fold n in Hk, Hkgt.
    destruct (step_at (F k) (centroid_ge_first k Hk)) as (k' & Hsw' & Hstep).
    assert (Hnext : exists y, forall fuel, (m <= fuel)%nat ->
              find_y_loop fuel step (F k) (F k') = Some (Ok y)).
    { destruct (Nat.lt_ge_cases kp k) as [Hright | Hleft].
      - (* the candidate moved right *)
        apply (IH (S kp) hi k k'); try lia; try assumption.
        + destruct Hhiok as [-> | (Hh & Hhlt)]; [lia|].
          destruct (Nat.lt_ge_cases k hi) as [|Hbad]; [lia|].
          exfalso. apply (no_crossing kp kp hi k); try lia; assumption.
        + right. exists kp. split; [reflexivity | exact Hkle].
        + destruct Hhiok as [-> | (Hh & Hhlt)]; [left; reflexivity|].
          right. split; [exact Hh|].
          destruct (Nat.lt_ge_cases k hi) as [Hkh|Hbad].
          * pose proof (x_le (S kp) (S k) ltac:(lia)). lra.
          * exfalso. apply (no_crossing kp kp hi k); try lia; assumption.
      - (* the candidate moved left *)
        assert (Hlt : (k < kp)%nat) by lia.
        assert (Hfall : F kp < x (S k)).
        { apply Qnot_le_lt. apply Hkgt. lia. }
        apply (IH lo kp k k'); try lia; try assumption.
        + destruct Hlo as [-> | (s & -> & Hs)]; [lia|].
          destruct (Nat.lt_ge_cases s k) as [|Hbad]; [lia|].
          exfalso. apply (no_crossing k s kp kp); try lia; assumption.
        + destruct Hlo as [-> | (s & -> & Hs)]; [left; reflexivity|].
          right. exists s. split; [reflexivity|].
          pose proof (x_le k kp ltac:(lia)). lra.
        + right. split; [lia | exact Hfall]. }
    destruct Hnext as (y & Hy). exists y. intros fuel Hf.
    destruct fuel as [|fuel]; [lia|].
    rewrite find_y_loop_continue by exact Hexit.
    rewrite Hstep. simpl. apply Hy. lia.
Qed.

(** Every candidate has a switch index: [__find_k] does not raise. *)
Lemma candidates_have_switch (c0 c : Q) :
  x 0%nat <= c0 -> km_candidate step c0 c ->
  x 0%nat <= c /\ exists k, find_k c domain = Ok k.
Proof.
  intros H0 Hc.
  assert (Hge : x 0%nat <= c).
  { induction Hc as [|c c2 Hc IH Hs]; [exact H0|].
    destruct (step_at c IH) as (k & (Hk & _) & Hstep).
    rewrite Hs in Hstep. injection Hstep as ->.
    apply centroid_ge_first, Hk. }
  split; [exact Hge|].
  apply (find_k_total c domain 0); [apply n_pos | exact Hge].
Qed.

(** From a start value at or above the first domain value the loop of
    [__find_y] ends, within [length domain + 1] executions of its
    body. *)
Lemma find_y_loop_from_start (c0 : Q) :
  x 0%nat <= c0 ->
  exists c1 y,
    step c0 = Ok c1 /\
    forall fuel, (S n <= fuel)%nat ->
                 find_y_loop fuel step c0 c1 = Some (Ok y).
Proof.
  intros H0. destruct (step_at c0 H0) as (k0 & Hsw0 & Hstep0).
  exists (F k0).
  destruct (Qle_bool (Qabs (F k0 - c0)) eps) eqn:Hexit.
  - exists (F k0). split; [exact Hstep0|]. intros fuel _.
    apply find_y_loop_exit, loop_exit_iff, Hexit.
  - apply loop_continue_iff in Hexit.
    pose proof Hsw0 as (Hk0 & _). fold n in Hk0.
    destruct (step_at (F k0) (centroid_ge_first k0 Hk0))
      as (k1 & Hsw1 & Hstep1).
    destruct (loop_terminates n 0 n k0 k1) as (y & Hy);
      try lia; try assumption.
    + left. reflexivity.
    + left. reflexivity.
    + exists y. split; [exact Hstep0|]. intros fuel Hf.
      destruct fuel as [|fuel]; [lia|].
      rewrite find_y_loop_continue by exact Hexit.
      rewrite Hstep1. simpl. apply Hy. lia.
Qed.

End KarnikMendelIteration.

(** The average of an ascending domain under positive weights exists and
    is at least the first domain value. *)
Lemma average_ge_first (domain w : Np.array) :
  domain <> [] -> Sorted Qle domain -> length w = length domain ->
  Forall (fun t => 0 < t) w ->
  exists c, Np.average domain w = Ok c /\ nth 0 domain 0 <= c.
Proof.
  intros Hne Hs Hl Hw.
  assert (Hpos : 0 < Np.sum w).
  { apply sum_pos; [|exact Hw]. destruct w, domain; simpl in *; congruence. }
  eexists. split.
  - apply average_ok; [auto | lra].
  - apply div_ge_iff; [exact Hpos|].
    rewrite dot_sigma by auto. rewrite sum_sigma, Hl, <- sigma_scale.
    assert (E : forall a b, a - b == a + (-(1)) * b) by (intros; lra).
    rewrite E, <- sigma_scale, <- sigma_plus.
    apply Qle_trans with (sigma (length domain) (fun _ => 0)).
    + rewrite sigma_const. lra.
    + apply sigma_le. intros i Hi.
      assert (0 < nth i w 0)
        by (rewrite Forall_forall in Hw; apply Hw, nth_In; lia).
      pose proof (sorted_nth_le domain 0 i Hs ltac:(lia)).
      assert (0 <= (nth i domain 0 - nth 0 domain 0) * nth i w 0)
        by (apply Qmult_le_0_compat; lra).
      lra.
Qed.

(** ** The run of [__find_y] *)

Lemma find_y_run (domain thetas under over : Np.array) :
  domain <> [] -> Sorted Qle domain ->
  length thetas = length domain ->
  length under = length domain -> length over = length domain ->
  Forall (fun w => 0 < w) thetas ->
  Forall (fun w => 0 < w + bias) under ->
  Forall (fun w => 0 < w + bias) over ->
  exists c0 c1 y,
    Np.average domain thetas = Ok c0 /\
    find_c_minute under over c0 domain = Ok c1 /\
    (forall fuel,
        find_y fuel (find_c_minute under over) domain thetas
        = find_y_loop fuel (fun c => find_c_minute under over c domain)
            c0 c1) /\
    (forall fuel, (S (length domain) <= fuel)%nat ->
        find_y_loop fuel (fun c => find_c_minute under over c domain) c0 c1
        = Some (Ok y)).
Proof.
  intros Hne Hasc Ht Hu Ho Htp Hup Hop.
  destruct (average_ge_first domain thetas Hne Hasc Ht Htp) as (c0 & Havg & H0).
  destruct (find_y_loop_from_start domain under over Hne Hasc Hu Ho Hup Hop c0 H0)
    as (c1 & y & Hstep & Hloop).
  exists c0, c1, y. repeat split; try assumption.
  intros fuel. unfold find_y. rewrite Havg. simpl. rewrite Hstep.
  reflexivity.
Qed.

Lemma find_y_never_raises (domain thetas under over : Np.array) :
  domain <> [] -> Sorted Qle domain ->
  length thetas = length domain ->
  length under = length domain -> length over = length domain ->
  Forall (fun w => 0 < w) thetas ->
  Forall (fun w => 0 < w + bias) under ->
  Forall (fun w => 0 < w + bias) over ->
  forall fuel e,
    find_y fuel (find_c_minute under over) domain thetas <> Some (Raise e).
Proof.
  intros Hne Hasc Ht Hu Ho Htp Hup Hop fuel e Hr.
  destruct (find_y_run domain thetas under over)
    as (c0 & c1 & y & _ & _ & Hrun & Hloop); try assumption.
  rewrite Hrun in Hr.
  apply (find_y_loop_mono fuel (Nat.max fuel (S (length domain)))) in Hr;
    [|lia].
  rewrite Hloop in Hr by lia. discriminate.
Qed.

(** ** [__membership_func_union] *)

Lemma fold_max_spec (l : list Q) (v : Q) :
  Forall (fun u => u <= fold_left Qmax l v) (v :: l) /\
  Exists (fun u => fold_left Qmax l v == u) (v :: l).
Proof.
  revert v. induction l as [|u l IH]; intros v; simpl.
  - split; [repeat constructor; lra | constructor; reflexivity].
  - destruct (IH (Qmax v u)) as [Hall Hex].
    inversion Hall as [|? ? Hm Hl]; subst.
    pose proof (Q.le_max_l v u). pose proof (Q.le_max_r v u).
    split.
    + repeat constructor; try lra. exact Hl.
    + inversion Hex as [? ? Hhd | ? ? Htl]; subst.
      * destruct (Q.max_spec v u) as [[_ E] | [_ E]].
        -- apply Exists_cons_tl, Exists_cons_hd. rewrite Hhd, E. reflexivity.
        -- apply Exists_cons_hd. rewrite Hhd, E. reflexivity.
      * apply Exists_cons_tl, Exists_cons_tl, Htl.
Qed.

(** [column_max] is an upper bound of its column, and a value of it. *)
Lemma column_max_spec (first : Np.array) (others : list Np.array) (i : nat) :
  Forall (fun r => nth i r 0 <= column_max (first :: others) i)
    (first :: others) /\
  Exists (fun r => column_max (first :: others) i == nth i r 0)
    (first :: others).
Proof.
  unfold column_max.
  destruct (fold_max_spec (map (fun r => nth i r 0) others) (nth i first 0))
    as [Hall Hex].
  split.
  - change (nth i first 0 :: map (fun r => nth i r 0) others)
      with (map (fun r => nth i r 0) (first :: others)) in Hall.
    rewrite Forall_map in Hall. exact Hall.
  - change (nth i first 0 :: map (fun r => nth i r 0) others)
      with (map (fun r => nth i r 0) (first :: others)) in Hex.
    rewrite Exists_map in Hex. exact Hex.
Qed.

Lemma broadcast_rows_same (n : nat) (rows : list Np.array) :
  Forall (fun r => length r = n) rows -> broadcast_rows n rows = Ok rows.
Proof.
  induction 1 as [|r rows Hr _ IH]; simpl.
  - reflexivity.
  - rewrite broadcast_to_same by exact Hr. simpl. rewrite IH. reflexivity.
Qed.

Lemma max_axis0_length (first : Np.array) (others : list Np.array) (n : nat) :
  length first = n -> Forall (fun r => length r = n) others ->
  length (Np.max_axis0 first others) = n.
Proof.
  unfold Np.max_axis0. intros Hf Ho. revert first Hf.
  induction Ho as [|r others Hr _ IH]; intros first Hf; simpl.
  - exact Hf.
  - apply IH. rewrite zip_with_length; congruence.
Qed.

Lemma max_axis0_nth (first : Np.array) (others : list Np.array) (n i : nat) :
  length first = n -> Forall (fun r => length r = n) others -> (i < n)%nat ->
  nth i (Np.max_axis0 first others) 0 = column_max (first :: others) i.
Proof.
  unfold Np.max_axis0, column_max. intros Hf Ho Hi. revert first Hf.
  induction Ho as [|r others Hr _ IH]; intros first Hf; simpl.
  - reflexivity.
  - rewrite IH by (rewrite zip_with_length; congruence).
    rewrite zip_with_nth by (try congruence; lia). reflexivity.
Qed.

(** On well-shaped arguments over a nonempty universe the union is
    returned, and it is the elementwise maximum. *)
Lemma membership_func_union_ok (n : nat) (mfs : mfs_arg) :
  (0 < n)%nat -> well_shaped n mfs ->
  exists cut,
    membership_func_union mfs = Ok cut /\
    length cut = n /\ elementwise_max mfs cut.
Proof.
  intros Hn [Hne Hall].
  destruct (rows_of mfs) as [|first others] eqn:Hrows; [congruence|].
  inversion Hall as [|? ? Hf Ho]; subst.
  exists (Np.max_axis0 first others).
  assert (Hcode : membership_func_union mfs
                  = Ok (Np.max_axis0 first others)).
  { unfold membership_func_union.
    assert (E : match mfs with
                | OneArray [] => Raise IndexError
                | OneArray a => Ok [a]
                | ManyArrays [] => Raise IndexError
                | ManyArrays rows => Ok rows
                end = Ok (first :: others)).
    { destruct mfs as [a | rows]; simpl in Hrows.
      - injection Hrows as -> <-. destruct first; [simpl in Hn; lia|].
        reflexivity.
      - subst rows. reflexivity. }
    rewrite E. simpl. rewrite broadcast_to_same by reflexivity. simpl.
    rewrite broadcast_rows_same by exact Ho. reflexivity. }
  split; [exact Hcode|]. split.
  - apply max_axis0_length; auto.
  - exists first, others. split; [exact Hrows|]. split.
    + apply max_axis0_length; auto.
    + intros i Hi. apply (max_axis0_nth first others (length first)); auto.
Qed.

Lemma elementwise_max_unique (mfs : mfs_arg) (cut cut' : Np.array) :
  elementwise_max mfs cut -> elementwise_max mfs cut' -> cut = cut'.
Proof.
  intros (f & o & Hr & Hl & Hn) (f' & o' & Hr' & Hl' & Hn').
  rewrite Hr in Hr'. injection Hr' as <- <-.
  apply (nth_ext _ _ 0 0); [congruence|].
  intros i Hi. rewrite Hn, Hn' by lia. reflexivity.
Qed.

Lemma union_one_array (a : Np.array) :
  a <> [] -> membership_func_union (OneArray a) = Ok a.
Proof.
  intros Hne. destruct a as [|v a]; [congruence|].
  unfold membership_func_union. simpl.
  rewrite broadcast_to_same by reflexivity. reflexivity.
Qed.

(** ** [karnik_mendel] on well-shaped arguments *)

Lemma km_thetas_length (lower upper : Np.array) :
  length lower = length upper ->
  length (km_thetas lower upper) = length lower.
Proof.
  intros E. unfold km_thetas, Np.div_scalar.
  rewrite add_scalar_length, length_map. apply zip_with_length, E.
Qed.

Lemma km_thetas_nth (lower upper : Np.array) (i : nat) :
  length lower = length upper -> (i < length lower)%nat ->
  nth i (km_thetas lower upper) 0
  = (nth i lower 0 + nth i upper 0) / 2 + bias.
Proof.
  intros E Hi. unfold km_thetas.
  assert (Hz : length (Np.zip_with Qplus lower upper) = length lower)
    by (apply zip_with_length, E).
  rewrite add_scalar_nth by (unfold Np.div_scalar; rewrite length_map; lia).
  unfold Np.div_scalar.
  rewrite (nth_indep _ 0 (0 / 2)) by (rewrite length_map; lia).
  rewrite (map_nth (fun v => v / 2)).
  rewrite zip_with_nth by assumption. reflexivity.
Qed.

Lemma km_thetas_positive (lower upper : Np.array) :
  length lower = length upper ->
  Forall (fun w => 0 < w + bias) lower ->
  Forall (fun w => 0 < w + bias) upper ->
  Forall (fun w => 0 < w) (km_thetas lower upper).
Proof.
  intros E Hl Hu. apply Forall_nth. intros i d Hi.
  rewrite km_thetas_length in Hi by exact E.
  rewrite (nth_indep _ d 0) by (rewrite km_thetas_length; assumption).
  rewrite km_thetas_nth by assumption.
  assert (0 < nth i lower 0 + bias)
    by (rewrite Forall_forall in Hl; apply Hl, nth_In, Hi).
  assert (0 < nth i upper 0 + bias)
    by (rewrite Forall_forall in Hu; apply Hu, nth_In; lia).
  assert (Ediv : (nth i lower 0 + nth i upper 0) / 2 + bias
                 == ((nth i lower 0 + bias) + (nth i upper 0 + bias)) * (1 # 2))
    by (field).
  rewrite Ediv. apply Qmult_lt_0_compat; lra.
Qed.

Lemma karnik_mendel_unfold (fuel : nat) (lmfs umfs : mfs_arg)
    (domain lower upper : Np.array) :
  membership_func_union lmfs = Ok lower ->
  membership_func_union umfs = Ok upper ->
  length lower = length upper ->
  karnik_mendel fuel lmfs umfs domain
  = (y_l <~ find_y fuel (find_c_minute upper lower) domain
              (km_thetas lower upper) ;;
     y_r <~ find_y fuel (find_c_minute lower upper) domain
              (km_thetas lower upper) ;;
     Some (Ok ((y_l + y_r) / 2))).
Proof.
  intros Hl Hu E. unfold karnik_mendel. rewrite Hl, Hu. simpl.
  unfold Np.binop. rewrite E, Nat.eqb_refl. reflexivity.
Qed.
(** ** Termination of [__find_y] in exact arithmetic *)

(** In exact arithmetic, on a nonempty ascending domain, with strictly
    positive [thetas] and strictly positive reweighted arrays, the loop
    of [__find_y] ends:
    the run from the thetas-weighted average stops at the first pair of
    consecutive candidates within [eps] of each other and at no other
    place ([km_converges]), the model returns that candidate for every
    fuel from [length domain + 1] on, and no amount of fuel gives any
    other outcome: the fuel caps nothing. *)
Theorem find_y_terminates_exact (domain thetas under over : Np.array) :
  domain <> [] -> Sorted Qle domain ->
  length thetas = length domain ->
  length under = length domain -> length over = length domain ->
  Forall (fun w => 0 < w) thetas ->
  Forall (fun w => 0 < w + bias) under ->
  Forall (fun w => 0 < w + bias) over ->
  exists c0 y,
    Np.average domain thetas = Ok c0 /\
    km_converges (returns (fun c => find_c_minute under over c domain))
      c0 y /\
    (forall fuel, (S (length domain) <= fuel)%nat ->
       find_y fuel (find_c_minute under over) domain thetas = Some (Ok y)) /\
    (forall fuel r,
       find_y fuel (find_c_minute under over) domain thetas = Some r ->
       r = Ok y).
Proof.
  intros Hne Hasc Ht Hu Ho Htp Hup Hop.
  destruct (find_y_run domain thetas under over)
    as (c0 & c1 & y & Havg & Hstep & Hrun & Hloop); try assumption.
  exists c0, y. repeat split.
  - exact Havg.
  - apply (find_y_loop_sound (S (length domain)) _ c0 c1 y Hstep).
    apply Hloop. lia.
  - intros fuel Hf. rewrite Hrun. apply Hloop, Hf.
  - intros fuel r Hr. rewrite Hrun in Hr.
    apply (find_y_loop_mono fuel (Nat.max fuel (S (length domain)))) in Hr;
      [|lia].
    rewrite Hloop in Hr by lia. congruence.
Qed.

Lemma find_y_terminates_exact_example :
  exists c0 y,
    Np.average [0; 1; 2] [1; 1; 1] = Ok c0 /\
    km_converges
      (returns (fun c => find_c_minute [1; 1; 0] [0; 1; 0] c [0; 1; 2]))
      c0 y /\
    (forall fuel, (4 <= fuel)%nat ->
       find_y fuel (find_c_minute [1; 1; 0] [0; 1; 0]) [0; 1; 2] [1; 1; 1]
       = Some (Ok y)) /\
    (forall fuel r,
       find_y fuel (find_c_minute [1; 1; 0] [0; 1; 0]) [0; 1; 2] [1; 1; 1]
       = Some r -> r = Ok y).
Proof.
  apply (find_y_terminates_exact [0; 1; 2] [1; 1; 1] [1; 1; 0] [0; 1; 0]);
    try reflexivity; try discriminate;
    repeat constructor; unfold bias; lra.
Defined.


(** ** Safety of [__find_k] inside [karnik_mendel] in exact arithmetic *)

(** In exact arithmetic, when the unions of the lower and upper
    memberships have the domain's length and stay strictly positive once
    the bias is added, on a nonempty ascending domain: the first
    candidate is at least
    [domain[0]], so is every later candidate of either side, each of
    them has a switch index, and [karnik_mendel] raises nothing. *)
Theorem find_k_never_fails_exact (lmfs umfs : mfs_arg)
    (domain lower upper : Np.array) :
  domain <> [] -> Sorted Qle domain ->
  membership_func_union lmfs = Ok lower ->
  membership_func_union umfs = Ok upper ->
  length lower = length domain -> length upper = length domain ->
  Forall (fun w => 0 < w + bias) lower ->
  Forall (fun w => 0 < w + bias) upper ->
  exists c0,
    Np.average domain (km_thetas lower upper) = Ok c0 /\
    (forall c,
        km_candidate (fun c => find_c_minute upper lower c domain) c0 c \/
        km_candidate (fun c => find_c_minute lower upper c domain) c0 c ->
        nth 0 domain 0 <= c /\ exists k, find_k c domain = Ok k) /\
    (forall fuel e, karnik_mendel fuel lmfs umfs domain <> Some (Raise e)).
Proof.
  intros Hne Hasc Hlo Hup Hl Hu Hlp Hupp.
  assert (E : length lower = length upper) by congruence.
  assert (Hth : length (km_thetas lower upper) = length domain)
    by (rewrite km_thetas_length; assumption).
  pose proof (km_thetas_positive lower upper E Hlp Hupp) as Htp.
  destruct (average_ge_first domain _ Hne Hasc Hth Htp) as (c0 & Havg & H0).
  exists c0. split; [exact Havg|]. split.
  - intros c [Hc | Hc].
    + apply (candidates_have_switch domain upper lower Hne Hasc Hu Hl Hupp Hlp
               c0 c H0 Hc).
    + apply (candidates_have_switch domain lower upper Hne Hasc Hl Hu Hlp Hupp
               c0 c H0 Hc).
  - intros fuel e.
    rewrite (karnik_mendel_unfold fuel lmfs umfs domain lower upper)
      by assumption.
    pose proof (find_y_never_raises domain (km_thetas lower upper) upper lower
                  Hne Hasc Hth Hu Hl Htp Hupp Hlp fuel) as Hleft.
    pose proof (find_y_never_raises domain (km_thetas lower upper) lower upper
                  Hne Hasc Hth Hl Hu Htp Hlp Hupp fuel) as Hright.
    destruct (find_y fuel (find_c_minute upper lower) domain _)
      as [[yl|el]|]; simpl; try discriminate.
    + destruct (find_y fuel (find_c_minute lower upper) domain _)
        as [[yr|er]|]; simpl; try discriminate.
      intros _. apply (Hright er). reflexivity.
    + intros _. apply (Hleft el). reflexivity.
Qed.

Lemma find_k_never_fails_exact_example :
  exists c0,
    Np.average [0; 1; 2] (km_thetas [0; 1; 0] [1; 1; 0]) = Ok c0 /\
    (forall c,
        km_candidate (fun c => find_c_minute [1; 1; 0] [0; 1; 0] c [0; 1; 2])
          c0 c \/
        km_candidate (fun c => find_c_minute [0; 1; 0] [1; 1; 0] c [0; 1; 2])
          c0 c ->
        nth 0 [0; 1; 2] 0 <= c /\ exists k, find_k c [0; 1; 2] = Ok k) /\
    (forall fuel e,
        karnik_mendel fuel (OneArray [0; 1; 0]) (OneArray [1; 1; 0]) [0; 1; 2]
        <> Some (Raise e)).
Proof.
  apply (find_k_never_fails_exact (OneArray [0; 1; 0]) (OneArray [1; 1; 0])
           [0; 1; 2] [0; 1; 0] [1; 1; 0]);
    try reflexivity; try discriminate;
    repeat constructor; unfold bias; lra.
Defined.

(** ** The degenerate Type-1 case of [karnik_mendel] *)

Lemma add_scalar_sums (a w : Np.array) (s : Q) :
  length w = length a ->
  Np.sum (Np.add_scalar w s) == Np.sum w + inject_Z (Z.of_nat (length a)) * s
  /\
  Np.sum (Np.zip_with Qmult a (Np.add_scalar w s))
  == Np.sum (Np.zip_with Qmult a w) + s * Np.sum a.
Proof.
  intros E. split.
  - rewrite !sum_sigma, add_scalar_length, E, <- sigma_const, <- sigma_plus.
    apply sigma_ext. intros i Hi. rewrite add_scalar_nth by lia. reflexivity.
  - rewrite !dot_sigma by (try rewrite add_scalar_length; auto).
    rewrite sum_sigma, <- sigma_scale, <- sigma_plus.
    apply sigma_ext. intros i Hi. rewrite add_scalar_nth by lia. lra.
Qed.

Lemma km_thetas_same (a m : Np.array) :
  length m = length a ->
  Np.sum (km_thetas m m) == Np.sum (Np.add_scalar m bias) /\
  Np.sum (Np.zip_with Qmult a (km_thetas m m))
  == Np.sum (Np.zip_with Qmult a (Np.add_scalar m bias)).
Proof.
  intros E.
  assert (Hn : forall i, (i < length m)%nat ->
                 nth i (km_thetas m m) 0 == nth i (Np.add_scalar m bias) 0).
  { intros i Hi. rewrite km_thetas_nth, add_scalar_nth by auto. field. }
  split.
  - rewrite !sum_sigma, km_thetas_length, add_scalar_length by reflexivity.
    apply sigma_ext, Hn.
  - rewrite !dot_sigma
      by (try rewrite km_thetas_length; try rewrite add_scalar_length; auto).
    apply sigma_ext. intros i Hi. rewrite Hn by lia. reflexivity.
Qed.

Lemma kweights_same (m : Np.array) (k : nat) :
  kweights m m k = Np.add_scalar m bias.
Proof. unfold kweights. rewrite firstn_skipn. reflexivity. Qed.

Lemma div_le_iff (d s y : Q) : 0 < s -> (d / s <= y <-> d - y * s <= 0).
Proof.
  intros Hs. pose proof (div_lt_iff (- d) s (- y) Hs) as [H1 H2].
  assert (E : - d / s == - (d / s)) by (field; lra).
  split; intros H.
  - destruct (Qlt_le_dec 0 (d - y * s)) as [Hlt|]; [|assumption].
    assert (- d / s < - y) by (apply H2; lra). lra.
  - destruct (Qlt_le_dec y (d / s)) as [Hlt|]; [|assumption].
    assert (- d - - y * s < 0) by (apply H1; lra). lra.
Qed.

(** An average under nonnegative weights lies between the ends of an
    ascending domain. *)
Lemma average_between (domain w : Np.array) (g : Q) :
  domain <> [] -> Sorted Qle domain -> Forall (fun t => 0 <= t) w ->
  Np.average domain w = Ok g ->
  0 < Np.sum w /\
  nth 0 domain 0 <= g <= nth (length domain - 1) domain 0.
Proof.
  intros Hne Hs Hw Havg.
  apply average_inv in Havg. destruct Havg as (Hl & Hnz & ->).
  assert (Hn : (0 < length domain)%nat)
    by (destruct domain; [congruence | simpl; lia]).
  assert (Hwi : forall i, (i < length domain)%nat -> 0 <= nth i w 0).
  { intros i Hi. rewrite Forall_forall in Hw. apply Hw, nth_In. lia. }
  assert (Hpos : 0 < Np.sum w).
  { assert (0 <= Np.sum w).
    { rewrite sum_sigma, <- Hl.
      apply Qle_trans with (sigma (length domain) (fun _ => 0)).
      - rewrite sigma_const. lra.
      - apply sigma_le. exact Hwi. }
    destruct (Qeq_dec (Np.sum w) 0); [contradiction | lra]. }
  assert (E : forall a b, a - b == a + (-(1)) * b) by (intros; lra).
  split; [exact Hpos|]. split.
  - apply div_ge_iff; [exact Hpos|].
    rewrite dot_sigma by exact Hl. rewrite sum_sigma, <- Hl, <- sigma_scale.
    rewrite E, <- sigma_scale, <- sigma_plus.
    apply Qle_trans with (sigma (length domain) (fun _ => 0)).
    + rewrite sigma_const. lra.
    + apply sigma_le. intros i Hi.
      pose proof (Hwi i Hi).
      pose proof (sorted_nth_le domain 0 i Hs ltac:(lia)).
      assert (0 <= (nth i domain 0 - nth 0 domain 0) * nth i w 0)
        by (apply Qmult_le_0_compat; lra).
      lra.
  - apply div_le_iff; [exact Hpos|].
    rewrite dot_sigma by exact Hl. rewrite sum_sigma, <- Hl, <- sigma_scale.
    rewrite E, <- sigma_scale, <- sigma_plus.
    apply Qle_trans with (sigma (length domain) (fun _ => 0)).
    + apply sigma_le. intros i Hi.
      pose proof (Hwi i Hi).
      pose proof (sorted_nth_le domain i (length domain - 1) Hs ltac:(lia)).
      assert (0 <= (nth (length domain - 1) domain 0 - nth i domain 0)
                   * nth i w 0)
        by (apply Qmult_le_0_compat; lra).
      lra.
    + rewrite sigma_const. lra.
Qed.

(** A quotient by the larger denominator is the smaller one. *)
Lemma biased_quotient_bound (t b s m nb k : Q) :
  0 < m -> 0 <= nb -> 0 <= b -> - k <= s <= k ->
  t * (m + nb) == b * s ->
  Qabs t <= b * k / m.
Proof.
  intros Hm Hnb Hb [Hlo Hhi] Ht.
  assert (Hk : 0 <= b * k) by (apply Qmult_le_0_compat; lra).
  assert (Hbs : - (b * k) <= b * s <= b * k).
  { split.
    - assert ((- k) * b <= s * b) by (apply Qmult_le_compat_r; lra). lra.
    - assert (s * b <= k * b) by (apply Qmult_le_compat_r; lra). lra. }
  apply Qabs_Qle_condition. split.
  - assert (E : - (b * k / m) == (- (b * k)) / m) by (field; lra).
    rewrite E. apply Qle_shift_div_r; [exact Hm|].
    destruct (Qlt_le_dec t 0) as [Hneg|Hnn].
    + assert (t * nb <= 0).
      { assert (0 <= (- t) * nb) by (apply Qmult_le_0_compat; lra). lra. }
      lra.
    + assert (0 <= t * m) by (apply Qmult_le_0_compat; lra). lra.
  - apply Qle_shift_div_l; [exact Hm|].
    destruct (Qlt_le_dec t 0) as [Hneg|Hnn].
    + assert (0 <= (- t) * m) by (apply Qmult_le_0_compat; lra). lra.
    + assert (0 <= t * nb) by (apply Qmult_le_0_compat; lra). lra.
Qed.

(** The degenerate case in exact arithmetic.  With the same nonnegative
    array [m] as lower and upper membership, on a nonempty ascending
    domain, the exact [karnik_mendel]
    returns, for every fuel, the centre of gravity of [m + 1e-10]; from
    the centre of gravity [g] of [m] itself it differs by
    1e-10 * sum(domain[i] - g) / (sum(m) + n * 1e-10), which is at most
    1e-10 * n * (domain[n-1] - domain[0]) / sum(m) in absolute value. *)
Theorem km_degenerate_is_biased_cog (domain m : Np.array) :
  domain <> [] -> Sorted Qle domain -> length m = length domain ->
  Forall (fun v => 0 <= v) m ->
  exists r,
    (forall fuel,
        karnik_mendel fuel (OneArray m) (OneArray m) domain = Some (Ok r)) /\
    (exists b,
        center_of_gravity domain (OneArray (Np.add_scalar m bias)) = Ok b /\
        r == b) /\
    (forall g,
        center_of_gravity domain (OneArray m) = Ok g ->
        r - g == bias * sigma (length domain) (fun i => nth i domain 0 - g)
                 / (Np.sum m + inject_Z (Z.of_nat (length domain)) * bias)
        /\
        Qabs (r - g)
        <= bias * (inject_Z (Z.of_nat (length domain))
                   * (nth (length domain - 1) domain 0 - nth 0 domain 0))
           / Np.sum m).
Proof.
  intros Hne Hasc Hl Hm.
  assert (Hmne : m <> []) by (destruct m, domain; simpl in *; congruence).
  assert (Hmb : Forall (fun w => 0 < w + bias) m).
  { apply Forall_impl with (2 := Hm). intros v Hv. unfold bias. lra. }
  assert (Hwp : Forall (fun w => 0 < w) (Np.add_scalar m bias)).
  { unfold Np.add_scalar. rewrite Forall_map. exact Hmb. }
  assert (Hwl : length (Np.add_scalar m bias) = length domain)
    by (rewrite add_scalar_length; exact Hl).
  destruct (average_ge_first domain _ Hne Hasc Hwl Hwp) as (c1 & Hc1 & _).
  pose proof (km_thetas_positive m m eq_refl Hmb Hmb) as Htp.
  assert (Htl : length (km_thetas m m) = length domain)
    by (rewrite km_thetas_length; auto).
  destruct (average_ge_first domain _ Hne Hasc Htl Htp) as (c0 & Hc0 & H0).
  (* the step does not depend on the switch index *)
  assert (Hstep : find_c_minute m m c0 domain = Ok c1).
  { destruct (find_k_total c0 domain 0) as [k Hk];
      [destruct domain; [congruence | simpl; lia] | exact H0 |].
    rewrite (find_c_minute_switch m m domain c0 k) by assumption.
    rewrite kweights_same. exact Hc1. }
  (* the two averages are the same number *)
  assert (Heq : c1 == c0).
  { apply average_inv in Hc0, Hc1.
    destruct Hc0 as (_ & _ & ->), Hc1 as (_ & _ & ->).
    destruct (km_thetas_same domain m Hl) as [Es Ed].
    rewrite Es, Ed. reflexivity. }
  assert (Hy : forall fuel,
             find_y fuel (find_c_minute m m) domain (km_thetas m m)
             = Some (Ok c1)).
  { intros fuel. unfold find_y. rewrite Hc0. simpl. rewrite Hstep. simpl.
    apply find_y_loop_exit.
    assert (E0 : c1 - c0 == 0) by lra.
    rewrite E0. unfold eps. simpl. lra. }
  exists ((c1 + c1) / 2). split; [|split].
  - intros fuel.
    rewrite (karnik_mendel_unfold fuel _ _ domain m m)
      by (try apply union_one_array; auto).
    rewrite Hy. reflexivity.
  - exists c1. split; [|field].
    unfold center_of_gravity. rewrite union_one_array.
    + exact Hc1.
    + destruct m; [congruence | discriminate].
  - intros g Hg. unfold center_of_gravity in Hg.
    rewrite union_one_array in Hg by exact Hmne. simpl in Hg.
    destruct (average_between domain m g Hne Hasc Hm Hg) as (HM & Hg0 & Hg1).
    apply average_inv in Hg, Hc1.
    destruct Hg as (_ & Hs & Eg), Hc1 as (_ & Hs1 & ->).
    destruct (add_scalar_sums domain m bias Hl) as [Es Ed].
    rewrite Es in Hs1. rewrite Es, Ed.
    set (D := Np.sum (Np.zip_with Qmult domain m)) in *.
    set (M := Np.sum m) in *.
    set (N := inject_Z (Z.of_nat (length domain))) in *.
    set (S := sigma (length domain) (fun i => nth i domain 0 - g)).
    set (R := nth (length domain - 1) domain 0 - nth 0 domain 0).
    assert (HN : 0 < N).
    { subst N. apply inject_nat_pos.
      destruct domain; [congruence | simpl; lia]. }
    assert (Hb : 0 < bias) by (unfold bias; lra).
    assert (HNb : 0 < N * bias) by (apply Qmult_lt_0_compat; assumption).
    assert (EX : S == Np.sum domain - N * g).
    { subst S. rewrite sum_sigma. subst N. rewrite <- sigma_const.
      assert (E : forall a b, a - b == a + (-(1)) * b) by (intros; lra).
      rewrite E, <- sigma_scale, <- sigma_plus.
      apply sigma_ext. intros i _. lra. }
    assert (Hr : ((D + bias * Np.sum domain) / (M + N * bias)
                  + (D + bias * Np.sum domain) / (M + N * bias)) / 2 - g
                 == bias * S / (M + N * bias)).
    { rewrite EX, Eg. fold D M. field. split; lra. }
    split; [exact Hr|].
    rewrite Hr.
    apply (biased_quotient_bound _ bias S M (N * bias) (N * R)); try lra.
    + assert (HS : sigma (length domain) (fun _ => - R) <= S
                   /\ S <= sigma (length domain) (fun _ => R)).
      { split; apply sigma_le; intros i Hi; subst R;
          pose proof (sorted_nth_le domain 0 i Hasc ltac:(lia));
          pose proof (sorted_nth_le domain i (length domain - 1) Hasc
                        ltac:(lia)); lra. }
      rewrite !sigma_const in HS. fold N in HS. lra.
    + field. lra.
Qed.

Lemma km_degenerate_is_biased_cog_witness :
  exists r,
    (forall fuel,
        karnik_mendel fuel (OneArray [0; 1; 0]) (OneArray [0; 1; 0]) [0; 1; 2]
        = Some (Ok r)) /\
    (exists b,
        center_of_gravity [0; 1; 2] (OneArray (Np.add_scalar [0; 1; 0] bias))
        = Ok b /\ r == b) /\
    (forall g,
        center_of_gravity [0; 1; 2] (OneArray [0; 1; 0]) = Ok g ->
        r - g == bias * sigma 3 (fun i => nth i [0; 1; 2] 0 - g)
                 / (Np.sum [0; 1; 0] + inject_Z 3 * bias)
        /\
        Qabs (r - g) <= bias * (inject_Z 3 * (2 - 0)) / Np.sum [0; 1; 0]).
Proof.
  apply (km_degenerate_is_biased_cog [0; 1; 2] [0; 1; 0]);
    try reflexivity; try discriminate; repeat constructor; lra.
Defined.

(** C3, as stated, fails: the memberships [1e-10, 0] on the domain [0, 1]
    give 1/3 from [karnik_mendel] and 0 from [center_of_gravity]. *)
Lemma km_degenerate_counterexample :
  ~ degenerate_matches_cog (1 # 1000000).
Proof.
  intros H.
  assert (Hk : exists r,
             karnik_mendel 0 (OneArray [bias; 0]) (OneArray [bias; 0]) [0; 1]
             = Some (Ok r) /\ r == 1 # 3).
  { eexists. split; vm_compute; reflexivity. }
  assert (Hg : exists g,
             center_of_gravity [0; 1] (OneArray [bias; 0]) = Ok g /\ g == 0).
  { eexists. split; vm_compute; reflexivity. }
  destruct Hk as (r & Hk & Er), Hg as (g & Hg & Eg).
  specialize (H [0; 1] [bias; 0] 0%nat r g).
  assert (Hd : Qabs (r - g) <= 1 # 1000000).
  { apply H; try assumption.
    - discriminate.
    - repeat constructor. lra.
    - reflexivity.
    - repeat constructor; unfold bias; lra.
    - constructor. unfold bias. lra. }
  assert (E : r - g == 1 # 3) by lra.
  rewrite E in Hd. revert Hd. apply Qlt_not_le. reflexivity.
Qed.

(** ** [calculate_membership] *)

Lemma interpolate_finite (x : Q) (prev cur : Q * Q) :
  fst prev < fst cur ->
  interpolate x prev cur = Finite (line_through prev cur x).
Proof.
  intros H. unfold interpolate, line_through, f64_div.
  destruct (Qeq_bool (fst cur - fst prev) 0) eqn:E; [|reflexivity].
  apply Qeq_bool_iff in E. lra.
Qed.

Lemma interpolate_degenerate (x : Q) (prev cur : Q * Q) :
  fst prev == fst cur -> fst prev <= x <= fst cur ->
  interpolate x prev cur = NaN.
Proof.
  intros H Hx. unfold interpolate, f64_div.
  destruct (Qeq_bool (fst cur - fst prev) 0) eqn:E.
  - destruct (Qeq_bool (x - fst prev) 0) eqn:E'; [reflexivity|].
    exfalso. apply Qeq_bool_neq in E'. lra.
  - exfalso. apply Qeq_bool_neq in E. lra.
Qed.

Lemma scan_bracket_none (x : Q) (rest : list (Q * Q)) (prev : Q * Q) :
  Forall (fun p => fst p < x) rest -> scan_bracket x prev rest = Finite 0.
Proof.
  intros H. revert prev. induction H as [|p rest Hp _ IH]; intros prev.
  - reflexivity.
  - simpl. destruct (Qle_bool x (fst p)) eqn:E.
    + apply Qle_bool_iff in E. lra.
    + apply IH.
Qed.

Lemma last_in_range (x : Q) (p : Q * Q) (rest : list (Q * Q)) (d : Q * Q) :
  x <= fst (last (p :: rest) d) -> Exists (fun q => x <= fst q) (p :: rest).
Proof.
  revert p. induction rest as [|q rest IH]; intros p H.
  - constructor. exact H.
  - apply Exists_cons_tl, IH. exact H.
Qed.

(** C9.  [calculate_membership(x, points)]:
    - one point, and [x] equal to its first coordinate: that point's
      value;
    - several points and [x] between the first coordinates of the first
      and the last: there is a first bracket [before, cur] of consecutive
      points with [before <= x <= cur], and the result is the value at
      [x] of the line through them (by horizontal proportion); when the
      bracket has width zero the division 0 / 0 yields nan;
    - [x] below every point, above every point, or with no point after
      the first at or above it: 0. *)
Theorem calculate_membership_cases (x : Q) (points : list (Q * Q)) :
  (forall p, points = [p] -> x == fst p ->
             calculate_membership x points = Finite (snd p))
  /\
  ((2 <= length points)%nat ->
   fst (hd (0, 0) points) <= x -> x <= fst (last points (0, 0)) ->
   exists i before cur,
     nth_error points i = Some before /\
     nth_error points (S i) = Some cur /\
     fst before <= x <= fst cur /\
     (forall j q, (0 < j <= i)%nat -> nth_error points j = Some q ->
                  fst q < x) /\
     (fst before < fst cur ->
      calculate_membership x points = Finite (line_through before cur x)) /\
     (fst before == fst cur -> calculate_membership x points = NaN))
  /\
  ((forall p, In p points -> x < fst p) \/
   (forall p, In p points -> fst p < x) \/
   (2 <= length points)%nat /\ Forall (fun p => fst p < x) (tl points) ->
   calculate_membership x points = Finite 0).
Proof.
  split; [|split].
  - intros p -> Hx. simpl.
    apply Qeq_bool_iff in Hx. rewrite Hx. reflexivity.
  - intros Hlen Hlo Hhi.
    destruct points as [|p0 [|p1 rest]]; simpl in Hlen; try lia.
    simpl in Hlo.
    assert (Hex : Exists (fun q => x <= fst q) (p1 :: rest)).
    { apply (last_in_range x p1 rest (0, 0)). exact Hhi. }
    assert (Hcode : calculate_membership x (p0 :: p1 :: rest)
                    = scan_bracket x p0 (p1 :: rest)).
    { unfold calculate_membership.
      apply Qle_bool_iff in Hlo. rewrite Hlo. reflexivity. }
    rewrite Hcode. clear Hcode Hhi Hlen.
    assert (Hgen : forall l prev,
               fst prev <= x -> Exists (fun q => x <= fst q) l ->
               exists i before cur,
                 nth_error (prev :: l) i = Some before /\
                 nth_error (prev :: l) (S i) = Some cur /\
                 fst before <= x <= fst cur /\
                 (forall j q, (0 < j <= i)%nat ->
                              nth_error (prev :: l) j = Some q -> fst q < x) /\
                 scan_bracket x prev l = interpolate x before cur).
    { clear. induction l as [|p l IH]; intros prev Hp Hex.
      - inversion Hex.
      - simpl scan_bracket. destruct (Qle_bool x (fst p)) eqn:E.
        + apply Qle_bool_iff in E. exists 0%nat, prev, p.
          repeat split; auto. intros j q Hj. lia.
        + apply Qle_bool_false in E.
          assert (Hex' : Exists (fun q => x <= fst q) l)
            by (inversion Hex; subst; [contradiction | assumption]).
          destruct (IH p ltac:(lra) Hex')
            as (i & b & c & Hb & Hc & Hx & Hfirst & Hs).
          exists (S i), b, c. repeat split; auto; try apply Hx.
          intros j q Hj Hq. destruct j as [|[|j]]; [lia | |].
          * simpl in Hq. injection Hq as <-. lra.
          * apply (Hfirst (S j) q); [lia | exact Hq]. }
    destruct (Hgen (p1 :: rest) p0 Hlo Hex)
      as (i & b & c & Hb & Hc & Hx & Hfirst & Hs).
    exists i, b, c. repeat split; auto; try apply Hx.
    + intros Hlt. rewrite Hs. apply interpolate_finite, Hlt.
    + intros Heq. rewrite Hs. apply interpolate_degenerate; [exact Heq|].
      split; apply Hx.
  - intros [Hbelow | [Habove | [Hlen Hnone]]].
    + destruct points as [|p0 [|p1 rest]]; [reflexivity | |].
      * simpl. specialize (Hbelow p0 (or_introl eq_refl)).
        destruct (Qeq_bool x (fst p0)) eqn:E; [|reflexivity].
        apply Qeq_bool_iff in E. lra.
      * unfold calculate_membership.
        specialize (Hbelow p0 (or_introl eq_refl)).
        destruct (Qle_bool (fst p0) x) eqn:E; [|reflexivity].
        apply Qle_bool_iff in E. lra.
    + destruct points as [|p0 [|p1 rest]]; [reflexivity | |].
      * simpl. specialize (Habove p0 (or_introl eq_refl)).
        destruct (Qeq_bool x (fst p0)) eqn:E; [|reflexivity].
        apply Qeq_bool_iff in E. lra.
      * unfold calculate_membership.
        destruct (Qle_bool (fst p0) x); [|reflexivity].
        apply scan_bracket_none. apply Forall_forall.
        intros p Hp. apply Habove. right. exact Hp.
    + destruct points as [|p0 [|p1 rest]]; simpl in Hlen; try lia.
      unfold calculate_membership.
      destruct (Qle_bool (fst p0) x); [|reflexivity].
      apply scan_bracket_none. exact Hnone.
Qed.

Lemma calculate_membership_cases_witness :
  calculate_membership 1 [(1, 1 # 2)] = Finite (1 # 2) /\
  (exists i before cur,
     nth_error [(0, 0); (2, 1); (4, 0)] i = Some before /\
     nth_error [(0, 0); (2, 1); (4, 0)] (S i) = Some cur /\
     fst before <= 3 <= fst cur /\
     calculate_membership 3 [(0, 0); (2, 1); (4, 0)]
     = Finite (line_through before cur 3)) /\
  calculate_membership 5 [(0, 0); (2, 1); (4, 0)] = Finite 0.
Proof.
  split; [|split].
  - apply (proj1 (calculate_membership_cases 1 [(1, 1 # 2)]) (1, 1 # 2)).
    + reflexivity.
    + reflexivity.
  - destruct (proj1 (proj2 (calculate_membership_cases 3
                              [(0, 0); (2, 1); (4, 0)])))
      as (i & b & c & Hb & Hc & Hx & Hfirst & Hfin & _).
    + simpl. lia.
    + simpl. lra.
    + simpl. lra.
    + exists i, b, c. repeat split; try assumption; try apply Hx.
      apply Hfin.
      destruct i as [|[|i]]; simpl in Hb, Hc.
      * injection Hb as <-. injection Hc as <-. simpl. lra.
      * injection Hb as <-. injection Hc as <-. simpl. lra.
      * destruct i; simpl in Hc; [discriminate|]. destruct i; discriminate.
  - apply (proj2 (proj2 (calculate_membership_cases 5
                           [(0, 0); (2, 1); (4, 0)]))).
    right. left. intros p [<- | [<- | [<- | []]]]; simpl; lra.
Defined.

(** ** Sorting rows by a key *)

Section SortBy.

Context {A : Type} (key : A -> Q).

Let key_le (a b : A) : Prop := key a <= key b.

Lemma insert_by_perm (a : A) (l : list A) :
  Permutation (insert_by key a l) (a :: l).
Proof.
  induction l as [|b l IH]; simpl.
  - reflexivity.
  - destruct (Qle_bool (key a) (key b)).
    + reflexivity.
    + rewrite IH. apply perm_swap.
Qed.

Lemma sort_by_perm (l : list A) : Permutation (sort_by key l) l.
Proof.
  induction l as [|a l IH]; simpl.
  - reflexivity.
  - rewrite insert_by_perm. apply perm_skip, IH.
Qed.

Lemma insert_by_sorted (a : A) (l : list A) :
  Sorted key_le l -> Sorted key_le (insert_by key a l).
Proof.
  induction 1 as [|b l Hs IH Hb]; simpl.
  - repeat constructor.
  - destruct (Qle_bool (key a) (key b)) eqn:E.
    + apply Qle_bool_iff in E. repeat constructor; assumption.
    + apply Qle_bool_false in E. constructor; [exact IH|].
      assert (Hba : key_le b a) by (subst key_le; simpl; lra).
      destruct l as [|c l]; simpl.
      * constructor. exact Hba.
      * destruct (Qle_bool (key a) (key c)); constructor;
          [exact Hba | inversion Hb; assumption].
Qed.

Lemma sort_by_sorted (l : list A) : Sorted key_le (sort_by key l).
Proof.
  induction l as [|a l IH]; simpl.
  - constructor.
  - apply insert_by_sorted, IH.
Qed.

Lemma sorted_first_least (l : list A) (a : A) :
  Sorted key_le l -> Np.first_item l = Ok a ->
  Forall (fun b => key a <= key b) l.
Proof.
  intros Hs Hf. apply Sorted_StronglySorted in Hs.
  2:{ intros u v w. subst key_le. simpl. apply Qle_trans. }
  destruct Hs as [|b l Hs Hb]; [discriminate|].
  simpl in Hf. injection Hf as ->.
  constructor; [apply Qle_refl | exact Hb].
Qed.

Lemma sorted_last_greatest (l : list A) (a : A) :
  Sorted key_le l -> Np.last_item l = Ok a ->
  Forall (fun b => key b <= key a) l.
Proof.
  intros Hs. apply Sorted_StronglySorted in Hs.
  2:{ intros u v w. subst key_le. simpl. apply Qle_trans. }
  induction Hs as [|b l Hs IH Hb]; intros Hl; [constructor|].
  destruct l as [|c l].
  - simpl in Hl. injection Hl as ->. repeat constructor. apply Qle_refl.
  - rewrite last_item_cons in Hl. specialize (IH Hl).
    constructor; [|exact IH].
    inversion Hb as [|? ? Hbc _]; subst.
    inversion IH as [|? ? Hca _]; subst.
    subst key_le. simpl in *. lra.
Qed.

Lemma first_item_in (l : list A) (a : A) : Np.first_item l = Ok a -> In a l.
Proof. destruct l; simpl; [discriminate|]. intros E. injection E. auto. Qed.


Lemma items_of_nonempty (l : list A) :
  l <> [] -> exists a b, Np.first_item l = Ok a /\ Np.last_item l = Ok b.
Proof.
  intros Hne. destruct l as [|a l]; [congruence|].
  exists a. clear Hne. revert a. induction l as [|c l IH]; intros a.
  - exists a. split; reflexivity.
  - destruct (IH c) as (b & _ & Hb). exists b. split; [reflexivity|].
    rewrite last_item_cons. exact Hb.
Qed.

End SortBy.

(** ** Floors and [np.arange] *)

Lemma Qfloor_unique (x : Q) (z : Z) :
  inject_Z z <= x -> x < inject_Z (z + 1) -> Qfloor x = z.
Proof.
  intros Hlo Hhi.
  pose proof (Qfloor_le x) as Hf. pose proof (Qlt_floor x) as Hg.
  assert (H1 : inject_Z z < inject_Z (Qfloor x + 1)) by lra.
  assert (H2 : inject_Z (Qfloor x) < inject_Z (z + 1)) by lra.
  rewrite <- Zlt_Qlt in H1, H2. lia.
Qed.

Lemma Qfloor_plus_one (x : Q) : Qfloor (x + 1) = (Qfloor x + 1)%Z.
Proof.
  pose proof (Qfloor_le x) as Hf. pose proof (Qlt_floor x) as Hg.
  apply Qfloor_unique.
  - rewrite inject_Z_plus. change (inject_Z 1) with 1. lra.
  - rewrite !inject_Z_plus in *. change (inject_Z 1) with 1 in *. lra.
Qed.

Lemma arange_length (a b : Z) (step : Q) :
  ~ step == 0 ->
  length (arange (inject_Z a * step) (inject_Z b * step) step)
  = Z.to_nat (b - a).
Proof.
  intros Hs. unfold arange. rewrite length_map, length_seq.
  f_equal.
  assert (E : (inject_Z b * step - inject_Z a * step) / step
              == inject_Z (b - a)).
  { unfold Z.sub. rewrite inject_Z_plus, inject_Z_opp. field. exact Hs. }
  rewrite E. apply Qceiling_Z.
Qed.

Lemma arange_nth (start stop step : Q) (i : nat) :
  (i < length (arange start stop step))%nat ->
  nth i (arange start stop step) 0 = start + inject_Z (Z.of_nat i) * step.
Proof.
  unfold arange. rewrite length_map, length_seq. intros Hi.
  rewrite (nth_indep _ 0 (start + inject_Z (Z.of_nat 0) * step))
    by (rewrite length_map, length_seq; exact Hi).
  rewrite (map_nth (fun j => start + inject_Z (Z.of_nat j) * step)).
  rewrite seq_nth by exact Hi. reflexivity.
Qed.

(** ** [takagi_sugeno_karnik_mendel] *)

Lemma map_fst_combine {A B : Type} (l : list A) (l' : list B) :
  length l = length l' -> map fst (combine l l') = l.
Proof.
  revert l'. induction l as [|a l IH]; intros [|b l'] E; simpl in *;
    try discriminate; [reflexivity|].
  f_equal. apply IH. lia.
Qed.

Lemma math_floor_div (a step : Q) :
  ~ step == 0 -> math_floor (f64_div a step) = Ok (Qfloor (a / step)).
Proof.
  intros Hs. unfold f64_div.
  destruct (Qeq_bool step 0) eqn:E; [|reflexivity].
  apply Qeq_bool_iff in E. contradiction.
Qed.

Lemma math_floor_div_plus_one (a step : Q) :
  ~ step == 0 ->
  math_floor (f64_add (f64_div a step) 1) = Ok (Qfloor (a / step) + 1)%Z.
Proof.
  intros Hs. unfold f64_div.
  destruct (Qeq_bool step 0) eqn:E.
  - apply Qeq_bool_iff in E. contradiction.
  - unfold f64_add, math_floor. rewrite Qfloor_plus_one. reflexivity.
Qed.

(** ** [karnik_mendel] against the specified iteration *)

Lemma km_step_iff (under over domain : Np.array) (c c2 : Q) :
  length under = length domain -> length over = length domain ->
  (km_step under over domain c c2
   <-> find_c_minute under over c domain = Ok c2).
Proof.
  intros Hu Ho. split.
  - intros (k & w & Hsw & Hwl & Hwn & Havg).
    pose proof Hsw as (Hk & _).
    apply find_k_ok_iff in Hsw.
    rewrite (find_c_minute_switch under over domain c k) by assumption.
    replace (kweights under over k) with w; [exact Havg|].
    apply (nth_ext _ _ 0 0).
    + rewrite (kweights_length under over k (length domain)); auto.
    + intros i Hi. rewrite Hwn by lia.
      symmetry. apply (kweights_nth under over k (length domain)); auto. lia.
  - intros Hc. destruct (find_k c domain) as [k|e] eqn:Hk.
    + rewrite (find_c_minute_switch under over domain c k) in Hc
        by assumption.
      apply find_k_ok_iff in Hk. pose proof Hk as (Hkn & _).
      exists k, (kweights under over k). repeat split; try apply Hk.
      * apply kweights_length; auto.
      * intros i Hi. apply (kweights_nth under over k (length domain)); auto.
      * exact Hc.
    + unfold find_c_minute in Hc. rewrite Hk in Hc. discriminate.
Qed.

Lemma find_y_sound (fuel : nat) (f : Q -> Np.array -> result Q)
    (domain thetas : Np.array) (y : Q) :
  find_y fuel f domain thetas = Some (Ok y) ->
  exists c0,
    Np.average domain thetas = Ok c0 /\
    km_converges (returns (fun c => f c domain)) c0 y.
Proof.
  unfold find_y. intros H.
  destruct (Np.average domain thetas) as [c0|e]; simpl in H; [|discriminate].
  destruct (f c0 domain) as [c1|e] eqn:Hs; simpl in H; [|discriminate].
  exists c0. split; [reflexivity|].
  apply (find_y_loop_sound fuel (fun c => f c domain) c0 c1 y Hs H).
Qed.

Lemma find_y_complete (f : Q -> Np.array -> result Q)
    (domain thetas : Np.array) (c0 y : Q) :
  Np.average domain thetas = Ok c0 ->
  km_converges (returns (fun c => f c domain)) c0 y ->
  exists fuel0, forall fuel, (fuel0 <= fuel)%nat ->
    find_y fuel f domain thetas = Some (Ok y).
Proof.
  intros Havg Hc.
  destruct (find_y_loop_complete _ c0 y Hc) as (c1 & fuel0 & Hs & Hl).
  exists fuel0. intros fuel Hf. unfold find_y. rewrite Havg. simpl.
  unfold returns in Hs. rewrite Hs. simpl. apply Hl, Hf.
Qed.

(** C1.  On a nonempty domain and membership collections of the domain's
    length, [karnik_mendel] returns [r] for some fuel exactly when [r] is
    what the specified iteration yields: the elementwise maxima of the
    lower and the upper memberships, thetas = (lower + upper) / 2 + 1e-10,
    for each side the run that starts at the thetas-weighted average of
    the domain, takes the largest index with domain[k] <= c' as switch
    index, reweights with "under" on 0..k and "over" on k+1.. plus
    1e-10, and stops at the first pair of consecutive candidates within
    [eps]; under = upper and over = lower for y_l, swapped for y_r; and
    r = (y_l + y_r) / 2. *)
Theorem karnik_mendel_follows_spec (lmfs umfs : mfs_arg)
    (domain : Np.array) (r : Q) :
  domain <> [] ->
  well_shaped (length domain) lmfs -> well_shaped (length domain) umfs ->
  ((exists fuel, karnik_mendel fuel lmfs umfs domain = Some (Ok r))
   <-> km_spec lmfs umfs domain r).
Proof.
  intros Hne Hwl Hwu.
  assert (Hn : (0 < length domain)%nat)
    by (destruct domain; [congruence | simpl; lia]).
  destruct (membership_func_union_ok _ lmfs Hn Hwl)
    as (lower & Hlo & Hll & Hlm).
  destruct (membership_func_union_ok _ umfs Hn Hwu)
    as (upper & Hup & Hul & Hum).
  assert (Hlu : length lower = length upper) by congruence.
  assert (Hcode : forall fuel,
             karnik_mendel fuel lmfs umfs domain
             = (y_l <~ find_y fuel (find_c_minute upper lower) domain
                         (km_thetas lower upper) ;;
                y_r <~ find_y fuel (find_c_minute lower upper) domain
                         (km_thetas lower upper) ;;
                Some (Ok ((y_l + y_r) / 2))))
    by (intros; apply karnik_mendel_unfold; assumption).
  split.
  - intros (fuel & Hk). rewrite Hcode in Hk.
    destruct (find_y fuel (find_c_minute upper lower) domain _)
      as [[yl|]|] eqn:El; simpl in Hk; try discriminate.
    destruct (find_y fuel (find_c_minute lower upper) domain _)
      as [[yr|]|] eqn:Er; simpl in Hk; try discriminate.
    injection Hk as <-.
    apply find_y_sound in El, Er.
    destruct El as (c0 & Havg & Hcl), Er as (c0' & Havg' & Hcr).
    rewrite Havg in Havg'. injection Havg' as <-.
    exists lower, upper, (km_thetas lower upper), c0, yl, yr.
    repeat split; try assumption.
    + rewrite km_thetas_length; congruence.
    + intros i Hi. apply km_thetas_nth; [exact Hlu | lia].
    + apply km_converges_impl with (2 := Hcl). intros a b Hab.
      apply km_step_iff; assumption.
    + apply km_converges_impl with (2 := Hcr). intros a b Hab.
      apply km_step_iff; assumption.
  - intros (lower' & upper' & thetas & c0 & yl & yr
            & Hlm' & Hum' & Htl & Htn & Havg & Hcl & Hcr & ->).
    rewrite <- (elementwise_max_unique lmfs lower lower' Hlm Hlm') in *.
    rewrite <- (elementwise_max_unique umfs upper upper' Hum Hum') in *.
    assert (Et : thetas = km_thetas lower upper).
    { apply (nth_ext _ _ 0 0).
      - rewrite km_thetas_length; congruence.
      - intros i Hi. rewrite Htn by lia.
        symmetry. apply km_thetas_nth; [exact Hlu | lia]. }
    subst thetas.
    destruct (find_y_complete (find_c_minute upper lower) domain _ c0 yl Havg)
      as (fl & Hfl).
    { apply km_converges_impl with (2 := Hcl). intros a b Hab.
      apply km_step_iff; assumption. }
    destruct (find_y_complete (find_c_minute lower upper) domain _ c0 yr Havg)
      as (fr & Hfr).
    { apply km_converges_impl with (2 := Hcr). intros a b Hab.
      apply km_step_iff; assumption. }
    exists (Nat.max fl fr). rewrite Hcode.
    rewrite Hfl, Hfr by lia. reflexivity.
Qed.

Lemma karnik_mendel_follows_spec_witness :
  exists r,
    karnik_mendel 4 (OneArray [0; 1; 0]) (OneArray [1; 1; 1 # 2]) [0; 1; 2]
    = Some (Ok r) /\
    km_spec (OneArray [0; 1; 0]) (OneArray [1; 1; 1 # 2]) [0; 1; 2] r.
Proof.
  eexists. split; [vm_compute; reflexivity|].
  apply karnik_mendel_follows_spec.
  - discriminate.
  - split; [discriminate | repeat constructor].
  - split; [discriminate | repeat constructor].
  - exists 4%nat. vm_compute. reflexivity.
Defined.

(** ** [TakagiSugenoInferenceSystem.infer] *)

Lemma append_params (params in_values : list Q) :
  fold_left (fun acc param => acc ++ [param]) params in_values
  = in_values ++ params.
Proof.
  revert in_values. induction params as [|p params IH]; intros acc; simpl.
  - symmetry. apply app_nil_r.
  - rewrite IH, <- app_assoc. reflexivity.
Qed.

Lemma get_input_tuple_flat (self : TakagiSugenoInferenceSystem)
    (input : list Q) :
  get_input_tuple self input
  = input ++ flat_map function_parameters (rule_base self).
Proof.
  unfold get_input_tuple. generalize (rule_base self) as rules.
  intros rules. revert input.
  induction rules as [|rule rules IH]; intros input; simpl.
  - symmetry. apply app_nil_r.
  - rewrite append_params, IH, <- app_assoc. reflexivity.
Qed.

Lemma combine_fst_snd {A B : Type} (l : list (A * B)) :
  combine (map fst l) (map snd l) = l.
Proof.
  induction l as [|[a b] l IH]; simpl; [reflexivity|]. rewrite IH.
  reflexivity.
Qed.

Lemma evaluate_rules_returns (rules : list Rule)
    (single_measures : list (variable_id * Q))
    (single_features : list (clause_id * degree))
    (pairs : list (Q * degree)) :
  rules_return rules single_measures single_features pairs ->
  forall i outputs firings w,
    evaluate_rules i rules single_measures single_features outputs firings w
    = (Ok (outputs ++ map fst pairs, firings ++ map snd pairs),
       {| class_cache := class_cache w;
          calls := calls w ++ rule_calls i (length rules) |}).
Proof.
  induction 1 as [|rule p rules pairs [Ho Hf] _ IH];
    intros i outputs firings w.
  - simpl. unfold sret, rule_calls. simpl. rewrite !app_nil_r.
    destruct w; reflexivity.
  - simpl evaluate_rules. unfold sbind, logged. rewrite Ho, Hf. simpl.
    rewrite IH. simpl. unfold rule_calls. simpl.
    rewrite <- !app_assoc. reflexivity.
Qed.

Lemma cached_hit (key : list Q) (v : Q) (w : world) :
  cache_lookup key (class_cache w) = Some v ->
  is_cached key w = (Ok true, w) /\ cache_getitem key w = (Ok v, w).
Proof.
  intros H. unfold is_cached, cache_getitem. rewrite H. auto.
Qed.

Lemma cached_miss (key : list Q) (w : world) :
  cache_lookup key (class_cache w) = None ->
  is_cached key w = (Ok false, w).
Proof.
  intros H. unfold is_cached, cache_getitem. rewrite H. reflexivity.
Qed.

(** C5.  For one sample of [infer]:
    - the cache key is the sample's measured values, in mapping order,
      followed by the function parameters of every rule, in rule-base
      order;
    - when the key is in the cache, the stored conclusion is returned and
      the world is unchanged: no [output], [fire] or defuzzification call
      is logged;
    - otherwise, when the rules return [pairs], the defuzzification
      method is called once, after all rule calls, on these pairs sorted
      by output ascending, and its conclusion is returned and stored
      under the key. *)
Theorem infer_sample_cache_and_order (self : TakagiSugenoInferenceSystem)
    (defuzzification_method : list degree -> Np.array -> result Q)
    (single_features : list (clause_id * degree))
    (single_measures : list (variable_id * Q)) (w : world) :
  let key := get_input_tuple self (map snd single_measures) in
  key = map snd single_measures
        ++ flat_map function_parameters (rule_base self)
  /\
  (forall v,
      cache_lookup key (class_cache w) = Some v ->
      infer_sample self defuzzification_method single_features
        single_measures w = (Ok v, w))
  /\
  (forall pairs,
      cache_lookup key (class_cache w) = None ->
      rules_return (rule_base self) single_measures single_features pairs ->
      exists sorted,
        Permutation sorted pairs /\
        Sorted Qle (map fst sorted) /\
        forall conclusion,
          defuzzification_method (map snd sorted) (map fst sorted)
          = Ok conclusion ->
          infer_sample self defuzzification_method single_features
            single_measures w
          = (Ok conclusion,
             {| class_cache := (key, conclusion) :: class_cache w;
                calls := calls w
                         ++ rule_calls 0 (length (rule_base self))
                         ++ [DefuzzCall (map snd sorted) (map fst sorted)]
             |})).
Proof.
  intros key. split; [apply get_input_tuple_flat|]. split.
  - intros v Hhit. unfold infer_sample. fold key.
    destruct (cached_hit key v w Hhit) as [Hc Hg].
    unfold sbind. rewrite Hc. exact Hg.
  - intros pairs Hmiss Hret.
    exists (sort_by fst pairs). split; [apply sort_by_perm|]. split.
    + pose proof (sort_by_sorted fst pairs) as Hs.
      induction Hs as [|p l _ IH Hhd]; simpl; constructor; auto.
      destruct Hhd; simpl; constructor; assumption.
    + intros conclusion Hd. unfold infer_sample. fold key.
      unfold sbind at 1. rewrite (cached_miss key w Hmiss).
      unfold sbind at 1.
      rewrite (evaluate_rules_returns _ _ _ pairs Hret). simpl.
      rewrite combine_fst_snd.
      unfold sbind, logged, cache_setitem, sret. rewrite Hd. simpl.
      rewrite <- app_assoc. reflexivity.
Qed.

Lemma infer_sample_cache_and_order_witness :
  exists sorted,
    Permutation sorted [(10, Scalar 1); (5, Scalar 0)] /\
    Sorted Qle (map fst sorted) /\
    forall conclusion,
      weighted_average_method (map snd sorted) (map fst sorted)
      = Ok conclusion ->
      infer_sample
        {| rule_base := [linear_rule 2 0%nat; linear_rule 1 1%nat] |}
        weighted_average_method
        [(0%nat, Scalar 1); (1%nat, Scalar 0)] [(0%nat, 5)] empty_world
      = (Ok conclusion,
         {| class_cache := ([5; 2; 1], conclusion) :: [];
            calls := [] ++ rule_calls 0 2
                     ++ [DefuzzCall (map snd sorted) (map fst sorted)] |}).
Proof.
  apply (proj2 (proj2 (infer_sample_cache_and_order
                         {| rule_base := [linear_rule 2 0%nat; linear_rule 1 1%nat] |}
                         weighted_average_method
                         [(0%nat, Scalar 1); (1%nat, Scalar 0)]
                         [(0%nat, 5)] empty_world))).
  - reflexivity.
  - repeat constructor.
Defined.

(** ** The cache across instances *)

(** C6 fails on the code.  [__cache] is bound to the class, so two
    instances share it: [system_b], run after [system_a] on the same
    measures, returns the conclusion that [system_a] stored, without
    evaluating any of its own rules, although on an empty cache it
    concludes differently. *)
Theorem class_cache_leaks_between_instances :
  let features := [(0%nat, [Scalar 1]); (1%nat, [Scalar 0])] in
  let measures := [(0%nat, [5])] in
  exists (conclusion_a conclusion_b : Q) (after_a after_b : world),
    infer system_a weighted_average_method features measures empty_world
    = (Ok [conclusion_a], after_a) /\
    infer system_b weighted_average_method features measures empty_world
    = (Ok [conclusion_b], after_b) /\
    ~ conclusion_a == conclusion_b /\
    infer system_b weighted_average_method features measures after_a
    = (Ok [conclusion_a], after_a).
Proof.
  simpl. do 4 eexists. split; [vm_compute; reflexivity|].
  split; [vm_compute; reflexivity|].
  split; [|vm_compute; reflexivity].
  vm_compute. discriminate.
Qed.

(** ** [MamdaniConsequent.output] *)

Lemma output_scalar (self : MamdaniConsequent) (f : Q) :
  fst (output self (FiringFloat f))
  = Ok (PyArray (np_minimum (clause_fuzzy_set self) f)).
Proof. reflexivity. Qed.

Lemma output_interval (self : MamdaniConsequent) (lmf umf : list Q)
    (l u : Q) :
  clause_fuzzy_set self = Nd2 [lmf; umf] ->
  fst (output self (FiringTuple [l; u]))
  = Ok (PyTuple2 (Nd1 (map (fun x => Qmin x l) lmf))
                 (Nd1 (map (fun x => Qmin x u) umf))).
Proof. intros H. simpl. unfold it2_cut. rewrite H. reflexivity. Qed.

Lemma output_other (self : MamdaniConsequent) :
  output self FiringOther = (Raise BareException, self).
Proof. reflexivity. Qed.

(** C7 fails on the code at a tuple whose length is not 2: [output]
    raises nothing and returns [None], and the consequent is left as it
    was. *)
Theorem output_tuple_of_three_returns_none (self : MamdaniConsequent)
    (a b c : Q) :
  output self (FiringTuple [a; b; c]) = (Ok PyNone, self).
Proof. reflexivity. Qed.

(** ** Rounding: the loop of [__find_y] on binary64 numbers *)

Section Rounding.

Import PrimFloat.

#[local] Set Warnings "-inexact-float".

Lemma two_cycle_never_exits (step : float -> result float) (a b : float) :
  step a = Ok b -> step b = Ok a ->
  ltb Binary64.eps (abs (b - a)) = true ->
  ltb Binary64.eps (abs (a - b)) = true ->
  forall fuel,
    Binary64.find_y_loop fuel step a b = None /\
    Binary64.find_y_loop fuel step b a = None.
Proof.
  intros Hab Hba Hd Hd'. induction fuel as [|fuel [IH1 IH2]].
  - simpl. rewrite Hd, Hd'. auto.
  - simpl. rewrite Hd, Hd', Hab, Hba. simpl. auto.
Qed.

(** C2 fails on the code.  With the lower memberships [0.1, 0.1, 0.1] and
    the upper memberships [0.1, 0.3, 0.1] on the domain [2, 3, 4] the
    candidates of y_l alternate between 3.0 and 2.9999999999999996, one
    unit in the last place apart, which is more than [eps]: the loop
    never exits, whatever the fuel. *)
Theorem find_y_oscillates_on_binary64 :
  let lmfs := [0.1; 0.1; 0.1]%float in
  let umfs := [0.1; 0.3; 0.1]%float in
  let domain := [2; 3; 4]%float in
  let step := fun c => Binary64.find_c_minute umfs lmfs c domain in
  step 3%float = Ok 2.9999999999999996%float /\
  step 2.9999999999999996%float = Ok 3%float /\
  ltb Binary64.eps (abs (3 - 2.9999999999999996)) = true /\
  forall fuel, Binary64.karnik_mendel fuel lmfs umfs domain = None.
Proof.
  cbv zeta.
  assert (H1 : Binary64.find_c_minute [0.1; 0.3; 0.1]%float
                 [0.1; 0.1; 0.1]%float 3%float [2; 3; 4]%float
               = Ok 2.9999999999999996%float) by (vm_compute; reflexivity).
  assert (H2 : Binary64.find_c_minute [0.1; 0.3; 0.1]%float
                 [0.1; 0.1; 0.1]%float 2.9999999999999996%float
                 [2; 3; 4]%float
               = Ok 3%float) by (vm_compute; reflexivity).
  repeat split; try assumption; try (vm_compute; reflexivity).
  intros fuel.
  destruct (two_cycle_never_exits
              (fun c => Binary64.find_c_minute [0.1; 0.3; 0.1]%float
                          [0.1; 0.1; 0.1]%float c [2; 3; 4]%float)
              3%float 2.9999999999999996%float H1 H2
              ltac:(vm_compute; reflexivity) ltac:(vm_compute; reflexivity)
              fuel) as [Hloop _].
  unfold Binary64.karnik_mendel.
  change (Binary64.membership_func_union [0.1; 0.1; 0.1]%float)
    with (Ok [0.1; 0.1; 0.1]%float).
  change (Binary64.membership_func_union [0.1; 0.3; 0.1]%float)
    with (Ok [0.1; 0.3; 0.1]%float).
  rewrite !fbind_lift_ok.
  assert (Hs : Np.binop add [0.1; 0.1; 0.1]%float [0.1; 0.3; 0.1]%float
               = Ok [0.2; 0.4; 0.2]%float) by (vm_compute; reflexivity).
  rewrite Hs, fbind_lift_ok. cbv zeta.
  assert (Hy : Binary64.find_y fuel
                 (Binary64.find_c_minute [0.1; 0.3; 0.1]%float
                    [0.1; 0.1; 0.1]%float)
                 [2; 3; 4]%float
                 (Binary64.add_scalar
                    (Binary64.div_scalar [0.2; 0.4; 0.2]%float 2)
                    Binary64.bias)
               = None).
  { unfold Binary64.find_y.
    assert (Ha : Binary64.average [2; 3; 4]%float
                   (Binary64.add_scalar
                      (Binary64.div_scalar [0.2; 0.4; 0.2]%float 2)
                      Binary64.bias)
                 = Ok 3%float) by (vm_compute; reflexivity).
    rewrite Ha, fbind_lift_ok, H1, fbind_lift_ok. exact Hloop. }
  rewrite Hy. reflexivity.
Qed.

(** C10 fails on the code.  On the one-point domain [0.7], with lower
    membership [0.5] and upper membership [1.0], the first candidate
    (0.7 * w) / w rounds to 0.6999999999999998, below [domain[0]]: no
    index satisfies [domain[k] <= c] and [__find_k] raises.  The same
    happens on the two-point domain [10000.0, 10000.001] with the lower
    memberships [0.25, 0] and the upper memberships [0.5, 0]. *)
Theorem find_k_fails_on_binary64 :
  let lmfs := [0.5]%float in
  let umfs := [1]%float in
  let domain := [0.7]%float in
  let thetas := [(0.5 + 1) / 2 + 1e-10]%float in
  Binary64.average domain thetas = Ok 0.6999999999999998%float /\
  ltb 0.6999999999999998 0.7 = true /\
  Binary64.find_k 0.6999999999999998%float domain = Raise IndexError /\
  (forall fuel,
      Binary64.karnik_mendel fuel lmfs umfs domain
      = Some (Raise IndexError)) /\
  (forall fuel,
      Binary64.karnik_mendel fuel [0.25; 0]%float [0.5; 0]%float
        [10000; 10000.001]%float
      = Some (Raise IndexError)).
Proof.
  cbv zeta. repeat split; vm_compute; reflexivity.
Qed.

(** *** The degenerate case, lower and upper membership the same array *)

Lemma broadcast_to_length {A : Type} (n : nat) (src : list A) :
  length src = n -> Np.broadcast_to n src = Ok src.
Proof. intros <-. unfold Np.broadcast_to. rewrite Nat.eqb_refl. reflexivity. Qed.

(** Whatever the switch index, the weights are [m + 1e-10]. *)
Lemma find_c_minute_same_on_binary64 (m domain : Binary64.array)
    (c r : float) :
  length m = length domain ->
  Binary64.find_c_minute m m c domain = Ok r ->
  Binary64.average domain (Binary64.add_scalar m Binary64.bias) = Ok r.
Proof.
  intros Hl. unfold Binary64.find_c_minute, Binary64.find_k, Np.where_.
  pose proof (last_where_from (map (fun d => leb d c) domain) 0) as H.
  rewrite length_map in H.
  destruct (Np.last_item _) as [k|e]; [|discriminate].
  destruct H as (k' & -> & Hk & _). cbn [rbind Nat.add].
  assert (Hz : length (Binary64.zeros (length domain)) = length domain)
    by apply repeat_length.
  assert (Hf : length (firstn (k' + 1) m) = (k' + 1)%nat)
    by (rewrite length_firstn; lia).
  unfold Np.set_prefix.
  rewrite broadcast_to_length by (rewrite !length_firstn; lia).
  cbn [rbind]. unfold Np.set_suffix.
  rewrite broadcast_to_length.
  2:{ rewrite !length_skipn, length_app, length_skipn, Hf, Hz. lia. }
  cbn [rbind]. rewrite firstn_app, Hf, Nat.sub_diag, firstn_O, app_nil_r.
  rewrite firstn_all2 by lia. rewrite firstn_skipn. exact (fun E => E).
Qed.

(** The loop can only return the average under [m + 1e-10]: every
    candidate after the first is that average. *)
Lemma find_y_loop_same_on_binary64 (fuel : nat) (m domain : Binary64.array)
    (c0 c1 y : float) :
  length m = length domain ->
  Binary64.average domain (Binary64.add_scalar m Binary64.bias) = Ok c1 ->
  Binary64.find_y_loop fuel (fun c => Binary64.find_c_minute m m c domain)
    c0 c1 = Some (Ok y) ->
  y = c1.
Proof.
  intros Hl Hc1. revert c0.
  induction fuel as [|fuel IH]; intros c0; simpl;
    destruct (ltb Binary64.eps (abs (c1 - c0))); try discriminate;
    try (intros E; injection E as <-; reflexivity).
  destruct (Binary64.find_c_minute m m c1 domain) as [c2|e] eqn:H2;
    [|discriminate].
  apply (find_c_minute_same_on_binary64 _ _ _ _ Hl) in H2.
  rewrite Hc1 in H2. injection H2 as <-. simpl. apply IH.
Qed.

Lemma find_y_same_on_binary64 (fuel : nat) (m domain thetas : Binary64.array)
    (y : float) :
  length m = length domain ->
  Binary64.find_y fuel (Binary64.find_c_minute m m) domain thetas
  = Some (Ok y) ->
  Binary64.average domain (Binary64.add_scalar m Binary64.bias) = Ok y.
Proof.
  intros Hl. unfold Binary64.find_y.
  destruct (Binary64.average domain thetas) as [c0|e]; [|discriminate].
  simpl.
  destruct (Binary64.find_c_minute m m c0 domain) as [c1|e] eqn:H1;
    [|discriminate].
  apply (find_c_minute_same_on_binary64 _ _ _ _ Hl) in H1.
  simpl. intros Hy.
  apply (find_y_loop_same_on_binary64 _ _ _ _ _ _ Hl H1) in Hy.
  rewrite Hy. exact H1.
Qed.

(** C3, as the code has it, on binary64 numbers.  With the same array [m],
    of the domain's length, as lower and as upper membership function,
    every value that [karnik_mendel] returns is [(c + c) / 2] for [c] the
    value of [center_of_gravity] on the memberships [m + 1e-10], that is
    [np.average(domain, weights=m + 1e-10)]: the bias is part of the
    weights.  That the call returns is not stated: it can raise
    ([km_degenerate_outcomes_on_binary64]). *)
Theorem km_degenerate_on_binary64 (fuel : nat) (domain m : Binary64.array)
    (r : float) :
  length m = length domain ->
  Binary64.karnik_mendel fuel m m domain = Some (Ok r) ->
  exists c,
    Binary64.center_of_gravity domain (Binary64.add_scalar m Binary64.bias)
    = Ok c /\
    r = ((c + c) / 2)%float.
Proof.
  intros Hl. unfold Binary64.karnik_mendel, Binary64.center_of_gravity.
  destruct m as [|v m]; [discriminate|].
  cbn [Binary64.membership_func_union lift fbind].
  unfold Np.binop. rewrite Nat.eqb_refl. cbn [lift fbind]. cbv zeta.
  set (thetas := Binary64.add_scalar _ Binary64.bias).
  destruct (Binary64.find_y fuel _ domain thetas) as [[y|e]|] eqn:Hy;
    try discriminate.
  cbn [fbind].
  apply (find_y_same_on_binary64 _ _ _ _ _ Hl) in Hy.
  intros E. injection E as <-.
  exists y. split; [exact Hy | reflexivity].
Qed.

Lemma km_degenerate_on_binary64_witness :
  exists c,
    Binary64.center_of_gravity [1; 2; 3]%float
      (Binary64.add_scalar [0.2; 0.9; 0.4]%float Binary64.bias) = Ok c /\
    2.1333333333066666%float = ((c + c) / 2)%float.
Proof.
  apply (km_degenerate_on_binary64 0 [1; 2; 3]%float [0.2; 0.9; 0.4]%float
           2.1333333333066666%float).
  - reflexivity.
  - vm_compute. reflexivity.
Defined.

(** What the degenerate call does on three inputs.  On the domain [0, 1]
    with the membership [1e-10, 0] it returns 0.33333333333333337 where
    [center_of_gravity] returns 0.  On the one-point domain [0.7] with
    the membership [0.75], and on the domain [10000.0, 10000.001] with
    the membership [0.375, 0], the first candidate rounds below
    [domain[0]], [__find_k] finds no index and the call raises, where
    [center_of_gravity] returns 0.6999999999999998 and 10000.0. *)
Lemma km_degenerate_outcomes_on_binary64 :
  (forall fuel,
      Binary64.karnik_mendel fuel [1e-10; 0]%float [1e-10; 0]%float
        [0; 1]%float
      = Some (Ok 0.33333333333333337%float)) /\
  Binary64.center_of_gravity [0; 1]%float [1e-10; 0]%float = Ok 0%float /\
  (forall fuel,
      Binary64.karnik_mendel fuel [0.75]%float [0.75]%float [0.7]%float
      = Some (Raise IndexError)) /\
  Binary64.center_of_gravity [0.7]%float [0.75]%float
  = Ok 0.6999999999999998%float /\
  (forall fuel,
      Binary64.karnik_mendel fuel [0.375; 0]%float [0.375; 0]%float
        [10000; 10000.001]%float
      = Some (Raise IndexError)) /\
  Binary64.center_of_gravity [10000; 10000.001]%float [0.375; 0]%float
  = Ok 10000%float.
Proof.
  repeat split; try (vm_compute; reflexivity);
    intros fuel; destruct fuel; vm_compute; reflexivity.
Qed.

End Rounding.

(** ** [takagi_sugeno_karnik_mendel] on binary64 numbers *)



Section OnBinary64.

Import PrimFloat.

#[local] Set Warnings "-inexact-float".



Section Rows.

Context {A : Type} (key : A -> float).

Let key_le (a b : A) : Prop := leb (key a) (key b) = true.







End Rows.



End OnBinary64.

(** * Further properties *)

(** ** The defuzzifiers that pick a point of maximal membership *)

Lemma where_from_spec (mask : list bool) (i k : nat) :
  In k (Np.where_from i mask) <->
  exists m, k = (i + m)%nat /\ (m < length mask)%nat /\
            nth m mask false = true.
Proof.
  revert i. induction mask as [|b mask IH]; intros i; simpl.
  - split; [tauto | intros (m & _ & Hm & _); lia].
  - assert (Hrest : In k (Np.where_from (S i) mask) <->
                    exists m, k = (i + S m)%nat /\ (m < length mask)%nat /\
                              nth m mask false = true).
    { rewrite IH. split; intros (m & E & Hm & Ht); exists m;
        repeat split; auto; lia. }
    destruct b; simpl; rewrite ?Hrest.
    + split.
      * intros [<- | (m & E & Hm & Ht)].
        -- exists 0%nat. repeat split; [lia | lia].
        -- exists (S m). repeat split; auto; lia.
      * intros (m & E & Hm & Ht). destruct m as [|m].
        -- left. lia.
        -- right. exists m. repeat split; auto; lia.
    + split.
      * intros (m & E & Hm & Ht). exists (S m). repeat split; auto; lia.
      * intros (m & E & Hm & Ht). destruct m as [|m]; [discriminate|].
        exists m. repeat split; auto; lia.
Qed.

Lemma where_from_ascending (mask : list bool) (i : nat) :
  StronglySorted lt (Np.where_from i mask).
Proof.
  revert i. induction mask as [|b mask IH]; intros i; simpl.
  - constructor.
  - destruct b; [|apply IH]. constructor; [apply IH|].
    apply Forall_forall. intros k Hk. apply where_from_spec in Hk.
    destruct Hk as (m & -> & _). lia.
Qed.

Lemma first_item_least (l : list nat) (k : nat) :
  StronglySorted lt l -> Np.first_item l = Ok k ->
  In k l /\ forall j, In j l -> (k <= j)%nat.
Proof.
  intros Hs E. destruct l as [|a l]; [discriminate|].
  injection E as ->. split; [left; reflexivity|].
  inversion Hs as [|? ? _ Hall]; subst.
  intros j [<- | Hj]; [lia|].
  rewrite Forall_forall in Hall. specialize (Hall j Hj). lia.
Qed.

Lemma last_item_greatest (l : list nat) (k : nat) :
  StronglySorted lt l -> Np.last_item l = Ok k ->
  In k l /\ forall j, In j l -> (j <= k)%nat.
Proof.
  induction l as [|a l IH]; intros Hs E; [discriminate|].
  destruct l as [|b l].
  - injection E as ->. split; [left; reflexivity|].
    intros j [<- | []]. lia.
  - rewrite last_item_cons in E.
    inversion Hs as [|? ? Hs' Hall]; subst.
    destruct (IH Hs' E) as [Hin Hle]. split; [right; exact Hin|].
    intros j [<- | Hj]; [|apply Hle, Hj].
    rewrite Forall_forall in Hall. specialize (Hall k Hin). lia.
Qed.

Lemma np_max_spec (cut : Np.array) :
  cut <> [] ->
  exists maximum k,
    np_max cut = Ok maximum /\ (k < length cut)%nat /\
    maximum == nth k cut 0 /\
    forall j, (j < length cut)%nat -> nth j cut 0 <= maximum.
Proof.
  intros Hne. destruct cut as [|v cut]; [congruence|].
  destruct (fold_max_spec cut v) as [Hall Hex].
  exists (fold_left Qmax cut v).
  apply Exists_exists in Hex. destruct Hex as (u & Hin & Hu).
  apply (In_nth _ _ 0) in Hin. destruct Hin as (k & Hk & Ek).
  exists k. split; [reflexivity|]. split; [exact Hk|].
  split; [rewrite Ek; exact Hu|].
  intros j Hj. rewrite Forall_forall in Hall. apply Hall, nth_In, Hj.
Qed.

Lemma equal_mask_nth (cut : Np.array) (maximum : Q) (m : nat) :
  (m < length cut)%nat ->
  nth m (map (fun v => Qeq_bool v maximum) cut) false
  = Qeq_bool (nth m cut 0) maximum.
Proof.
  intros Hm.
  rewrite (nth_indep _ false (Qeq_bool 0 maximum))
    by (rewrite length_map; exact Hm).
  apply (map_nth (fun v => Qeq_bool v maximum)).
Qed.

(** The indices that [np.where(cut == maximum)[0]] holds are the
    positions of the maximum, in ascending order. *)
Lemma where_equal_spec (cut : Np.array) (maximum : Q) :
  (forall j, (j < length cut)%nat -> nth j cut 0 <= maximum) ->
  (exists k, (k < length cut)%nat /\ maximum == nth k cut 0) ->
  StronglySorted lt (where_equal cut maximum) /\
  where_equal cut maximum <> [] /\
  forall k, In k (where_equal cut maximum) <->
            (is_argmax cut k /\ nth k cut 0 == maximum).
Proof.
  intros Hub (k0 & Hk0 & E0).
  assert (Hchar : forall k, In k (where_equal cut maximum) <->
                            ((k < length cut)%nat /\
                             nth k cut 0 == maximum)).
  { intros k. unfold where_equal, Np.where_. rewrite where_from_spec.
    rewrite length_map. split.
    - intros (m & -> & Hm & Ht). simpl.
      rewrite equal_mask_nth in Ht by exact Hm.
      apply Qeq_bool_iff in Ht. auto.
    - intros (Hk & E). exists k. repeat split; auto.
      rewrite equal_mask_nth by exact Hk. apply Qeq_bool_iff, E. }
  split; [apply where_from_ascending|]. split.
  - intros Hnil. assert (Hin : In k0 (where_equal cut maximum)).
    { apply Hchar. split; [exact Hk0 | symmetry; exact E0]. }
    rewrite Hnil in Hin. destruct Hin.
  - intros k. rewrite Hchar. unfold is_argmax. split.
    + intros (Hk & E). repeat split; auto.
      intros j Hj. rewrite E. apply Hub, Hj.
    + intros ((Hk & _) & E). auto.
Qed.

Lemma getitem_array_nth (domain : Np.array) (k : nat) :
  (k < length domain)%nat -> getitem_array domain k = Ok (nth k domain 0).
Proof.
  intros Hk. unfold getitem_array.
  rewrite (nth_error_nth' domain 0 Hk). reflexivity.
Qed.

Lemma first_item_ok {A : Type} (l : list A) :
  l <> [] -> exists a, Np.first_item l = Ok a.
Proof. destruct l as [|a l]; [congruence | exists a; reflexivity]. Qed.

Lemma last_item_ok {A : Type} (l : list A) :
  l <> [] -> exists a, Np.last_item l = Ok a.
Proof.
  induction l as [|a l IH]; [congruence|]. intros _.
  destruct l as [|b l]; [exists a; reflexivity|].
  rewrite last_item_cons. apply IH. discriminate.
Qed.

(** X1.  [largest_of_maximum] returns the domain value at the last
    position at which the union of the membership functions is largest:
    the membership there is at least the membership anywhere, and
    strictly greater than the membership at every later position. *)
Theorem largest_of_maximum_last_argmax (domain : Np.array) (mfs : mfs_arg)
    (cut : Np.array) :
  membership_func_union mfs = Ok cut -> cut <> [] ->
  (length cut <= length domain)%nat ->
  exists k,
    largest_of_maximum domain mfs = Ok (nth k domain 0) /\
    is_argmax cut k /\
    forall j, (k < j < length cut)%nat -> nth j cut 0 < nth k cut 0.
Proof.
  intros Hcut Hne Hlen.
  destruct (np_max_spec cut Hne) as (maximum & k0 & Hmax & Hk0 & E0 & Hub).
  destruct (where_equal_spec cut maximum Hub) as (Hsorted & Hnonempty & Hin).
  { exists k0. auto. }
  destruct (last_item_ok _ Hnonempty) as (k & Hlast).
  destruct (last_item_greatest _ k Hsorted Hlast) as [Hk Hgreatest].
  apply Hin in Hk. destruct Hk as [Harg Ek].
  exists k. split; [|split; [exact Harg|]].
  - unfold largest_of_maximum. rewrite Hcut. simpl. rewrite Hmax. simpl.
    rewrite Hlast. simpl. apply getitem_array_nth.
    destruct Harg as [Hk _]. lia.
  - intros j Hj. destruct Harg as [Hk Hle].
    destruct (Qlt_le_dec (nth j cut 0) (nth k cut 0)) as [Hlt | Hge];
      [exact Hlt|].
    exfalso. assert (Hj' : In j (where_equal cut maximum)).
    { apply Hin. split.
      - split; [lia|]. intros i Hi. specialize (Hle i Hi). lra.
      - specialize (Hub j ltac:(lia)). rewrite <- Ek in *. lra. }
    specialize (Hgreatest j Hj'). lia.
Qed.

Lemma largest_of_maximum_last_argmax_witness :
  exists k,
    largest_of_maximum [10; 20; 30; 40]
      (ManyArrays [[0; 1 # 2; 1 # 4; 0]; [0; 1 # 4; 1 # 2; 1 # 5]])
    = Ok (nth k [10; 20; 30; 40] 0) /\
    is_argmax [0; 1 # 2; 1 # 2; 1 # 5] k /\
    forall j, (k < j < 4)%nat ->
              nth j [0; 1 # 2; 1 # 2; 1 # 5] 0
              < nth k [0; 1 # 2; 1 # 2; 1 # 5] 0.
Proof.
  apply (largest_of_maximum_last_argmax [10; 20; 30; 40]
           (ManyArrays [[0; 1 # 2; 1 # 4; 0]; [0; 1 # 4; 1 # 2; 1 # 5]])
           [0; 1 # 2; 1 # 2; 1 # 5]).
  - vm_compute. reflexivity.
  - discriminate.
  - simpl. lia.
Defined.

(** X2.  [smallest_of_maximum] returns the domain value at the first
    position at which the union of the membership functions is largest:
    the membership at every earlier position is strictly smaller. *)
Theorem smallest_of_maximum_first_argmax (domain : Np.array) (mfs : mfs_arg)
    (cut : Np.array) :
  membership_func_union mfs = Ok cut -> cut <> [] ->
  (length cut <= length domain)%nat ->
  exists k,
    smallest_of_maximum domain mfs = Ok (nth k domain 0) /\
    is_argmax cut k /\
    forall j, (j < k)%nat -> nth j cut 0 < nth k cut 0.
Proof.
  intros Hcut Hne Hlen.
  destruct (np_max_spec cut Hne) as (maximum & k0 & Hmax & Hk0 & E0 & Hub).
  destruct (where_equal_spec cut maximum Hub) as (Hsorted & Hnonempty & Hin).
  { exists k0. auto. }
  destruct (first_item_ok _ Hnonempty) as (k & Hfirst).
  destruct (first_item_least _ k Hsorted Hfirst) as [Hk Hleast].
  apply Hin in Hk. destruct Hk as [Harg Ek].
  exists k. split; [|split; [exact Harg|]].
  - unfold smallest_of_maximum. rewrite Hcut. simpl. rewrite Hmax. simpl.
    rewrite Hfirst. simpl. apply getitem_array_nth.
    destruct Harg as [Hk _]. lia.
  - intros j Hj. destruct Harg as [Hk Hle].
    destruct (Qlt_le_dec (nth j cut 0) (nth k cut 0)) as [Hlt | Hge];
      [exact Hlt|].
    exfalso. assert (Hj' : In j (where_equal cut maximum)).
    { apply Hin. split.
      - split; [lia|]. intros i Hi. specialize (Hle i Hi). lra.
      - specialize (Hub j ltac:(lia)). rewrite <- Ek in *. lra. }
    specialize (Hleast j Hj'). lia.
Qed.

Lemma smallest_of_maximum_first_argmax_witness :
  exists k,
    smallest_of_maximum [10; 20; 30; 40]
      (ManyArrays [[0; 1 # 2; 1 # 4; 0]; [0; 1 # 4; 1 # 2; 1 # 5]])
    = Ok (nth k [10; 20; 30; 40] 0) /\
    is_argmax [0; 1 # 2; 1 # 2; 1 # 5] k /\
    forall j, (j < k)%nat ->
              nth j [0; 1 # 2; 1 # 2; 1 # 5] 0
              < nth k [0; 1 # 2; 1 # 2; 1 # 5] 0.
Proof.
  apply (smallest_of_maximum_first_argmax [10; 20; 30; 40]
           (ManyArrays [[0; 1 # 2; 1 # 4; 0]; [0; 1 # 4; 1 # 2; 1 # 5]])
           [0; 1 # 2; 1 # 2; 1 # 5]).
  - vm_compute. reflexivity.
  - discriminate.
  - simpl. lia.
Defined.

Lemma ascending_ext (l l' : list nat) :
  StronglySorted lt l -> StronglySorted lt l' ->
  (forall k, In k l <-> In k l') -> l = l'.
Proof.
  intros Hl. revert l'. induction Hl as [|a l Hs IH Ha]; intros l' Hl' Hext.
  - destruct l' as [|b l']; [reflexivity|].
    exfalso. apply (Hext b). left. reflexivity.
  - destruct Hl' as [|b l' Hs' Hb].
    + exfalso. apply (Hext a). left. reflexivity.
    + rewrite Forall_forall in Ha, Hb.
      assert (E : a = b).
      { destruct (proj1 (Hext a) (or_introl eq_refl)) as [Hab | Hab];
          [congruence|].
        destruct (proj2 (Hext b) (or_introl eq_refl)) as [Hba | Hba];
          [congruence|].
        specialize (Ha b Hba). specialize (Hb a Hab). lia. }
      subst b. f_equal. apply IH; [exact Hs'|].
      intros k. split; intros Hk.
      * destruct (proj1 (Hext k) (or_intror Hk)) as [E | Hk'];
          [|exact Hk'].
        specialize (Ha k Hk). lia.
      * destruct (proj2 (Hext k) (or_intror Hk)) as [E | Hk'];
          [|exact Hk'].
        specialize (Hb k Hk). lia.
Qed.

Lemma seq_ascending (start len : nat) : StronglySorted lt (seq start len).
Proof.
  revert start. induction len as [|len IH]; intros start; simpl.
  - constructor.
  - constructor; [apply IH|]. apply Forall_forall.
    intros k Hk. apply in_seq in Hk. lia.
Qed.

Lemma filter_ascending (f : nat -> bool) (l : list nat) :
  StronglySorted lt l -> StronglySorted lt (filter f l).
Proof.
  induction 1 as [|a l Hs IH Ha]; simpl; [constructor|].
  destruct (f a); [|exact IH]. constructor; [exact IH|].
  rewrite Forall_forall in *. intros k Hk. apply filter_In in Hk.
  apply Ha, Hk.
Qed.

Lemma maxima_positions_spec (cut : Np.array) (k : nat) :
  In k (maxima_positions cut) <-> is_argmax cut k.
Proof.
  unfold maxima_positions, is_argmax. rewrite filter_In, in_seq, forallb_forall.
  split.
  - intros (Hk & Hall). split; [lia|]. intros j Hj.
    apply Qle_bool_iff, Hall, nth_In, Hj.
  - intros (Hk & Hall). split; [lia|]. intros v Hv.
    apply (In_nth _ _ 0) in Hv. destruct Hv as (j & Hj & <-).
    apply Qle_bool_iff, Hall, Hj.
Qed.

(** What [np.where(cut == np.max(cut))[0]] holds. *)
Lemma where_equal_max (cut : Np.array) :
  cut <> [] ->
  exists maximum,
    np_max cut = Ok maximum /\
    where_equal cut maximum = maxima_positions cut /\
    maxima_positions cut <> [] /\
    forall k, is_argmax cut k -> nth k cut 0 == maximum.
Proof.
  intros Hne.
  destruct (np_max_spec cut Hne) as (maximum & k0 & Hmax & Hk0 & E0 & Hub).
  destruct (where_equal_spec cut maximum Hub) as (Hsorted & Hnonempty & Hin).
  { exists k0. auto. }
  assert (Hval : forall k, is_argmax cut k -> nth k cut 0 == maximum).
  { intros k [Hk Hle]. specialize (Hle k0 Hk0). specialize (Hub k Hk). lra. }
  assert (E : where_equal cut maximum = maxima_positions cut).
  { apply ascending_ext; [exact Hsorted | |].
    - apply filter_ascending, seq_ascending.
    - intros k. rewrite Hin, maxima_positions_spec. split; [tauto|].
      intros Hk. split; [exact Hk | apply Hval, Hk]. }
  exists maximum. rewrite <- E. auto.
Qed.

Lemma maxima_positions_in_range (cut : Np.array) :
  Forall (fun k => (k < length cut)%nat) (maxima_positions cut).
Proof.
  apply Forall_forall. intros k Hk. apply maxima_positions_spec in Hk.
  exact (proj1 Hk).
Qed.

Lemma take_items_ok (domain : Np.array) (indices : list nat) :
  Forall (fun k => (k < length domain)%nat) indices ->
  take_items domain indices = Ok (map (fun k => nth k domain 0) indices).
Proof.
  induction 1 as [|k indices Hk _ IH]; simpl; [reflexivity|].
  rewrite getitem_array_nth by exact Hk. simpl. rewrite IH. reflexivity.
Qed.

Lemma sum_between (l : Np.array) (a b : Q) :
  Forall (fun v => a <= v <= b) l ->
  inject_Z (Z.of_nat (length l)) * a <= Np.sum l
  <= inject_Z (Z.of_nat (length l)) * b.
Proof.
  induction 1 as [|v l Hv _ IH].
  - simpl. unfold inject_Z. lra.
  - change (Np.sum (v :: l)) with (v + Np.sum l).
    replace (Z.of_nat (length (v :: l))) with (Z.of_nat (length l) + 1)%Z
      by (simpl length; lia).
    rewrite inject_Z_plus. change (inject_Z 1) with 1. lra.
Qed.

Lemma ascending_nth_between (l : list nat) (i : nat) (first last : nat) :
  (i < length l)%nat ->
  (forall j, In j l -> (first <= j <= last)%nat) ->
  (first <= nth i l 0%nat <= last)%nat.
Proof. intros Hi Hall. apply Hall, nth_In, Hi. Qed.

(** The first and the last position of the maximum. *)
Lemma maxima_positions_ends (cut : Np.array) :
  cut <> [] ->
  exists first last,
    Np.first_item (maxima_positions cut) = Ok first /\
    Np.last_item (maxima_positions cut) = Ok last /\
    (last < length cut)%nat /\
    forall k, In k (maxima_positions cut) -> (first <= k <= last)%nat.
Proof.
  intros Hne. destruct (where_equal_max cut Hne) as (_ & _ & _ & Hnonempty & _).
  assert (Hs : StronglySorted lt (maxima_positions cut))
    by apply filter_ascending, seq_ascending.
  destruct (first_item_ok _ Hnonempty) as (first & Hfirst).
  destruct (last_item_ok _ Hnonempty) as (last & Hlast).
  destruct (first_item_least _ _ Hs Hfirst) as [_ Hleast].
  destruct (last_item_greatest _ _ Hs Hlast) as [Hin Hgreatest].
  exists first, last. repeat split; auto.
  apply maxima_positions_spec in Hin. exact (proj1 Hin).
Qed.

(** X3.  [middle_of_maximum] returns an array of one cell, not a number:
    the domain value at the position of rank floor(n / 2), counting from
    0, among the n positions of maximal membership.  With two maxima
    this is the later one. *)
Theorem middle_of_maximum_cell (domain : Np.array) (mfs : mfs_arg)
    (cut : Np.array) :
  membership_func_union mfs = Ok cut -> cut <> [] ->
  (length cut <= length domain)%nat ->
  let positions := maxima_positions cut in
  let k := nth (length positions / 2) positions 0%nat in
  middle_of_maximum domain mfs = Ok [nth k domain 0] /\ is_argmax cut k.
Proof.
  intros Hcut Hne Hlen positions k.
  destruct (where_equal_max cut Hne) as (maximum & Hmax & E & Hnonempty & _).
  fold positions in E, Hnonempty.
  assert (Hmid : (length positions / 2 < length positions)%nat).
  { apply Nat.div_lt; [|lia].
    destruct positions; [congruence | simpl; lia]. }
  assert (Hk : In k positions) by (apply nth_In, Hmid).
  apply maxima_positions_spec in Hk. split; [|exact Hk].
  unfold middle_of_maximum. rewrite Hcut. cbn [rbind]. rewrite Hmax.
  cbn [rbind]. rewrite E. cbv zeta. unfold getitem_index. fold positions.
  rewrite (nth_error_nth' positions 0%nat Hmid). cbn [rbind]. fold k.
  rewrite getitem_array_nth by (destruct Hk; lia). reflexivity.
Qed.

Lemma middle_of_maximum_cell_witness :
  middle_of_maximum [10; 20; 30; 40]
    (ManyArrays [[0; 1 # 2; 1 # 4; 0]; [0; 1 # 4; 1 # 2; 1 # 5]])
  = Ok [30] /\
  is_argmax [0; 1 # 2; 1 # 2; 1 # 5] 2.
Proof.
  apply (middle_of_maximum_cell [10; 20; 30; 40]
           (ManyArrays [[0; 1 # 2; 1 # 4; 0]; [0; 1 # 4; 1 # 2; 1 # 5]])
           [0; 1 # 2; 1 # 2; 1 # 5]).
  - vm_compute. reflexivity.
  - discriminate.
  - simpl. lia.
Defined.

(** X4.  On an ascending domain the four defuzzifiers of the maximum are
    ordered: [smallest_of_maximum] is at most the cell of
    [middle_of_maximum] and at most [mean_of_maxima], and both are at
    most [largest_of_maximum] (the mean on exact numbers). *)
Theorem maxima_defuzzifiers_ordered (domain : Np.array) (mfs : mfs_arg)
    (cut : Np.array) :
  membership_func_union mfs = Ok cut -> cut <> [] ->
  (length cut <= length domain)%nat -> Sorted Qle domain ->
  exists s m v l,
    smallest_of_maximum domain mfs = Ok s /\
    middle_of_maximum domain mfs = Ok [m] /\
    mean_of_maxima domain mfs = Ok (Finite v) /\
    largest_of_maximum domain mfs = Ok l /\
    s <= m <= l /\ s <= v <= l.
Proof.
  intros Hcut Hne Hlen Hasc.
  destruct (where_equal_max cut Hne) as (maximum & Hmax & E & Hnonempty & _).
  destruct (maxima_positions_ends cut Hne)
    as (first & last & Hfirst & Hlast & Hrange & Hbetween).
  set (positions := maxima_positions cut) in *.
  set (k := nth (length positions / 2) positions 0%nat).
  assert (Hmid : (length positions / 2 < length positions)%nat).
  { apply Nat.div_lt; [|lia].
    destruct positions; [congruence | simpl; lia]. }
  assert (Hk : (first <= k <= last)%nat) by (apply Hbetween, nth_In, Hmid).
  assert (Hmiddle : middle_of_maximum domain mfs = Ok [nth k domain 0]).
  { unfold middle_of_maximum. rewrite Hcut. cbn [rbind]. rewrite Hmax.
    cbn [rbind]. rewrite E. cbv zeta. unfold getitem_index.
    rewrite (nth_error_nth' positions 0%nat Hmid). cbn [rbind]. fold k.
    rewrite getitem_array_nth by lia. reflexivity. }
  assert (Hitems : take_items domain positions
                   = Ok (map (fun i => nth i domain 0) positions)).
  { apply take_items_ok. apply Forall_forall. intros i Hi.
    specialize (Hbetween i Hi). lia. }
  assert (Hcells : Forall (fun v => nth first domain 0 <= v
                                    <= nth last domain 0)
                     (map (fun i => nth i domain 0) positions)).
  { apply Forall_forall. intros v Hv. apply in_map_iff in Hv.
    destruct Hv as (i & <- & Hi). specialize (Hbetween i Hi).
    split; apply sorted_nth_le; auto; lia. }
  apply sum_between in Hcells. rewrite length_map in Hcells.
  assert (Hsize : 0 < inject_Z (Z.of_nat (length positions))).
  { apply inject_nat_pos. lia. }
  exists (nth first domain 0), (nth k domain 0),
    (Np.sum (map (fun i => nth i domain 0) positions)
     / inject_Z (Z.of_nat (length positions))),
    (nth last domain 0).
  split; [|split; [exact Hmiddle|split; [|split]]].
  - unfold smallest_of_maximum. rewrite Hcut. simpl. rewrite Hmax. simpl.
    rewrite E. fold positions. rewrite Hfirst. simpl.
    apply getitem_array_nth. lia.
  - unfold mean_of_maxima. rewrite Hcut. simpl. rewrite Hmax. simpl.
    rewrite E. fold positions. rewrite Hitems. simpl. unfold f64_div.
    destruct (Qeq_bool _ 0) eqn:Ez; [|reflexivity].
    apply Qeq_bool_iff in Ez. lra.
  - unfold largest_of_maximum. rewrite Hcut. simpl. rewrite Hmax. simpl.
    rewrite E. fold positions. rewrite Hlast. simpl.
    apply getitem_array_nth. lia.
  - split; [split; apply sorted_nth_le; auto; lia|].
    split.
    + apply div_ge_iff; [exact Hsize | lra].
    + apply div_le_iff; [exact Hsize | lra].
Qed.

Lemma maxima_defuzzifiers_ordered_witness :
  exists s m v l,
    smallest_of_maximum [10; 20; 30; 40]
      (ManyArrays [[0; 1 # 2; 1 # 4; 0]; [0; 1 # 4; 1 # 2; 1 # 5]]) = Ok s /\
    middle_of_maximum [10; 20; 30; 40]
      (ManyArrays [[0; 1 # 2; 1 # 4; 0]; [0; 1 # 4; 1 # 2; 1 # 5]])
    = Ok [m] /\
    mean_of_maxima [10; 20; 30; 40]
      (ManyArrays [[0; 1 # 2; 1 # 4; 0]; [0; 1 # 4; 1 # 2; 1 # 5]])
    = Ok (Finite v) /\
    largest_of_maximum [10; 20; 30; 40]
      (ManyArrays [[0; 1 # 2; 1 # 4; 0]; [0; 1 # 4; 1 # 2; 1 # 5]]) = Ok l /\
    s <= m <= l /\ s <= v <= l.
Proof.
  apply (maxima_defuzzifiers_ordered [10; 20; 30; 40]
           (ManyArrays [[0; 1 # 2; 1 # 4; 0]; [0; 1 # 4; 1 # 2; 1 # 5]])
           [0; 1 # 2; 1 # 2; 1 # 5]).
  - vm_compute. reflexivity.
  - discriminate.
  - simpl. lia.
  - repeat constructor; vm_compute; discriminate.
Defined.

(** X5.  When the union of the membership functions has its maximum at
    one position only, the four defuzzifiers of the maximum agree: each
    returns the domain value at that position ([middle_of_maximum] as an
    array of one cell). *)
Theorem maxima_defuzzifiers_agree (domain : Np.array) (mfs : mfs_arg)
    (cut : Np.array) (k : nat) :
  membership_func_union mfs = Ok cut ->
  (k < length cut <= length domain)%nat ->
  (forall j, (j < length cut)%nat -> j <> k -> nth j cut 0 < nth k cut 0) ->
  exists v,
    smallest_of_maximum domain mfs = Ok (nth k domain 0) /\
    largest_of_maximum domain mfs = Ok (nth k domain 0) /\
    middle_of_maximum domain mfs = Ok [nth k domain 0] /\
    mean_of_maxima domain mfs = Ok (Finite v) /\ v == nth k domain 0.
Proof.
  intros Hcut Hk Hunique.
  assert (Hne : cut <> []) by (destruct cut; [simpl in Hk; lia | discriminate]).
  destruct (where_equal_max cut Hne) as (maximum & Hmax & E & _ & _).
  assert (Hpos : maxima_positions cut = [k]).
  { apply ascending_ext.
    - apply filter_ascending, seq_ascending.
    - repeat constructor.
    - intros j. rewrite maxima_positions_spec. unfold is_argmax. split.
      + intros (Hj & Hle). left.
        destruct (Nat.eq_dec j k) as [-> | Hjk]; [reflexivity|].
        specialize (Hle k ltac:(lia)). specialize (Hunique j Hj Hjk). lra.
      + intros [<- | []]. split; [lia|]. intros j Hj.
        destruct (Nat.eq_dec j k) as [-> | Hjk]; [lra|].
        specialize (Hunique j Hj Hjk). lra. }
  rewrite Hpos in E.
  exists ((nth k domain 0 + 0) / inject_Z (Z.of_nat 1)).
  unfold smallest_of_maximum, largest_of_maximum, middle_of_maximum,
    mean_of_maxima.
  rewrite Hcut. cbn [rbind]. rewrite Hmax. cbn [rbind]. rewrite E.
  cbv zeta. cbn [Np.first_item Np.last_item rbind length Nat.div
                 getitem_index take_items].
  rewrite getitem_array_nth by lia. cbn [rbind].
  change (getitem_index [k] (fst (Nat.divmod 1 1 0 1))) with (Ok k).
  cbn [rbind]. rewrite getitem_array_nth by lia.
  repeat split; try reflexivity.
  change (inject_Z (Z.of_nat 1)) with 1. field.
Qed.

Lemma maxima_defuzzifiers_agree_witness :
  exists v,
    smallest_of_maximum [10; 20; 30] (OneArray [1 # 5; 4 # 5; 1 # 2])
    = Ok (nth 1 [10; 20; 30] 0) /\
    largest_of_maximum [10; 20; 30] (OneArray [1 # 5; 4 # 5; 1 # 2])
    = Ok (nth 1 [10; 20; 30] 0) /\
    middle_of_maximum [10; 20; 30] (OneArray [1 # 5; 4 # 5; 1 # 2])
    = Ok [nth 1 [10; 20; 30] 0] /\
    mean_of_maxima [10; 20; 30] (OneArray [1 # 5; 4 # 5; 1 # 2])
    = Ok (Finite v) /\ v == nth 1 [10; 20; 30] 0.
Proof.
  apply (maxima_defuzzifiers_agree [10; 20; 30]
           (OneArray [1 # 5; 4 # 5; 1 # 2]) [1 # 5; 4 # 5; 1 # 2] 1).
  - reflexivity.
  - simpl. lia.
  - intros j Hj Hjk. simpl in Hj.
    destruct j as [|[|[|j]]]; try lia; vm_compute; reflexivity.
Defined.

(** ** [center_of_gravity] and [center_of_sums] *)

Lemma sum_nonneg (w : Np.array) :
  Forall (fun v => 0 <= v) w -> 0 <= Np.sum w.
Proof.
  induction 1 as [|v w Hv _ IH]; [simpl; lra|].
  change (Np.sum (v :: w)) with (v + Np.sum w). lra.
Qed.

Lemma sum_pos_some (w : Np.array) :
  Forall (fun v => 0 <= v) w -> Exists (fun v => 0 < v) w -> 0 < Np.sum w.
Proof.
  intros Hall Hex. induction Hex as [v w Hv | v w _ IH].
  - inversion Hall as [|? ? _ Hw]; subst. apply sum_nonneg in Hw.
    change (Np.sum (v :: w)) with (v + Np.sum w). lra.
  - inversion Hall as [|? ? Hv Hw]; subst. specialize (IH Hw).
    change (Np.sum (v :: w)) with (v + Np.sum w). lra.
Qed.

(** The union of membership arrays without a negative value has none,
    and it is positive wherever one of the arrays is. *)
Lemma union_nonneg (n : nat) (mfs : mfs_arg) (cut : Np.array) :
  well_shaped n mfs -> elementwise_max mfs cut -> length cut = n ->
  Forall (Forall (fun v => 0 <= v)) (rows_of mfs) ->
  Forall (fun v => 0 <= v) cut /\
  (Exists (Exists (fun v => 0 < v)) (rows_of mfs) ->
   Exists (fun v => 0 < v) cut).
Proof.
  intros [_ Hshape] (first & others & Hrows & Hlen & Hnth) Hn Hpos.
  rewrite Hrows in *.
  assert (Hcell : forall i, (i < n)%nat ->
            Forall (fun r => nth i r 0 <= nth i cut 0) (first :: others) /\
            Exists (fun r => nth i cut 0 == nth i r 0) (first :: others)).
  { intros i Hi. rewrite Hnth by lia. apply column_max_spec. }
  split.
  - apply Forall_forall. intros v Hv.
    apply (In_nth _ _ 0) in Hv. destruct Hv as (i & Hi & <-).
    destruct (Hcell i ltac:(lia)) as [_ Hex].
    apply Exists_exists in Hex. destruct Hex as (r & Hr & ->).
    rewrite Forall_forall in Hpos, Hshape.
    specialize (Hpos r Hr). specialize (Hshape r Hr).
    rewrite Forall_forall in Hpos. apply Hpos, nth_In. lia.
  - intros Hex. apply Exists_exists in Hex. destruct Hex as (r & Hr & Hex).
    apply Exists_exists in Hex. destruct Hex as (v & Hv & Hv0).
    apply (In_nth _ _ 0) in Hv. destruct Hv as (i & Hi & <-).
    rewrite Forall_forall in Hshape. specialize (Hshape r Hr).
    destruct (Hcell i ltac:(lia)) as [Hall _].
    rewrite Forall_forall in Hall. specialize (Hall r Hr).
    apply Exists_exists. exists (nth i cut 0). split.
    + apply nth_In. lia.
    + lra.
Qed.

(** X6.  On an ascending domain, with membership arrays of the domain's
    length that hold no negative value and at least one positive one,
    [center_of_gravity] returns a value between the first and the last
    domain value (this is on exact numbers). *)
Theorem center_of_gravity_within_domain (domain : Np.array) (mfs : mfs_arg) :
  domain <> [] -> Sorted Qle domain ->
  well_shaped (length domain) mfs ->
  Forall (Forall (fun v => 0 <= v)) (rows_of mfs) ->
  Exists (Exists (fun v => 0 < v)) (rows_of mfs) ->
  exists g,
    center_of_gravity domain mfs = Ok g /\
    nth 0 domain 0 <= g <= nth (length domain - 1) domain 0.
Proof.
  intros Hne Hasc Hshape Hnonneg Hsome.
  assert (Hn : (0 < length domain)%nat)
    by (destruct domain; [congruence | simpl; lia]).
  destruct (membership_func_union_ok _ mfs Hn Hshape)
    as (cut & Hcut & Hlen & Hmax).
  destruct (union_nonneg _ mfs cut Hshape Hmax Hlen Hnonneg) as [Hall Hex].
  specialize (Hex Hsome).
  pose proof (sum_pos_some cut Hall Hex) as Hpos.
  unfold center_of_gravity. rewrite Hcut. cbn [rbind].
  eexists. split.
  - apply average_ok; [congruence | lra].
  - refine (proj2 (average_between domain cut _ Hne Hasc Hall _)).
    apply average_ok; [congruence | lra].
Qed.

Lemma center_of_gravity_within_domain_witness :
  exists g,
    center_of_gravity [1; 2; 4] (ManyArrays [[0; 1 # 2; 0]; [0; 1 # 4; 1]])
    = Ok g /\
    nth 0 [1; 2; 4] 0 <= g <= nth (length [1; 2; 4] - 1) [1; 2; 4] 0.
Proof.
  apply (center_of_gravity_within_domain [1; 2; 4]
           (ManyArrays [[0; 1 # 2; 0]; [0; 1 # 4; 1]])).
  - discriminate.
  - repeat constructor; vm_compute; discriminate.
  - split; [discriminate | repeat constructor].
  - repeat constructor; vm_compute; discriminate.
  - apply Exists_cons_hd, Exists_cons_tl, Exists_cons_hd. reflexivity.
Defined.

Lemma center_of_sums_one_array (domain a : Np.array) :
  a <> [] -> length domain = length a ->
  center_of_sums domain (OneArray a)
  = Ok (f64_div (Np.sum (Np.zip_with Qmult domain a)) (Np.sum a)).
Proof.
  intros Hne Hlen. unfold center_of_sums.
  destruct a as [|v a]; [congruence|]. cbn [rbind].
  rewrite Hlen, Nat.eqb_refl. reflexivity.
Qed.

(** X7.  For one membership array of the domain's length,
    [center_of_sums] and [center_of_gravity] compute the same quotient:
    whenever the sum of the memberships is not zero both return it.  When
    the sum is zero they part: [center_of_gravity] raises
    [ZeroDivisionError], [center_of_sums] returns nan or an infinity. *)
Theorem center_of_sums_one_array_is_center_of_gravity (domain a : Np.array) :
  a <> [] -> length domain = length a ->
  (~ Np.sum a == 0 ->
   exists g, center_of_gravity domain (OneArray a) = Ok g /\
             center_of_sums domain (OneArray a) = Ok (Finite g)) /\
  (Np.sum a == 0 ->
   center_of_gravity domain (OneArray a) = Raise ZeroDivisionError /\
   exists v, center_of_sums domain (OneArray a) = Ok v /\
             (v = NaN \/ v = Inf)).
Proof.
  intros Hne Hlen. rewrite center_of_sums_one_array by assumption.
  unfold center_of_gravity. rewrite union_one_array by exact Hne.
  cbn [rbind]. split.
  - intros Hs. eexists. split; [apply average_ok; assumption|].
    unfold f64_div. destruct (Qeq_bool (Np.sum a) 0) eqn:E; [|reflexivity].
    apply Qeq_bool_iff in E. contradiction.
  - intros Hs. apply Qeq_bool_iff in Hs. split.
    + unfold Np.average. rewrite Hlen, Nat.eqb_refl. cbn [negb].
      rewrite Hs. reflexivity.
    + unfold f64_div. rewrite Hs.
      destruct (Qeq_bool (Np.sum (Np.zip_with Qmult domain a)) 0);
        eexists; split; try reflexivity; auto.
Qed.

Lemma center_of_sums_one_array_is_center_of_gravity_witness :
  (~ Np.sum [1 # 2; 1 # 4] == 0 ->
   exists g, center_of_gravity [1; 3] (OneArray [1 # 2; 1 # 4]) = Ok g /\
             center_of_sums [1; 3] (OneArray [1 # 2; 1 # 4])
             = Ok (Finite g)) /\
  (Np.sum [1 # 2; 1 # 4] == 0 ->
   center_of_gravity [1; 3] (OneArray [1 # 2; 1 # 4])
   = Raise ZeroDivisionError /\
   exists v, center_of_sums [1; 3] (OneArray [1 # 2; 1 # 4]) = Ok v /\
             (v = NaN \/ v = Inf)).
Proof.
  apply (center_of_sums_one_array_is_center_of_gravity [1; 3]
           [1 # 2; 1 # 4]).
  - discriminate.
  - reflexivity.
Defined.

(** ** [karnik_mendel]: the roles of its arguments, and its range *)

Lemma Qplus_comm_eq (a b : Q) : a + b = b + a.
Proof.
  destruct a as [na da], b as [nb db]. unfold Qplus. simpl.
  f_equal; [ring | apply Pos.mul_comm].
Qed.

Lemma zip_with_plus_comm (a b : Np.array) :
  Np.zip_with Qplus a b = Np.zip_with Qplus b a.
Proof.
  revert b. induction a as [|x a IH]; intros [|y b]; simpl; try reflexivity.
  rewrite IH, Qplus_comm_eq. reflexivity.
Qed.

Lemma binop_plus_comm (a b : Np.array) :
  Np.binop Qplus a b = Np.binop Qplus b a.
Proof.
  unfold Np.binop. rewrite (Nat.eqb_sym (length b) (length a)).
  destruct (Nat.eqb (length a) (length b)) eqn:E.
  - rewrite zip_with_plus_comm. reflexivity.
  - apply Nat.eqb_neq in E.
    destruct a as [|x [|x' a]], b as [|y [|y' b]];
      try reflexivity; try (exfalso; simpl in E; congruence);
      f_equal; apply map_ext; intros; apply Qplus_comm_eq.
Qed.

(** X8.  [karnik_mendel] does not tell the lower from the upper
    membership functions: called with the two collections swapped it
    returns the same value. *)
Theorem karnik_mendel_swapped_memberships (fuel : nat) (lmfs umfs : mfs_arg)
    (domain : Np.array) (r : Q) :
  karnik_mendel fuel lmfs umfs domain = Some (Ok r) ->
  karnik_mendel fuel umfs lmfs domain = Some (Ok r).
Proof.
  unfold karnik_mendel, lift.
  destruct (membership_func_union lmfs) as [lower|e1]; [|discriminate].
  destruct (membership_func_union umfs) as [upper|e2]; [|discriminate].
  cbn [fbind]. rewrite (binop_plus_comm upper lower).
  destruct (Np.binop Qplus lower upper) as [s|e3]; [|discriminate].
  cbn [fbind].
  destruct (find_y fuel (find_c_minute upper lower) domain _)
    as [[y_l|e4]|]; try discriminate.
  cbn [fbind].
  destruct (find_y fuel (find_c_minute lower upper) domain _)
    as [[y_r|e5]|]; try discriminate.
  cbn [fbind]. rewrite (Qplus_comm_eq y_r y_l). trivial.
Qed.

Lemma karnik_mendel_swapped_memberships_witness :
  exists r,
    karnik_mendel 4 (OneArray [0; 1; 0]) (OneArray [1; 1; 0]) [0; 1; 2]
    = Some (Ok r) /\
    karnik_mendel 4 (OneArray [1; 1; 0]) (OneArray [0; 1; 0]) [0; 1; 2]
    = Some (Ok r).
Proof.
  eexists. split.
  - vm_compute. reflexivity.
  - apply (karnik_mendel_swapped_memberships 4 (OneArray [0; 1; 0])
             (OneArray [1; 1; 0]) [0; 1; 2]).
    vm_compute. reflexivity.
Defined.

Lemma km_converges_last (f : Q -> result Q) (c y : Q) :
  km_converges (returns f) c y -> exists c', f c' = Ok y.
Proof.
  induction 1 as [c c2 Hs _ | c c2 y _ _ _ IH];
    [exists c; exact Hs | exact IH].
Qed.

Lemma kweights_nonneg (under over : Np.array) (k n : nat) :
  length under = n -> length over = n -> (k < n)%nat ->
  Forall (fun v => 0 <= v) under -> Forall (fun v => 0 <= v) over ->
  Forall (fun w => 0 <= w) (kweights under over k).
Proof.
  intros Hu Ho Hk Hup Hop. apply Forall_nth. intros i d Hi.
  rewrite (kweights_length under over k n) in Hi by assumption.
  rewrite (nth_indep _ d 0)
    by (rewrite (kweights_length under over k n); assumption).
  rewrite (kweights_nth under over k n) by assumption.
  unfold reweighted. rewrite Forall_forall in Hup, Hop.
  assert (0 <= nth i under 0) by (apply Hup, nth_In; lia).
  assert (0 <= nth i over 0) by (apply Hop, nth_In; lia).
  unfold bias. destruct (i <=? k)%nat; lra.
Qed.

Lemma find_c_minute_within_domain (under over domain : Np.array) (c y : Q) :
  domain <> [] -> Sorted Qle domain ->
  length under = length domain -> length over = length domain ->
  Forall (fun v => 0 <= v) under -> Forall (fun v => 0 <= v) over ->
  find_c_minute under over c domain = Ok y ->
  nth 0 domain 0 <= y <= nth (length domain - 1) domain 0.
Proof.
  intros Hne Hasc Hu Ho Hup Hop Hy.
  destruct (find_k c domain) as [k|e] eqn:Hk.
  - rewrite (find_c_minute_switch under over domain c k) in Hy by assumption.
    apply find_k_ok_iff in Hk. destruct Hk as (Hk & _).
    refine (proj2 (average_between domain _ y Hne Hasc _ Hy)).
    apply (kweights_nonneg under over k (length domain)); assumption.
  - unfold find_c_minute in Hy. rewrite Hk in Hy. discriminate.
Qed.

(** X9.  On exact numbers, for a nonempty ascending domain and
    collections of lower and of upper membership arrays that have the
    domain's length and no negative value: every value that
    [karnik_mendel] returns lies between the first and the last domain
    value.  Whether a call returns is not part of this: on binary64
    numbers it can also loop for ever or raise. *)
Theorem karnik_mendel_within_domain (fuel : nat) (lmfs umfs : mfs_arg)
    (domain : Np.array) (r : Q) :
  domain <> [] -> Sorted Qle domain ->
  well_shaped (length domain) lmfs -> well_shaped (length domain) umfs ->
  Forall (Forall (fun v => 0 <= v)) (rows_of lmfs) ->
  Forall (Forall (fun v => 0 <= v)) (rows_of umfs) ->
  karnik_mendel fuel lmfs umfs domain = Some (Ok r) ->
  nth 0 domain 0 <= r <= nth (length domain - 1) domain 0.
Proof.
  intros Hne Hasc Hls Hus Hlp Hup Hr.
  assert (Hn : (0 < length domain)%nat)
    by (destruct domain; [congruence | simpl; lia]).
  destruct (membership_func_union_ok _ lmfs Hn Hls)
    as (lower & Hlower & Hll & Hlmax).
  destruct (membership_func_union_ok _ umfs Hn Hus)
    as (upper & Hupper & Hul & Humax).
  destruct (union_nonneg _ lmfs lower Hls Hlmax Hll Hlp) as [Hlnn _].
  destruct (union_nonneg _ umfs upper Hus Humax Hul Hup) as [Hunn _].
  rewrite (karnik_mendel_unfold fuel lmfs umfs domain lower upper) in Hr
    by congruence.
  destruct (find_y fuel (find_c_minute upper lower) domain _)
    as [[y_l|e]|] eqn:Hyl; try discriminate.
  cbn [fbind] in Hr.
  destruct (find_y fuel (find_c_minute lower upper) domain _)
    as [[y_r|e]|] eqn:Hyr; try discriminate.
  cbn [fbind] in Hr. injection Hr as <-.
  apply find_y_sound in Hyl, Hyr.
  destruct Hyl as (c0 & _ & Hl), Hyr as (c0' & _ & Hr).
  apply km_converges_last in Hl, Hr.
  destruct Hl as (c & Hc), Hr as (c' & Hc').
  pose proof (find_c_minute_within_domain upper lower domain c y_l
                Hne Hasc Hul Hll Hunn Hlnn Hc).
  pose proof (find_c_minute_within_domain lower upper domain c' y_r
                Hne Hasc Hll Hul Hlnn Hunn Hc').
  split; [apply div_ge_iff | apply div_le_iff]; lra.
Qed.

Lemma karnik_mendel_within_domain_witness :
  exists r,
    karnik_mendel 4 (ManyArrays [[0; 1; 0]; [0; 0; 1 # 2]])
      (OneArray [1; 1; 1 # 2]) [0; 1; 2] = Some (Ok r) /\
    nth 0 [0; 1; 2] 0 <= r <= nth (length [0; 1; 2] - 1) [0; 1; 2] 0.
Proof.
  eexists. split.
  - vm_compute. reflexivity.
  - apply (karnik_mendel_within_domain 4
             (ManyArrays [[0; 1; 0]; [0; 0; 1 # 2]])
             (OneArray [1; 1; 1 # 2]) [0; 1; 2]).
    + discriminate.
    + repeat constructor; vm_compute; discriminate.
    + split; [discriminate | repeat constructor].
    + split; [discriminate | repeat constructor].
    + repeat constructor; vm_compute; discriminate.
    + repeat constructor; vm_compute; discriminate.
    + vm_compute. reflexivity.
Defined.

(** ** [weighted_average] as a convex combination *)

Lemma dot_between (a w : Np.array) (lo hi : Q) :
  length a = length w ->
  Forall (fun v => 0 <= v) w -> Forall (fun o => lo <= o <= hi) a ->
  lo * Np.sum w <= Np.sum (Np.zip_with Qmult a w) <= hi * Np.sum w.
Proof.
  revert w. induction a as [|x a IH]; intros [|y w] Hlen Hw Ha;
    try discriminate.
  - simpl. lra.
  - inversion Hw as [|? ? Hy Hw']; subst.
    inversion Ha as [|? ? Hx Ha']; subst.
    specialize (IH w ltac:(simpl in Hlen; lia) Hw' Ha').
    change (Np.sum (y :: w)) with (y + Np.sum w).
    change (Np.sum (Np.zip_with Qmult (x :: a) (y :: w)))
      with (x * y + Np.sum (Np.zip_with Qmult a w)).
    assert (0 <= (x - lo) * y) by (apply Qmult_le_0_compat; lra).
    assert (0 <= (hi - x) * y) by (apply Qmult_le_0_compat; lra).
    lra.
Qed.

Lemma add_scalar_positive (firings : Np.array) :
  Forall (fun f => 0 <= f) firings ->
  Forall (fun w => 0 < w) (Np.add_scalar firings bias).
Proof.
  intros H. unfold Np.add_scalar. apply Forall_map.
  revert H. apply Forall_impl. intros f Hf. unfold bias. lra.
Qed.

(** X10.  With one firing that is not negative for every output, and at
    least one output, [weighted_average] returns a value and raises
    nothing, whatever the firings are, all zero included; the value lies
    between any two bounds of the outputs (on exact numbers). *)
Theorem weighted_average_between_outputs (firings outputs : Np.array)
    (lo hi : Q) :
  outputs <> [] -> length firings = length outputs ->
  Forall (fun f => 0 <= f) firings ->
  Forall (fun o => lo <= o <= hi) outputs ->
  exists r, weighted_average firings outputs = Ok r /\ lo <= r <= hi.
Proof.
  intros Hne Hlen Hf Hout. unfold weighted_average.
  pose proof (add_scalar_positive firings Hf) as Hw.
  assert (Hpos : 0 < Np.sum (Np.add_scalar firings bias)).
  { apply sum_pos; [|exact Hw].
    destruct firings, outputs; simpl in *; congruence. }
  assert (Hlen' : length outputs = length (Np.add_scalar firings bias))
    by (rewrite add_scalar_length; congruence).
  eexists. split; [apply average_ok; [exact Hlen' | lra]|].
  assert (Hw0 : Forall (fun v => 0 <= v) (Np.add_scalar firings bias)).
  { revert Hw. apply Forall_impl. intros; lra. }
  pose proof (dot_between outputs _ lo hi Hlen' Hw0 Hout).
  split; [apply div_ge_iff | apply div_le_iff]; lra.
Qed.

Lemma weighted_average_between_outputs_witness :
  exists r, weighted_average [0; 0; 1 # 2] [7; 3; 5] = Ok r /\ 3 <= r <= 7.
Proof.
  apply (weighted_average_between_outputs [0; 0; 1 # 2] [7; 3; 5] 3 7).
  - discriminate.
  - reflexivity.
  - repeat constructor; vm_compute; discriminate.
  - repeat constructor; vm_compute; discriminate.
Defined.

Lemma sum_permutation (l l' : Np.array) :
  Permutation l l' -> Np.sum l == Np.sum l'.
Proof.
  induction 1 as [| x l l' _ IH | x y l | l l' l'' _ IH1 _ IH2].
  - reflexivity.
  - change (x + Np.sum l == x + Np.sum l'). rewrite IH. reflexivity.
  - change (y + (x + Np.sum l) == x + (y + Np.sum l)). lra.
  - rewrite IH1. exact IH2.
Qed.

Lemma zip_with_combine (f : Q -> Q -> Q) (a b : Np.array) :
  Np.zip_with f a b = map (fun p => f (fst p) (snd p)) (combine a b).
Proof.
  revert b. induction a as [|x a IH]; intros [|y b]; simpl; try reflexivity.
  rewrite IH. reflexivity.
Qed.

Lemma map_snd_combine {A B : Type} (l : list A) (l' : list B) :
  length l = length l' -> map snd (combine l l') = l'.
Proof.
  revert l'. induction l as [|a l IH]; intros [|b l'] H; simpl in *;
    try discriminate; try reflexivity.
  f_equal. apply IH. lia.
Qed.

(** X11.  [weighted_average] depends on the pairs of an output and its
    firing and not on their order: on a rearrangement of the pairs it
    returns an equal value (on exact numbers), so that the order in
    which [infer] hands over the rules' results does not matter to it. *)
Theorem weighted_average_order_free (firings outputs firings' outputs'
    : Np.array) (r : Q) :
  length firings = length outputs -> length firings' = length outputs' ->
  Permutation (combine outputs firings) (combine outputs' firings') ->
  weighted_average firings outputs = Ok r ->
  exists r', weighted_average firings' outputs' = Ok r' /\ r' == r.
Proof.
  intros Hlen Hlen' Hperm Hr. unfold weighted_average in *.
  apply average_inv in Hr. destruct Hr as (_ & Hnz & ->).
  assert (Hpairs : forall fs os : Np.array, length fs = length os ->
            combine os (Np.add_scalar fs bias)
            = map (fun p => (fst p, snd p + bias)) (combine os fs)).
  { intros fs os. revert fs.
    induction os as [|o os IH]; intros [|f fs] H; simpl in *;
      try discriminate; try reflexivity.
    rewrite IH by lia. reflexivity. }
  assert (Hperm' : Permutation (combine outputs (Np.add_scalar firings bias))
                     (combine outputs' (Np.add_scalar firings' bias))).
  { rewrite !Hpairs by assumption. apply Permutation_map, Hperm. }
  assert (Hw : Np.sum (Np.add_scalar firings' bias)
               == Np.sum (Np.add_scalar firings bias)).
  { rewrite <- (map_snd_combine outputs (Np.add_scalar firings bias))
      by (rewrite add_scalar_length; congruence).
    rewrite <- (map_snd_combine outputs' (Np.add_scalar firings' bias))
      by (rewrite add_scalar_length; congruence).
    apply sum_permutation, Permutation_map, Permutation_sym, Hperm'. }
  assert (Hd : Np.sum (Np.zip_with Qmult outputs'
                         (Np.add_scalar firings' bias))
               == Np.sum (Np.zip_with Qmult outputs
                            (Np.add_scalar firings bias))).
  { rewrite !zip_with_combine.
    apply sum_permutation, Permutation_map, Permutation_sym, Hperm'. }
  eexists. split.
  - apply average_ok; [rewrite add_scalar_length; congruence|].
    rewrite Hw. exact Hnz.
  - rewrite Hw, Hd. reflexivity.
Qed.

Lemma weighted_average_order_free_witness :
  exists r',
    weighted_average [1 # 2; 1 # 4] [3; 7] = Ok r' /\
    r' == Np.sum (Np.zip_with Qmult [7; 3]
                    (Np.add_scalar [1 # 4; 1 # 2] bias))
          / Np.sum (Np.add_scalar [1 # 4; 1 # 2] bias).
Proof.
  apply (weighted_average_order_free [1 # 4; 1 # 2] [7; 3]
           [1 # 2; 1 # 4] [3; 7]).
  - reflexivity.
  - reflexivity.
  - apply perm_swap.
  - reflexivity.
Defined.

(** ** [calculate_membership] as a piecewise linear function *)

Lemma line_through_between (prev cur : Q * Q) (x lo hi : Q) :
  fst prev < fst cur -> fst prev <= x <= fst cur ->
  lo <= snd prev <= hi -> lo <= snd cur <= hi ->
  lo <= line_through prev cur x <= hi.
Proof.
  intros Hw Hx Hp Hc. unfold line_through.
  set (t := (x - fst prev) / (fst cur - fst prev)).
  assert (Ht : 0 <= t <= 1).
  { subst t. split.
    - apply div_ge_iff; lra.
    - apply div_le_iff; lra. }
  assert (0 <= (snd prev - lo) * (1 - t)) by (apply Qmult_le_0_compat; lra).
  assert (0 <= (snd cur - lo) * t) by (apply Qmult_le_0_compat; lra).
  assert (0 <= (hi - snd prev) * (1 - t)) by (apply Qmult_le_0_compat; lra).
  assert (0 <= (hi - snd cur) * t) by (apply Qmult_le_0_compat; lra).
  split; lra.
Qed.

Lemma scan_bracket_between (x : Q) (rest : list (Q * Q)) (prev : Q * Q)
    (lo hi : Q) :
  strictly_ascending (prev :: rest) -> fst prev <= x ->
  Forall (fun p => lo <= snd p <= hi) (prev :: rest) -> lo <= 0 <= hi ->
  exists v, scan_bracket x prev rest = Finite v /\ lo <= v <= hi.
Proof.
  revert prev. induction rest as [|cur rest IH]; intros prev Hs Hx Hv H0.
  - exists 0. split; [reflexivity | exact H0].
  - inversion Hs as [|? ? Hs' Hall]; subst.
    inversion Hall as [|? ? Hpc _]; subst.
    inversion Hv as [|? ? Hp Hv']; subst.
    inversion Hv' as [|? ? Hc _]; subst.
    simpl. destruct (Qle_bool x (fst cur)) eqn:E.
    + apply Qle_bool_iff in E. rewrite interpolate_finite by exact Hpc.
      eexists. split; [reflexivity|].
      apply line_through_between; auto.
    + apply Qle_bool_false in E. apply IH; auto. lra.
Qed.

(** X12.  Over points whose first coordinates ascend strictly,
    [calculate_membership] returns a number for every [x], never nan,
    and the number lies between any two bounds of the points' values that
    enclose 0: memberships between 0 and 1 give a membership between 0
    and 1 (on exact numbers). *)
Theorem calculate_membership_between (x : Q) (points : list (Q * Q))
    (lo hi : Q) :
  strictly_ascending points ->
  Forall (fun p => lo <= snd p <= hi) points -> lo <= 0 <= hi ->
  exists v, calculate_membership x points = Finite v /\ lo <= v <= hi.
Proof.
  intros Hs Hv H0. destruct points as [|p0 [|p1 rest]].
  - exists 0. split; [reflexivity | exact H0].
  - simpl. inversion Hv as [|? ? Hp _]; subst.
    destruct (Qeq_bool x (fst p0)); eexists; split; try reflexivity; auto.
  - cbn [calculate_membership].
    destruct (Qle_bool (fst p0) x) eqn:E.
    + apply Qle_bool_iff in E. apply scan_bracket_between; auto.
    + exists 0. split; [reflexivity | exact H0].
Qed.

Lemma calculate_membership_between_witness :
  exists v,
    calculate_membership (3 # 2) [(1, 1 # 5); (2, 4 # 5); (4, 1 # 2)]
    = Finite v /\ 0 <= v <= 1.
Proof.
  apply (calculate_membership_between (3 # 2)
           [(1, 1 # 5); (2, 4 # 5); (4, 1 # 2)] 0 1).
  - repeat constructor; vm_compute; reflexivity.
  - repeat constructor; vm_compute; discriminate.
  - split; vm_compute; discriminate.
Defined.

Lemma scan_bracket_at_point (rest : list (Q * Q)) (prev : Q * Q) (j : nat) :
  strictly_ascending (prev :: rest) -> (j < length rest)%nat ->
  exists v,
    scan_bracket (fst (nth j rest (0, 0))) prev rest = Finite v /\
    v == snd (nth j rest (0, 0)).
Proof.
  revert prev j. induction rest as [|cur rest IH]; intros prev j Hs Hj.
  - simpl in Hj. lia.
  - inversion Hs as [|? ? Hs' Hall]; subst.
    inversion Hall as [|? ? Hpc _]; subst.
    destruct j as [|j].
    + cbn [nth scan_bracket].
      assert (E : Qle_bool (fst cur) (fst cur) = true)
        by (apply Qle_bool_iff; lra).
      rewrite E, interpolate_finite by exact Hpc.
      eexists. split; [reflexivity|]. unfold line_through. field. lra.
    + cbn [nth scan_bracket].
      assert (Hlt : fst cur < fst (nth j rest (0, 0))).
      { inversion Hs' as [|? ? _ Hc]; subst.
        rewrite Forall_forall in Hc. apply Hc, nth_In. simpl in Hj. lia. }
      assert (E : Qle_bool (fst (nth j rest (0, 0))) (fst cur) = false)
        by (apply Qle_bool_false; lra).
      rewrite E. apply IH; [exact Hs' | simpl in Hj; lia].
Qed.

(** X13.  Over points whose first coordinates ascend strictly,
    [calculate_membership] passes through every point: at the first
    coordinate of a point it returns that point's value (on exact
    numbers). *)
Theorem calculate_membership_through_points (points : list (Q * Q))
    (i : nat) :
  strictly_ascending points -> (i < length points)%nat ->
  exists v,
    calculate_membership (fst (nth i points (0, 0))) points = Finite v /\
    v == snd (nth i points (0, 0)).
Proof.
  intros Hs Hi. destruct points as [|p0 [|p1 rest]].
  - simpl in Hi. lia.
  - destruct i as [|i]; [|simpl in Hi; lia].
    cbn [nth calculate_membership].
    assert (E : Qeq_bool (fst p0) (fst p0) = true)
      by (apply Qeq_bool_iff; reflexivity).
    rewrite E. eexists. split; reflexivity.
  - inversion Hs as [|? ? Hs' Hall]; subst.
    destruct i as [|i].
    + cbn [nth calculate_membership scan_bracket].
      inversion Hall as [|? ? H01 _]; subst.
      assert (E : Qle_bool (fst p0) (fst p0) = true)
        by (apply Qle_bool_iff; lra).
      assert (E' : Qle_bool (fst p0) (fst p1) = true)
        by (apply Qle_bool_iff; lra).
      rewrite E, E', interpolate_finite by exact H01.
      eexists. split; [reflexivity|]. unfold line_through. field. lra.
    + change (nth (S i) (p0 :: p1 :: rest) (0, 0))
        with (nth i (p1 :: rest) (0, 0)).
      cbn [calculate_membership].
      assert (Hlt : fst p0 < fst (nth i (p1 :: rest) (0, 0))).
      { rewrite Forall_forall in Hall. apply Hall, nth_In.
        simpl in Hi. simpl. lia. }
      assert (E : Qle_bool (fst p0) (fst (nth i (p1 :: rest) (0, 0))) = true)
        by (apply Qle_bool_iff; lra).
      rewrite E. apply scan_bracket_at_point; [exact Hs|].
      simpl in Hi. simpl. lia.
Qed.

Lemma calculate_membership_through_points_witness :
  exists v,
    calculate_membership
      (fst (nth 1 [(1, 1 # 5); (2, 4 # 5); (4, 1 # 2)] (0, 0)))
      [(1, 1 # 5); (2, 4 # 5); (4, 1 # 2)] = Finite v /\
    v == snd (nth 1 [(1, 1 # 5); (2, 4 # 5); (4, 1 # 2)] (0, 0)).
Proof.
  apply (calculate_membership_through_points
           [(1, 1 # 5); (2, 4 # 5); (4, 1 # 2)] 1).
  - repeat constructor; vm_compute; reflexivity.
  - simpl. lia.
Defined.

(** ** [takagi_sugeno_karnik_mendel] at its edges *)

Section SingleRuleOnBinary64.

Import PrimFloat.

#[local] Set Warnings "-inexact-float".

(** X14.  On binary64 numbers, for a single rule with the output 0.7:
    at the default step 0.001 the bounds of the domain are 699 * 0.001
    and 700 * 0.001, [np.arange] computes the length
    ceil(1.0000000000000009) = 2 and builds a cell at the stop itself;
    neither cell equals the output, so that both memberships are 0
    whatever the firing, and the result is 0.6995, the middle of the two
    cells, not the rule's output.  At the step 0.7 the domain is the one
    cell 0.7 and, with the firing (0.5, 1.0), the call ends in the
    [IndexError] of [__find_k]. *)
Theorem ts_km_single_rule_on_binary64 :
  Binary64.math_floor (0.7 / 0.001) = Ok 699%Z /\
  Binary64.math_floor (0.7 / 0.001 + 1) = Ok 700%Z /\
  ((Binary64.of_int 700 * 0.001 - Binary64.of_int 699 * 0.001) / 0.001
   = 1.0000000000000009)%float /\
  Binary64.arange (Binary64.of_int 699 * 0.001) (Binary64.of_int 700 * 0.001)
    0.001
  = Ok [0.6990000000000001; 0.7000000000000001]%float /\
  (forall fuel l u,
      Binary64.takagi_sugeno_karnik_mendel fuel [(l, u)] [0.7]%float 0.001
      = Some (Ok 0.6995%float)) /\
  Binary64.arange (Binary64.of_int 1 * 0.7) (Binary64.of_int 2 * 0.7) 0.7
  = Ok [0.7]%float /\
  (forall fuel,
      Binary64.takagi_sugeno_karnik_mendel fuel [(0.5, 1)]%float [0.7]%float
        0.7
      = Some (Raise IndexError)).
Proof.
  repeat split; try (vm_compute; reflexivity);
    intros fuel; intros; destruct fuel; vm_compute; reflexivity.
Qed.

End SingleRuleOnBinary64.

(** X15.  [takagi_sugeno_karnik_mendel] on malformed arguments: a
    different number of outputs and of firings is a [ValueError]; a step
    of zero is an [OverflowError], or a [ValueError] when the least
    output is zero too.  Neither needs an iteration of the Karnik-Mendel
    loop. *)
Theorem ts_km_malformed_arguments (fuel : nat) (firings : list (Q * Q))
    (outputs : Np.array) (step : Q) :
  (length outputs <> length firings ->
   takagi_sugeno_karnik_mendel fuel firings outputs step
   = Some (Raise ValueError)) /\
  (outputs <> [] -> length outputs = length firings -> step == 0 ->
   forall lo, is_minimum lo outputs ->
     takagi_sugeno_karnik_mendel fuel firings outputs step
     = Some (Raise (if Qeq_bool lo 0 then ValueError else OverflowError))).
Proof.
  split.
  - intros Hlen. unfold takagi_sugeno_karnik_mendel.
    apply Nat.eqb_neq in Hlen. rewrite Hlen. reflexivity.
  - intros Hne Hlen Hstep lo Hlo. unfold takagi_sugeno_karnik_mendel.
    rewrite Hlen, Nat.eqb_refl. simpl negb. cbv iota zeta.
    set (rows := sort_by fst (combine outputs firings) : list rule_row).
    assert (Hperm : Permutation rows (combine outputs firings))
      by apply sort_by_perm.
    assert (Hsorted : Sorted (fun a b : rule_row => fst a <= fst b) rows)
      by apply (sort_by_sorted fst).
    assert (Hrne : rows <> []).
    { intros E. rewrite E in Hperm. apply Permutation_nil in Hperm.
      destruct outputs, firings; simpl in *; congruence. }
    destruct (items_of_nonempty rows Hrne) as (r0 & rl & Hfirst & Hlast).
    rewrite Hfirst, fbind_lift_ok.
    assert (Hr0 : fst r0 == lo).
    { assert (Hin : In (fst r0) outputs).
      { destruct r0 as [o f]. apply (in_combine_l outputs firings o f).
        apply (Permutation_in _ Hperm), first_item_in, Hfirst. }
      assert (Hleast : Forall (fun o => fst r0 <= o) outputs).
      { rewrite <- (map_fst_combine outputs firings) by exact Hlen.
        rewrite Forall_map. apply Forall_forall. intros r Hr.
        pose proof (sorted_first_least fst rows r0 Hsorted Hfirst) as H.
        rewrite Forall_forall in H. apply H.
        apply (Permutation_in _ (Permutation_sym Hperm)), Hr. }
      destruct Hlo as [Hlo_in Hlo_least].
      rewrite Forall_forall in Hleast, Hlo_least.
      specialize (Hleast lo Hlo_in). specialize (Hlo_least _ Hin). lra. }
    unfold f64_div. apply Qeq_bool_iff in Hstep. rewrite Hstep.
    assert (E : Qeq_bool (fst r0) 0 = Qeq_bool lo 0).
    { destruct (Qeq_bool lo 0) eqn:E0.
      - apply Qeq_bool_iff in E0. apply Qeq_bool_iff. lra.
      - apply Qeq_bool_neq in E0.
        destruct (Qeq_bool (fst r0) 0) eqn:E1; [|reflexivity].
        apply Qeq_bool_iff in E1. exfalso. apply E0. lra. }
    rewrite E. destruct (Qeq_bool lo 0); reflexivity.
Qed.

Lemma ts_km_malformed_arguments_witness :
  takagi_sugeno_karnik_mendel 0 [(0, 1)] [1; 2] (1 # 2)
  = Some (Raise ValueError) /\
  takagi_sugeno_karnik_mendel 0 [(0, 1); (1, 1)] [3; 0] 0
  = Some (Raise ValueError).
Proof.
  destruct (ts_km_malformed_arguments 0 [(0, 1)] [1; 2] (1 # 2))
    as (Hlen & _).
  destruct (ts_km_malformed_arguments 0 [(0, 1); (1, 1)] [3; 0] 0)
    as (_ & Hstep).
  split; [apply Hlen; simpl; lia|].
  apply (Hstep ltac:(discriminate) eq_refl ltac:(reflexivity) 0).
  split; [right; left; reflexivity|].
  repeat constructor; vm_compute; discriminate.
Defined.

(** X16.  When the two rules with the least outputs have the same
    output, and this output is a multiple of the (positive) step, the
    first domain value falls on a bracket of width zero: its membership
    is nan, and [takagi_sugeno_karnik_mendel] ends in the [IndexError] of
    [__find_k]. *)
Theorem ts_km_equal_least_outputs (fuel : nat) (firings : list (Q * Q))
    (outputs : Np.array) (step : Q) (r0 r1 : rule_row)
    (rest : list rule_row) (z : Z) :
  0 < step -> length outputs = length firings ->
  sort_by fst (combine outputs firings) = r0 :: r1 :: rest ->
  fst r0 == fst r1 -> fst r0 == inject_Z z * step ->
  takagi_sugeno_karnik_mendel fuel firings outputs step
  = Some (Raise IndexError).
Proof.
  intros Hstep Hlen Hrows H01 Hz.
  assert (Hs0 : ~ step == 0) by lra.
  unfold takagi_sugeno_karnik_mendel.
  rewrite Hlen, Nat.eqb_refl. simpl negb. cbv iota zeta.
  rewrite Hrows. cbn [Np.first_item]. rewrite fbind_lift_ok.
  rewrite math_floor_div, fbind_lift_ok by exact Hs0.
  destruct (items_of_nonempty (r0 :: r1 :: rest) ltac:(discriminate))
    as (r0' & rl & _ & Hlast).
  rewrite Hlast, fbind_lift_ok.
  rewrite math_floor_div_plus_one, fbind_lift_ok by exact Hs0.
  set (a := Qfloor (fst r0 / step)). set (b := Qfloor (fst rl / step)).
  assert (Ha : a = z).
  { subst a. apply Qfloor_unique.
    - rewrite Hz. field_simplify; [lra | exact Hs0].
    - rewrite Hz, inject_Z_plus. change (inject_Z 1) with 1.
      field_simplify; [lra | exact Hs0]. }
  assert (Hab : (a <= b)%Z).
  { apply Qfloor_resp_le. apply Qmult_le_compat_r.
    - pose proof (sort_by_sorted fst (combine outputs firings)) as Hsorted.
      rewrite Hrows in Hsorted.
      pose proof (sorted_last_greatest fst _ rl Hsorted Hlast) as Hgreatest.
      inversion Hgreatest; subst. assumption.
    - apply Qlt_le_weak, Qinv_lt_0_compat, Hstep. }
  set (domain := arange (inject_Z a * step) (inject_Z (b + 1) * step) step).
  assert (Hdl : length domain = Z.to_nat (b + 1 - a))
    by (apply arange_length, Hs0).
  assert (E0 : nth 0 domain 0
               = inject_Z a * step + inject_Z (Z.of_nat 0) * step)
    by (apply arange_nth; fold domain; lia).
  destruct domain as [|x0 domain']; [simpl in Hdl; lia|].
  simpl in E0.
  assert (Hx0 : x0 == fst r0).
  { rewrite E0, Ha, Hz. change (inject_Z 0) with 0. ring. }
  assert (Hnan : calculate_membership x0
                   (map lower_point (r0 :: r1 :: rest)) = NaN).
  { cbn [map calculate_membership scan_bracket].
    change (fst (lower_point r0)) with (fst r0).
    change (fst (lower_point r1)) with (fst r1).
    assert (E : Qle_bool (fst r0) x0 = true) by (apply Qle_bool_iff; lra).
    assert (E' : Qle_bool x0 (fst r1) = true) by (apply Qle_bool_iff; lra).
    rewrite E, E'. apply interpolate_degenerate.
    - exact H01.
    - change (fst (lower_point r0)) with (fst r0).
      change (fst (lower_point r1)) with (fst r1). lra. }
  cbn [map] in Hnan |- *. rewrite Hnan. reflexivity.
Qed.

Lemma ts_km_equal_least_outputs_witness :
  takagi_sugeno_karnik_mendel 8 [(1 # 5, 1 # 2); (1 # 4, 1)] [0; 0]
    (1 # 1000)
  = Some (Raise IndexError).
Proof.
  apply (ts_km_equal_least_outputs 8 [(1 # 5, 1 # 2); (1 # 4, 1)] [0; 0]
           (1 # 1000) (0, (1 # 5, 1 # 2)) (0, (1 # 4, 1)) [] 0).
  - lra.
  - reflexivity.
  - reflexivity.
  - reflexivity.
  - reflexivity.
Defined.

(** ** [infer] and the cache over a whole call *)

Lemma key_eqb_refl (k : list Q) : key_eqb k k = true.
Proof.
  induction k as [|x k IH]; simpl; [reflexivity|].
  rewrite IH, andb_true_r. apply Qeq_bool_iff. reflexivity.
Qed.

Lemma key_eqb_sym (k1 k2 : list Q) : key_eqb k1 k2 = key_eqb k2 k1.
Proof.
  revert k2. induction k1 as [|x k1 IH]; intros [|y k2]; simpl;
    try reflexivity.
  rewrite IH. f_equal.
  destruct (Qeq_bool x y) eqn:E, (Qeq_bool y x) eqn:E'; try reflexivity.
  - apply Qeq_bool_iff in E. apply Qeq_bool_neq in E'. exfalso. apply E'.
    symmetry. exact E.
  - apply Qeq_bool_iff in E'. apply Qeq_bool_neq in E. exfalso. apply E.
    symmetry. exact E'.
Qed.

Lemma key_eqb_trans (k1 k2 k3 : list Q) :
  key_eqb k1 k2 = true -> key_eqb k2 k3 = true -> key_eqb k1 k3 = true.
Proof.
  revert k2 k3. induction k1 as [|x k1 IH]; intros [|y k2] [|z k3];
    simpl; try discriminate; try reflexivity.
  intros H12 H23. apply andb_true_iff in H12, H23.
  destruct H12 as [Hxy H12], H23 as [Hyz H23].
  apply andb_true_iff. split.
  - apply Qeq_bool_iff in Hxy, Hyz. apply Qeq_bool_iff.
    rewrite Hxy. exact Hyz.
  - apply (IH k2 k3); assumption.
Qed.

(** Equal keys find the same entry. *)
Lemma cache_lookup_equal_keys (k k' : list Q) (cache : list (list Q * Q)) :
  key_eqb k k' = true -> cache_lookup k cache = cache_lookup k' cache.
Proof.
  intros E. induction cache as [|[k0 v0] cache IH]; simpl; [reflexivity|].
  assert (E0 : key_eqb k k0 = key_eqb k' k0).
  { destruct (key_eqb k k0) eqn:E1, (key_eqb k' k0) eqn:E2;
      try reflexivity.
    - rewrite key_eqb_sym in E.
      rewrite (key_eqb_trans k' k k0 E E1) in E2. discriminate.
    - rewrite (key_eqb_trans k k' k0 E E2) in E1. discriminate. }
  rewrite E0, IH. reflexivity.
Qed.

Lemma cache_kept_refl (w : world) : cache_kept w w.
Proof. intros k v H. exact H. Qed.

Lemma cache_kept_trans (w1 w2 w3 : world) :
  cache_kept w1 w2 -> cache_kept w2 w3 -> cache_kept w1 w3.
Proof. intros H12 H23 k v H. apply H23, H12, H. Qed.

Lemma log_extended_refl (w : world) : log_extended w w.
Proof. exists []. symmetry. apply app_nil_r. Qed.

Lemma log_extended_trans (w1 w2 w3 : world) :
  log_extended w1 w2 -> log_extended w2 w3 -> log_extended w1 w3.
Proof.
  intros (l1 & E1) (l2 & E2). exists (l1 ++ l2).
  rewrite E2, E1, app_assoc. reflexivity.
Qed.

(** The loop over the rules writes to the call log only. *)
Lemma evaluate_rules_effect (rules : list Rule)
    (single_measures : list (variable_id * Q))
    (single_features : list (clause_id * degree)) :
  forall i outputs firings w r w',
    evaluate_rules i rules single_measures single_features outputs firings w
    = (r, w') ->
    class_cache w' = class_cache w /\ log_extended w w'.
Proof.
  induction rules as [|rule rules IH]; intros i outputs firings w r w' H.
  - injection H as _ <-. split; [reflexivity | apply log_extended_refl].
  - simpl in H. unfold sbind, logged in H.
    destruct (consequent_output rule single_measures) as [o|e].
    + destruct (antecedent_fire rule single_features) as [f|e].
      * apply IH in H. simpl in H. destruct H as [Hc (later & Hl)].
        split; [exact Hc|]. cbn [calls] in Hl.
        rewrite <- !app_assoc in Hl. eexists. exact Hl.
      * injection H as _ <-. simpl. split; [reflexivity|].
        rewrite <- app_assoc. eexists. reflexivity.
    + injection H as _ <-. simpl. split; [reflexivity|].
      eexists. reflexivity.
Qed.

(** One sample: nothing the cache held is lost, the log only grows, and
    a conclusion that is returned is in the cache afterwards. *)
Lemma infer_sample_effect (self : TakagiSugenoInferenceSystem)
    (defuzzification_method : list degree -> Np.array -> result Q)
    (single_features : list (clause_id * degree))
    (single_measures : list (variable_id * Q)) (w w' : world)
    (r : result Q) :
  infer_sample self defuzzification_method single_features single_measures w
  = (r, w') ->
  cache_kept w w' /\ log_extended w w' /\
  forall c, r = Ok c ->
    cache_lookup (get_input_tuple self (map snd single_measures))
      (class_cache w') = Some c.
Proof.
  unfold infer_sample. cbv zeta.
  set (key := get_input_tuple self (map snd single_measures)).
  unfold sbind at 1. unfold is_cached, cache_getitem.
  destruct (cache_lookup key (class_cache w)) as [v|] eqn:Hlook.
  - rewrite Hlook. intros H. injection H as <- <-.
    split; [apply cache_kept_refl|]. split; [apply log_extended_refl|].
    intros c E. injection E as <-. exact Hlook.
  - unfold sbind at 1.
    destruct (evaluate_rules 0 (rule_base self) single_measures
                single_features [] [] w) as [re w1] eqn:Hrules.
    apply evaluate_rules_effect in Hrules. destruct Hrules as [Hc1 Hl1].
    assert (Hk1 : cache_kept w w1).
    { intros k v Hk. rewrite Hc1. exact Hk. }
    destruct re as [evaluated|e].
    + unfold sbind, logged, cache_setitem, sret. cbn [class_cache calls].
      destruct (defuzzification_method _ _) as [conclusion|e].
      * intros H. injection H as <- <-. cbn [class_cache calls].
        split; [|split].
        -- intros k v Hk. cbn [class_cache cache_lookup].
           destruct (key_eqb k key) eqn:E; [|apply Hk1, Hk].
           rewrite (cache_lookup_equal_keys k key _ E) in Hk. congruence.
        -- apply (log_extended_trans _ _ _ Hl1). eexists. reflexivity.
        -- intros c E. injection E as <-. simpl.
           rewrite key_eqb_refl. reflexivity.
      * intros H. injection H as <- <-. split; [|split].
        -- intros k v Hk. cbn [class_cache]. apply Hk1, Hk.
        -- apply (log_extended_trans _ _ _ Hl1). eexists. reflexivity.
        -- discriminate.
    + intros H. injection H as <- <-. split; [exact Hk1|].
      split; [exact Hl1 | discriminate].
Qed.

(** The loop over the samples. *)
Lemma infer_samples_effect (self : TakagiSugenoInferenceSystem)
    (defuzzification_method : list degree -> Np.array -> result Q)
    (features : list (clause_id * list degree))
    (measures : list (variable_id * list Q)) (samples : list nat) :
  forall conclusions w r w',
    infer_samples self defuzzification_method features measures samples
      conclusions w = (r, w') ->
    cache_kept w w' /\ log_extended w w' /\
    forall cs, r = Ok cs ->
      exists later,
        cs = conclusions ++ later /\
        Forall2 (fun i c =>
                   exists single_measures,
                     take_sample i measures = Ok single_measures /\
                     cache_lookup
                       (get_input_tuple self (map snd single_measures))
                       (class_cache w') = Some c)
                samples later.
Proof.
  induction samples as [|i samples IH]; intros conclusions w r w' H.
  - injection H as <- <-.
    split; [apply cache_kept_refl|]. split; [apply log_extended_refl|].
    intros cs E. injection E as <-. exists [].
    split; [symmetry; apply app_nil_r | constructor].
  - simpl in H. unfold sbind at 1, pure_result in H.
    destruct (take_sample i features) as [sf|e].
    2:{ injection H as <- <-. split; [apply cache_kept_refl|].
        split; [apply log_extended_refl | discriminate]. }
    unfold sbind at 1 in H.
    destruct (take_sample i measures) as [sm|e] eqn:Hsm.
    2:{ injection H as <- <-. split; [apply cache_kept_refl|].
        split; [apply log_extended_refl | discriminate]. }
    unfold sbind at 1 in H.
    destruct (infer_sample self defuzzification_method sf sm w)
      as [rc w1] eqn:Hsample.
    apply infer_sample_effect in Hsample.
    destruct Hsample as (Hk1 & Hl1 & Hstored).
    destruct rc as [c|e].
    2:{ injection H as <- <-. split; [exact Hk1|].
        split; [exact Hl1 | discriminate]. }
    apply IH in H. destruct H as (Hk2 & Hl2 & Hrest).
    split; [apply (cache_kept_trans _ _ _ Hk1 Hk2)|].
    split; [apply (log_extended_trans _ _ _ Hl1 Hl2)|].
    intros cs E. destruct (Hrest cs E) as (later & -> & Hall).
    exists (c :: later). split; [rewrite <- app_assoc; reflexivity|].
    constructor; [|exact Hall].
    exists sm. split; [exact Hsm|]. apply Hk2, Hstored. reflexivity.
Qed.

Lemma take_sample_ok {K X : Type} (i : nat) (d : list (K * list X)) :
  Forall (fun kv => (i < length (snd kv))%nat) d ->
  exists single, take_sample i d = Ok single.
Proof.
  induction 1 as [|[k v] d Hv _ IH]; simpl.
  - exists []. reflexivity.
  - simpl in Hv. destruct (nth_error v i) as [x|] eqn:E.
    + destruct IH as (rest & ->). eexists. reflexivity.
    + apply nth_error_None in E. lia.
Qed.

(** Samples whose keys are all in the cache are answered from it. *)
Lemma infer_samples_replay (self : TakagiSugenoInferenceSystem)
    (defuzzification_method : list degree -> Np.array -> result Q)
    (features : list (clause_id * list degree))
    (measures : list (variable_id * list Q)) (w : world)
    (samples : list nat) (later : list Q) :
  Forall2 (fun i c =>
             exists single_measures,
               take_sample i measures = Ok single_measures /\
               cache_lookup (get_input_tuple self (map snd single_measures))
                 (class_cache w) = Some c)
          samples later ->
  Forall (fun i => exists single_features,
                     take_sample i features = Ok single_features) samples ->
  forall conclusions,
    infer_samples self defuzzification_method features measures samples
      conclusions w = (Ok (conclusions ++ later), w).
Proof.
  induction 1 as [|i c samples later (sm & Hsm & Hlook) _ IH];
    intros Hf conclusions.
  - simpl. rewrite app_nil_r. reflexivity.
  - inversion Hf as [|? ? (sf & Hsf) Hf']; subst.
    simpl. unfold sbind at 1, pure_result. rewrite Hsf.
    unfold sbind at 1. rewrite Hsm. unfold sbind at 1.
    assert (Hhit : infer_sample self defuzzification_method sf sm w
                   = (Ok c, w)).
    { unfold infer_sample. cbv zeta. unfold sbind.
      destruct (cached_hit _ c w Hlook) as [-> ->]. reflexivity. }
    rewrite Hhit, (IH Hf'), <- app_assoc. reflexivity.
Qed.

(** X17.  Once [infer] has returned, a further call on the same
    measures is answered from the cache alone: it returns the same
    conclusions and leaves the cache and the call log as they are, so no
    rule is evaluated and the defuzzification method is not called.  This
    holds whatever defuzzification method and features the further call
    is given, and for any instance whose rules have the same function
    parameters: the key holds neither the method, nor the features, nor
    the instance. *)
Theorem infer_replays_cache (self self' : TakagiSugenoInferenceSystem)
    (method method' : list degree -> Np.array -> result Q)
    (features features' : list (clause_id * list degree))
    (measures : list (variable_id * list Q)) (cs : list Q) (w w' : world) :
  infer self method features measures w = (Ok cs, w') ->
  map function_parameters (rule_base self')
  = map function_parameters (rule_base self) ->
  Forall (fun kv => (sample_count measures <= length (snd kv))%nat)
    features' ->
  infer self' method' features' measures w' = (Ok cs, w').
Proof.
  unfold infer. intros Hfirst Hparams Hfeatures.
  unfold sbind at 1, pure_result in Hfirst. unfold sbind at 1, pure_result.
  destruct measures as [|[v0 first] measures]; [discriminate|].
  cbn [map snd Np.first_item sample_count] in *.
  apply infer_samples_effect in Hfirst.
  destruct Hfirst as (_ & _ & Hcs).
  destruct (Hcs cs eq_refl) as (later & -> & Hall).
  assert (Hkeys : forall input,
             get_input_tuple self' input = get_input_tuple self input).
  { intros input. rewrite !get_input_tuple_flat.
    rewrite !flat_map_concat_map, Hparams. reflexivity. }
  apply (infer_samples_replay self' method' features' _ w' _ later).
  - revert Hall. apply Forall2_impl. intros i c (sm & Hsm & Hlook).
    exists sm. rewrite Hkeys. auto.
  - apply Forall_forall. intros i Hi. apply in_seq in Hi.
    apply take_sample_ok. revert Hfeatures. apply Forall_impl.
    intros kv Hkv. lia.
Qed.

Lemma infer_replays_cache_witness :
  exists cs w',
    infer system_a weighted_average_method
      [(0%nat, [Scalar 1; Scalar 0]); (1%nat, [Scalar 0; Scalar 1])]
      [(0%nat, [5; 7])] empty_world = (Ok cs, w') /\
    infer system_b (fun _ _ => Raise BareException)
      [(0%nat, [Scalar 0; Scalar 0]); (1%nat, [Scalar 1; Scalar 1])]
      [(0%nat, [5; 7])] w' = (Ok cs, w').
Proof.
  eexists. eexists. split.
  - vm_compute. reflexivity.
  - apply (infer_replays_cache system_a system_b weighted_average_method
             (fun _ _ => Raise BareException)
             [(0%nat, [Scalar 1; Scalar 0]); (1%nat, [Scalar 0; Scalar 1])]
             [(0%nat, [Scalar 0; Scalar 0]); (1%nat, [Scalar 1; Scalar 1])]
             [(0%nat, [5; 7])] _ empty_world).
    + vm_compute. reflexivity.
    + reflexivity.
    + repeat constructor.
Defined.

(** X18.  Whatever a call of [infer] ends in, a list of conclusions or
    an exception raised on the way, it removes and changes no stored
    conclusion and it only adds to the call log; when it returns, it
    returns one conclusion for every sample. *)
Theorem infer_keeps_cache (self : TakagiSugenoInferenceSystem)
    (method : list degree -> Np.array -> result Q)
    (features : list (clause_id * list degree))
    (measures : list (variable_id * list Q))
    (r : result (list Q)) (w w' : world) :
  infer self method features measures w = (r, w') ->
  cache_kept w w' /\ log_extended w w' /\
  forall cs, r = Ok cs -> length cs = sample_count measures.
Proof.
  unfold infer. unfold sbind at 1, pure_result. intros H.
  destruct measures as [|[v0 first] measures].
  - injection H as <- <-. split; [apply cache_kept_refl|].
    split; [apply log_extended_refl | discriminate].
  - cbn [map snd Np.first_item sample_count] in *.
    apply infer_samples_effect in H. destruct H as (Hk & Hl & Hcs).
    split; [exact Hk|]. split; [exact Hl|].
    intros cs E. destruct (Hcs cs E) as (later & -> & Hall).
    apply Forall2_length in Hall. rewrite length_seq in Hall.
    simpl. symmetry. exact Hall.
Qed.

Lemma infer_keeps_cache_witness :
  exists r w',
    infer system_a weighted_average_method
      [(0%nat, [Scalar 1; Scalar 0]); (1%nat, [Scalar 0])]
      [(0%nat, [5; 7])]
      {| class_cache := [([5; 1; 2], 9)]; calls := [] |} = (r, w') /\
    cache_kept {| class_cache := [([5; 1; 2], 9)]; calls := [] |} w' /\
    log_extended {| class_cache := [([5; 1; 2], 9)]; calls := [] |} w' /\
    forall cs, r = Ok cs -> length cs = sample_count [(0%nat, [5; 7])].
Proof.
  eexists. eexists. split.
  - vm_compute. reflexivity.
  - apply (infer_keeps_cache system_a weighted_average_method
             [(0%nat, [Scalar 1; Scalar 0]); (1%nat, [Scalar 0])]
             [(0%nat, [5; 7])]).
    vm_compute. reflexivity.
Defined.

(** ** [MamdaniConsequent.output]: what a cut keeps *)

Lemma Qmin_left (x s : Q) : x <= s -> Qmin x s = x.
Proof.
  intros H. unfold Qmin, GenericMinMax.gmin.
  destruct (x ?= s) eqn:E; try reflexivity.
  apply Qgt_alt in E. lra.
Qed.

Lemma minimum_nth (a : list Q) (s : Q) (i : nat) :
  nth i (map (fun x => Qmin x s) a) 0 = Qmin (nth i a 0) s \/
  (length a <= i)%nat.
Proof.
  destruct (Nat.lt_ge_cases i (length a)) as [Hi | Hi]; [left | right; lia].
  rewrite (nth_indep _ 0 (Qmin 0 s)) by (rewrite length_map; exact Hi).
  apply (map_nth (fun x => Qmin x s)).
Qed.

(** X19.  For an interval Type-2 clause whose lower membership array is
    nowhere above its upper one, and a firing (l, u) with l <= u,
    [output] returns a pair of arrays of the same lengths in which the
    lower cut is nowhere above the upper cut, no value of the lower cut
    exceeds l and no value of the upper cut exceeds u; the pair is what
    [cut_mf] holds afterwards, and the clause is untouched. *)
Theorem output_interval_cut_ordered (self : MamdaniConsequent)
    (lmf umf : list Q) (l u : Q) :
  clause_fuzzy_set self = Nd2 [lmf; umf] ->
  Forall2 Qle lmf umf -> l <= u ->
  exists lower upper,
    output self (FiringTuple [l; u])
    = (Ok (PyTuple2 (Nd1 lower) (Nd1 upper)),
       {| clause_fuzzy_set := clause_fuzzy_set self;
          cut_mf := PyTuple2 (Nd1 lower) (Nd1 upper) |}) /\
    length lower = length lmf /\ length upper = length umf /\
    Forall2 Qle lower upper /\
    Forall (fun v => v <= l) lower /\ Forall (fun v => v <= u) upper.
Proof.
  intros Hclause Hle Hlu.
  exists (map (fun x => Qmin x l) lmf), (map (fun x => Qmin x u) umf).
  split; [|split; [apply length_map | split; [apply length_map|]]].
  - simpl. unfold it2_cut. rewrite Hclause. reflexivity.
  - split; [|split].
    + clear Hclause.
      induction Hle as [|x y lmf umf Hxy _ IH]; simpl; [constructor|].
      constructor; [|exact IH].
      apply Q.min_glb.
      * pose proof (Q.le_min_l x l). lra.
      * pose proof (Q.le_min_r x l). lra.
    + apply Forall_map, Forall_forall. intros x _. apply Q.le_min_r.
    + apply Forall_map, Forall_forall. intros x _. apply Q.le_min_r.
Qed.

Lemma output_interval_cut_ordered_witness :
  exists lower upper,
    output {| clause_fuzzy_set := Nd2 [[0; 1 # 2; 1 # 4]; [1 # 4; 1; 1 # 2]];
              cut_mf := PyNone |}
      (FiringTuple [1 # 3; 3 # 4])
    = (Ok (PyTuple2 (Nd1 lower) (Nd1 upper)),
       {| clause_fuzzy_set := Nd2 [[0; 1 # 2; 1 # 4]; [1 # 4; 1; 1 # 2]];
          cut_mf := PyTuple2 (Nd1 lower) (Nd1 upper) |}) /\
    length lower = length [0; 1 # 2; 1 # 4] /\
    length upper = length [1 # 4; 1; 1 # 2] /\
    Forall2 Qle lower upper /\
    Forall (fun v => v <= 1 # 3) lower /\ Forall (fun v => v <= 3 # 4) upper.
Proof.
  apply (output_interval_cut_ordered
           {| clause_fuzzy_set := Nd2 [[0; 1 # 2; 1 # 4]; [1 # 4; 1; 1 # 2]];
              cut_mf := PyNone |}
           [0; 1 # 2; 1 # 4] [1 # 4; 1; 1 # 2] (1 # 3) (3 # 4)).
  - reflexivity.
  - repeat constructor; vm_compute; discriminate.
  - vm_compute. discriminate.
Defined.

(** X20.  For a Type-1 clause, [output] with a float firing returns an
    array of the clause's length whose values exceed neither the firing
    nor the membership at their position; a firing that no membership
    exceeds (1.0 for memberships of at most 1) gives back the membership
    array itself.  A further call cuts the clause's array again, not the
    previous cut. *)
Theorem output_type1_cut (self : MamdaniConsequent) (a : list Q) (f : Q) :
  clause_fuzzy_set self = Nd1 a ->
  exists cut,
    output self (FiringFloat f)
    = (Ok (PyArray (Nd1 cut)),
       {| clause_fuzzy_set := Nd1 a; cut_mf := PyArray (Nd1 cut) |}) /\
    length cut = length a /\
    (forall i, (i < length a)%nat ->
               nth i cut 0 <= f /\ nth i cut 0 <= nth i a 0) /\
    (Forall (fun v => v <= f) a -> cut = a) /\
    forall g,
      fst (output (snd (output self (FiringFloat f))) (FiringFloat g))
      = fst (output self (FiringFloat g)).
Proof.
  intros Hclause. exists (map (fun x => Qmin x f) a).
  split; [|split; [apply length_map | split; [|split]]].
  - simpl. unfold t1_cut. rewrite Hclause. reflexivity.
  - intros i Hi. destruct (minimum_nth a f i) as [-> | Hge]; [|lia].
    split; [apply Q.le_min_r | apply Q.le_min_l].
  - intros Hall. clear Hclause.
    induction Hall as [|x a' Hx _ IH]; simpl; [reflexivity|].
    rewrite Qmin_left by exact Hx. f_equal. exact IH.
  - intros g. reflexivity.
Qed.

Lemma output_type1_cut_witness :
  exists cut,
    output {| clause_fuzzy_set := Nd1 [0; 1 # 2; 1]; cut_mf := PyNone |}
      (FiringFloat (3 # 4))
    = (Ok (PyArray (Nd1 cut)),
       {| clause_fuzzy_set := Nd1 [0; 1 # 2; 1];
          cut_mf := PyArray (Nd1 cut) |}) /\
    length cut = length [0; 1 # 2; 1] /\
    (forall i, (i < 3)%nat ->
               nth i cut 0 <= 3 # 4 /\ nth i cut 0 <= nth i [0; 1 # 2; 1] 0) /\
    (Forall (fun v => v <= 3 # 4) [0; 1 # 2; 1] -> cut = [0; 1 # 2; 1]) /\
    forall g,
      fst (output
             (snd (output {| clause_fuzzy_set := Nd1 [0; 1 # 2; 1];
                             cut_mf := PyNone |} (FiringFloat (3 # 4))))
             (FiringFloat g))
      = fst (output {| clause_fuzzy_set := Nd1 [0; 1 # 2; 1];
                       cut_mf := PyNone |} (FiringFloat g)).
Proof.
  apply (output_type1_cut
           {| clause_fuzzy_set := Nd1 [0; 1 # 2; 1]; cut_mf := PyNone |}
           [0; 1 # 2; 1] (3 # 4)).
  reflexivity.
Defined.

(** ** The shapes of [triangular], [trapezoidal] and [linear] *)

Lemma py_div_ok (a b : Q) : ~ b == 0 -> py_div a b = Ok (a / b).
Proof.
  intros H. unfold py_div. destruct (Qeq_bool b 0) eqn:E; [|reflexivity].
  apply Qeq_bool_iff in E. contradiction.
Qed.

Lemma py_div_zero (a b : Q) : b == 0 -> py_div a b = Raise ZeroDivisionError.
Proof.
  intros H. unfold py_div. apply Qeq_bool_iff in H. rewrite H. reflexivity.
Qed.

Lemma clip_inside (t : Q) : 0 <= t <= 1 -> Qmin 1 (Qmax 0 t) == t.
Proof.
  intros [H0 H1]. rewrite (Q.max_r 0 t) by exact H0.
  apply Q.min_r. exact H1.
Qed.

Lemma clip_below (t : Q) : t <= 0 -> Qmin 1 (Qmax 0 t) == 0.
Proof.
  intros H. rewrite (Q.max_l 0 t) by exact H. apply Q.min_r. lra.
Qed.

Lemma clip_above (t : Q) : 1 <= t -> Qmin 1 (Qmax 0 t) == 1.
Proof.
  intros H. rewrite (Q.max_r 0 t) by lra. apply Q.min_l. exact H.
Qed.

Lemma Qle_bool_true (x y : Q) : x <= y -> Qle_bool x y = true.
Proof. apply Qle_bool_iff. Qed.

Lemma Qlt_bool_true (x y : Q) : x < y -> Qlt_bool x y = true.
Proof.
  intros H. unfold Qlt_bool. apply negb_true_iff, Qle_bool_false. lra.
Qed.

Lemma Qlt_bool_false (x y : Q) : y <= x -> Qlt_bool x y = false.
Proof.
  intros H. unfold Qlt_bool. apply negb_false_iff, Qle_bool_iff, H.
Qed.

Lemma ramp_between (m d s : Q) :
  0 <= m -> 0 < s -> 0 <= d <= s -> 0 <= m * d / s <= m.
Proof.
  intros Hm Hs Hd.
  assert (0 <= m * d) by (apply Qmult_le_0_compat; lra).
  assert (0 <= m * (s - d)) by (apply Qmult_le_0_compat; lra).
  split; [apply div_ge_iff | apply div_le_iff]; lra.
Qed.

(** X21.  For l_end < center < r_end and a height between 0 and 1,
    [triangular] called on a float returns, on exact numbers, the
    triangle over [l_end, r_end] with its top at [center]: 0 up to
    l_end and from r_end on, the rising line up to the centre, where it
    reaches the height, and the falling line after it; the value is
    always between 0 and the height. *)
Theorem triangular_shape (l_end center r_end max_value value : Q) :
  l_end < center -> center < r_end -> 0 <= max_value <= 1 ->
  exists v,
    triangular l_end center r_end max_value value = Ok v /\
    0 <= v <= max_value /\
    (value <= l_end \/ r_end <= value -> v == 0) /\
    (l_end <= value <= center ->
     v == max_value * (value - l_end) / (center - l_end)) /\
    (center <= value <= r_end ->
     v == max_value * (r_end - value) / (r_end - center)) /\
    (value == center -> v == max_value).
Proof.
  intros Hl Hr Hm. unfold triangular.
  rewrite !py_div_ok by lra. cbn [rbind].
  eexists. split; [reflexivity|].
  set (rise := max_value * (value - l_end) / (center - l_end)).
  set (fall := max_value * ((r_end - value) / (r_end - center))).
  assert (Efall : fall == max_value * (r_end - value) / (r_end - center))
    by (subst fall; field; lra).
  destruct (Qlt_le_dec center value) as [Hgt | Hle].
  - rewrite (proj2 (Qle_bool_false value center)) by lra.
    rewrite Qlt_bool_true by exact Hgt. cbn [bool_factor].
    assert (E : rise * 0 + fall * 1 == fall) by ring.
    rewrite E, Efall. clear E.
    destruct (Qlt_le_dec r_end value) as [Hout | Hin].
    + assert (Hneg : max_value * (r_end - value) / (r_end - center) <= 0).
      { apply div_le_iff; [lra|].
        assert (0 <= max_value * (value - r_end))
          by (apply Qmult_le_0_compat; lra).
        lra. }
      rewrite clip_below by exact Hneg.
      repeat split; try lra; intros; try lra.
    + pose proof (ramp_between max_value (r_end - value) (r_end - center)
                    ltac:(lra) ltac:(lra) ltac:(lra)) as Hramp.
      rewrite clip_inside by lra.
      repeat split; try lra; intros H; try lra.
      destruct H as [H | H]; [lra|].
      assert (Ev : value == r_end) by lra. rewrite Ev.
      field. lra.
  - rewrite Qle_bool_true by exact Hle.
    rewrite Qlt_bool_false by exact Hle. cbn [bool_factor].
    assert (E : rise * 1 + fall * 0 == rise) by ring.
    rewrite E. clear E. subst rise.
    destruct (Qlt_le_dec value l_end) as [Hout | Hin].
    + assert (Hneg : max_value * (value - l_end) / (center - l_end) <= 0).
      { apply div_le_iff; [lra|].
        assert (0 <= max_value * (l_end - value))
          by (apply Qmult_le_0_compat; lra).
        lra. }
      rewrite clip_below by exact Hneg.
      repeat split; try lra; intros; try lra.
    + pose proof (ramp_between max_value (value - l_end) (center - l_end)
                    ltac:(lra) ltac:(lra) ltac:(lra)) as Hramp.
      rewrite clip_inside by lra.
      repeat split; try lra; intros H; try lra.
      * destruct H as [H | H]; [|lra].
        assert (Ev : value == l_end) by lra. rewrite Ev. field. lra.
      * assert (Ev : value == center) by lra. rewrite Ev. field. lra.
      * rewrite H. field. lra.
Qed.

Lemma triangular_shape_witness :
  exists v,
    triangular 100 106 112 1 103 = Ok v /\
    0 <= v <= 1 /\
    (103 <= 100 \/ 112 <= 103 -> v == 0) /\
    (100 <= 103 <= 106 -> v == 1 * (103 - 100) / (106 - 100)) /\
    (106 <= 103 <= 112 -> v == 1 * (112 - 103) / (112 - 106)) /\
    (103 == 106 -> v == 1).
Proof.
  apply (triangular_shape 100 106 112 1 103); lra.
Defined.

(** X22.  [triangular] and [trapezoidal] evaluate both of their
    quotients for every argument, so that a vertical side makes every
    call on a float fail: [triangular] raises [ZeroDivisionError] when
    the centre is one of the ends, [trapezoidal] when l_center is l_end
    or r_center is r_end. *)
Theorem vertical_side_raises (l_end center r_center r_end max_value value
    : Q) :
  (center == l_end \/ center == r_end ->
   triangular l_end center r_end max_value value
   = Raise ZeroDivisionError) /\
  (center == l_end \/ r_center == r_end ->
   trapezoidal l_end center r_center r_end max_value value
   = Raise ZeroDivisionError).
Proof.
  split; intros [H | H].
  - unfold triangular. rewrite py_div_zero by lra. reflexivity.
  - unfold triangular.
    destruct (py_div (max_value * (value - l_end)) (center - l_end))
      as [rising|e] eqn:E.
    + cbn [rbind]. rewrite py_div_zero by lra. reflexivity.
    + unfold py_div in E.
      destruct (Qeq_bool _ 0); [injection E as <-; reflexivity|discriminate].
  - unfold trapezoidal. rewrite py_div_zero by lra. reflexivity.
  - unfold trapezoidal.
    destruct (py_div (value - l_end) (center - l_end)) as [rising|e] eqn:E.
    + cbn [rbind]. rewrite py_div_zero by lra. reflexivity.
    + unfold py_div in E.
      destruct (Qeq_bool _ 0); [injection E as <-; reflexivity|discriminate].
Qed.

Lemma vertical_side_raises_witness :
  triangular 106 112 112 1 110 = Raise ZeroDivisionError /\
  trapezoidal 0 0 1 2 1 (1 # 2) = Raise ZeroDivisionError.
Proof.
  destruct (vertical_side_raises 106 112 112 112 1 110) as [Htri _].
  destruct (vertical_side_raises 0 0 1 2 1 (1 # 2)) as [_ Htrap].
  split; [apply Htri; right; reflexivity | apply Htrap; left; reflexivity].
Defined.

(** X23.  For l_end < l_center < r_center < r_end and a height between
    0 and 1, [trapezoidal] called on a float returns, on exact numbers,
    the trapezoid: 0 up to l_end and from r_end on, the rising line up to
    l_center, the height from l_center to r_center, both included, and
    the falling line after it; the value is always between 0 and the
    height. *)
Theorem trapezoidal_shape (l_end l_center r_center r_end max_value value
    : Q) :
  l_end < l_center -> l_center < r_center -> r_center < r_end ->
  0 <= max_value <= 1 ->
  exists v,
    trapezoidal l_end l_center r_center r_end max_value value = Ok v /\
    0 <= v <= max_value /\
    (value <= l_end \/ r_end <= value -> v == 0) /\
    (l_end <= value <= l_center ->
     v == max_value * (value - l_end) / (l_center - l_end)) /\
    (l_center <= value <= r_center -> v == max_value) /\
    (r_center <= value <= r_end ->
     v == max_value * (r_end - value) / (r_end - r_center)).
Proof.
  intros Hl Hc Hr Hm. unfold trapezoidal.
  rewrite !py_div_ok by lra. cbn [rbind].
  eexists. split; [reflexivity|].
  set (rise := max_value * ((value - l_end) / (l_center - l_end))).
  set (fall := max_value * ((r_end - value) / (r_end - r_center))).
  assert (Erise : rise == max_value * (value - l_end) / (l_center - l_end))
    by (subst rise; field; lra).
  assert (Efall : fall == max_value * (r_end - value) / (r_end - r_center))
    by (subst fall; field; lra).
  destruct (Qlt_le_dec l_center value) as [Hlc | Hlc].
  - rewrite (proj2 (Qle_bool_false value l_center)) by lra.
    rewrite (Qlt_bool_true l_center value) by exact Hlc.
    destruct (Qlt_le_dec value r_center) as [Hrc | Hrc].
    + rewrite (proj2 (Qle_bool_false r_center value)) by lra.
      rewrite (Qlt_bool_true value r_center) by exact Hrc.
      cbn [bool_factor].
      assert (E : rise * 0 + fall * 0 + max_value * (1 * 1) == max_value)
        by ring.
      rewrite E, clip_inside by lra.
      repeat split; try lra; intros; lra.
    + rewrite (Qle_bool_true r_center value) by exact Hrc.
      rewrite (Qlt_bool_false value r_center) by exact Hrc.
      cbn [bool_factor].
      assert (E : rise * 0 + fall * 1 + max_value * (1 * 0) == fall) by ring.
      rewrite E, Efall. clear E.
      destruct (Qlt_le_dec r_end value) as [Hout | Hin].
      * assert (Hneg : max_value * (r_end - value) / (r_end - r_center) <= 0).
        { apply div_le_iff; [lra|].
          assert (0 <= max_value * (value - r_end))
            by (apply Qmult_le_0_compat; lra).
          lra. }
        rewrite clip_below by exact Hneg.
        repeat split; try lra; intros; lra.
      * pose proof (ramp_between max_value (r_end - value)
                      (r_end - r_center) ltac:(lra) ltac:(lra) ltac:(lra))
          as Hramp.
        rewrite clip_inside by lra.
        repeat split; try lra; intros H; try lra.
        -- destruct H as [H | H]; [lra|].
           assert (Ev : value == r_end) by lra. rewrite Ev. field. lra.
        -- assert (Ev : value == r_center) by lra. rewrite Ev. field. lra.
  - rewrite (Qle_bool_true value l_center) by exact Hlc.
    rewrite (Qlt_bool_false l_center value) by exact Hlc.
    rewrite (proj2 (Qle_bool_false r_center value)) by lra.
    rewrite (Qlt_bool_true value r_center) by lra.
    cbn [bool_factor].
    assert (E : rise * 1 + fall * 0 + max_value * (0 * 1) == rise) by ring.
    rewrite E, Erise. clear E.
    destruct (Qlt_le_dec value l_end) as [Hout | Hin].
    + assert (Hneg : max_value * (value - l_end) / (l_center - l_end) <= 0).
      { apply div_le_iff; [lra|].
        assert (0 <= max_value * (l_end - value))
          by (apply Qmult_le_0_compat; lra).
        lra. }
      rewrite clip_below by exact Hneg.
      repeat split; try lra; intros; lra.
    + pose proof (ramp_between max_value (value - l_end) (l_center - l_end)
                    ltac:(lra) ltac:(lra) ltac:(lra)) as Hramp.
      rewrite clip_inside by lra.
      repeat split; try lra; intros H; try lra.
      * destruct H as [H | H]; [|lra].
        assert (Ev : value == l_end) by lra. rewrite Ev. field. lra.
      * assert (Ev : value == l_center) by lra. rewrite Ev. field. lra.
Qed.

Lemma trapezoidal_shape_witness :
  exists v,
    trapezoidal 0 2 6 8 (1 # 2) 2 = Ok v /\
    0 <= v <= 1 # 2 /\
    (2 <= 0 \/ 8 <= 2 -> v == 0) /\
    (0 <= 2 <= 2 -> v == (1 # 2) * (2 - 0) / (2 - 0)) /\
    (2 <= 2 <= 6 -> v == 1 # 2) /\
    (6 <= 2 <= 8 -> v == (1 # 2) * (8 - 2) / (8 - 6)).
Proof.
  apply (trapezoidal_shape 0 2 6 8 (1 # 2) 2); lra.
Defined.

(** X24.  When the two upper corners of [trapezoidal] coincide, the
    argument at the corner satisfies both [value <= l_center] and
    [value >= r_center], and both slopes are added: the value there is
    twice the height, cut at 1, and not the height. *)
Theorem trapezoidal_coinciding_centres (l_end center r_end max_value : Q) :
  l_end < center -> center < r_end -> 0 <= max_value ->
  exists v,
    trapezoidal l_end center center r_end max_value center = Ok v /\
    v == Qmin 1 (2 * max_value) /\
    (0 < max_value < 1 -> ~ v == max_value).
Proof.
  intros Hl Hr Hm. unfold trapezoidal.
  rewrite !py_div_ok by lra. cbn [rbind].
  rewrite (Qle_bool_true center center) by lra.
  rewrite (Qlt_bool_false center center) by lra.
  cbn [bool_factor].
  eexists. split; [reflexivity|].
  assert (E : max_value * ((center - l_end) / (center - l_end)) * 1
              + max_value * ((r_end - center) / (r_end - center)) * 1
              + max_value * (0 * 0) == 2 * max_value) by (field; lra).
  rewrite E. rewrite (Q.max_r 0 (2 * max_value)) by lra.
  split; [reflexivity|]. intros Hmax.
  destruct (Q.min_spec 1 (2 * max_value)) as [[_ ->] | [_ ->]]; lra.
Qed.

Lemma trapezoidal_coinciding_centres_witness :
  exists v,
    trapezoidal 0 1 1 2 (2 # 5) 1 = Ok v /\
    v == Qmin 1 (2 * (2 # 5)) /\
    (0 < 2 # 5 < 1 -> ~ v == 2 # 5).
Proof.
  apply (trapezoidal_coinciding_centres 0 1 2 (2 # 5)); lra.
Defined.

(** X25.  [linear] with a height that is not negative returns a value
    between 0 and the height: a * value + b where this lies between 0
    and the height, 0 below and the height above; with a slope that is
    not negative it never decreases in its argument. *)
Theorem linear_shape (a b max_value value : Q) :
  0 <= max_value ->
  0 <= linear a b max_value value <= max_value /\
  (0 <= value * a + b <= max_value ->
   linear a b max_value value == value * a + b) /\
  (value * a + b <= 0 -> linear a b max_value value == 0) /\
  (max_value <= value * a + b -> linear a b max_value value == max_value) /\
  (0 <= a -> forall value', value <= value' ->
     linear a b max_value value <= linear a b max_value value').
Proof.
  intros Hm.
  assert (Hval : forall x,
             (x * a + b <= 0 /\ linear a b max_value x == 0) \/
             (0 < x * a + b <= max_value /\
              linear a b max_value x == x * a + b) \/
             (max_value < x * a + b /\ linear a b max_value x == max_value)).
  { intros x. unfold linear.
    destruct (Qlt_le_dec 0 (x * a + b)) as [Hpos | Hneg].
    - rewrite Qlt_bool_true by exact Hpos.
      destruct (Qlt_le_dec max_value (x * a + b)) as [Hhi | Hlo].
      + right. right. split; [exact Hhi|]. apply Q.min_r. lra.
      + right. left. split; [lra|]. apply Q.min_l. exact Hlo.
    - rewrite Qlt_bool_false by exact Hneg. left. split; [exact Hneg|].
      reflexivity. }
  split; [|split; [|split; [|split]]].
  - destruct (Hval value) as [[H' E] | [[H' E] | [H' E]]]; rewrite E; lra.
  - intros H.
    destruct (Hval value) as [[H' E] | [[H' E] | [H' E]]]; rewrite E; lra.
  - intros H.
    destruct (Hval value) as [[H' E] | [[H' E] | [H' E]]]; rewrite E; lra.
  - intros H.
    destruct (Hval value) as [[H' E] | [[H' E] | [H' E]]]; rewrite E; lra.
  - intros Ha value' Hle.
    assert (Hmono : value * a + b <= value' * a + b).
    { assert (0 <= (value' - value) * a) by (apply Qmult_le_0_compat; lra).
      lra. }
    destruct (Hval value) as [[H ->] | [[H ->] | [H ->]]];
      destruct (Hval value') as [[H' ->] | [[H' ->] | [H' ->]]]; lra.
Qed.

Lemma linear_shape_witness :
  0 <= linear 2 3 1 (- (5 # 4)) <= 1 /\
  (0 <= - (5 # 4) * 2 + 3 <= 1 ->
   linear 2 3 1 (- (5 # 4)) == - (5 # 4) * 2 + 3) /\
  (- (5 # 4) * 2 + 3 <= 0 -> linear 2 3 1 (- (5 # 4)) == 0) /\
  (1 <= - (5 # 4) * 2 + 3 -> linear 2 3 1 (- (5 # 4)) == 1) /\
  (0 <= 2 -> forall value', - (5 # 4) <= value' ->
     linear 2 3 1 (- (5 # 4)) <= linear 2 3 1 value').
Proof.
  apply (linear_shape 2 3 1 (- (5 # 4))). lra.
Defined.

(** ** [center_of_sums] over several membership arrays *)

Lemma zip_plus_nonneg (a b : Np.array) :
  Forall (fun v => 0 <= v) a -> Forall (fun v => 0 <= v) b ->
  Forall (fun v => 0 <= v) (Np.zip_with Qplus a b).
Proof.
  intros Ha. revert b. induction Ha as [|x a Hx _ IH]; intros b Hb.
  - constructor.
  - destruct Hb as [|y b Hy Hb]; simpl; constructor; [lra | apply IH, Hb].
Qed.

Lemma zip_plus_sum (a b : Np.array) :
  length a = length b ->
  Np.sum (Np.zip_with Qplus a b) == Np.sum a + Np.sum b.
Proof.
  revert b. induction a as [|x a IH]; intros [|y b] H; simpl in *;
    try discriminate; [lra|].
  change (x + y + Np.sum (Np.zip_with Qplus a b)
          == x + Np.sum a + (y + Np.sum b)).
  rewrite IH by lia. ring.
Qed.

(** The sum over the rows, [np.sum(universe, axis=0)]. *)
Lemma sums_of_rows (n : nat) (rows : list Np.array) (first : Np.array) :
  length first = n -> Forall (fun r => length r = n) rows ->
  Forall (Forall (fun v => 0 <= v)) (first :: rows) ->
  length (fold_left (Np.zip_with Qplus) rows first) = n /\
  Forall (fun v => 0 <= v) (fold_left (Np.zip_with Qplus) rows first) /\
  forall r, In r (first :: rows) ->
            Np.sum r <= Np.sum (fold_left (Np.zip_with Qplus) rows first).
Proof.
  intros Hf Hrows. revert first Hf.
  induction Hrows as [|r0 rows Hr0 _ IH]; intros first Hf Hnn.
  - inversion Hnn; subst. simpl. repeat split; auto.
    intros r [<- | []]. lra.
  - inversion Hnn as [|? ? Hfirst Hnn']; subst.
    inversion Hnn' as [|? ? Hr0nn Hrest]; subst.
    simpl fold_left.
    destruct (IH (Np.zip_with Qplus first r0)) as (Hlen & Hall & Hge).
    + rewrite zip_with_length; congruence.
    + constructor; [apply zip_plus_nonneg; assumption | exact Hrest].
    + split; [exact Hlen|]. split; [exact Hall|].
      pose proof (Hge _ (or_introl eq_refl)) as Hhead.
      rewrite zip_plus_sum in Hhead by congruence.
      pose proof (sum_nonneg first Hfirst).
      pose proof (sum_nonneg r0 Hr0nn).
      intros r [<- | [<- | Hr]]; try lra.
      apply Hge. right. exact Hr.
Qed.

(** X26.  On an ascending domain, with membership arrays of the domain's
    length that hold no negative value and at least one positive one,
    [center_of_sums] returns a number, not nan or an infinity, and the
    number lies between the first and the last domain value (on exact
    numbers). *)
Theorem center_of_sums_within_domain (domain : Np.array) (mfs : mfs_arg) :
  domain <> [] -> Sorted Qle domain ->
  well_shaped (length domain) mfs ->
  Forall (Forall (fun v => 0 <= v)) (rows_of mfs) ->
  Exists (Exists (fun v => 0 < v)) (rows_of mfs) ->
  exists v,
    center_of_sums domain mfs = Ok (Finite v) /\
    nth 0 domain 0 <= v <= nth (length domain - 1) domain 0.
Proof.
  intros Hne Hasc [Hrne Hshape] Hnonneg Hsome.
  assert (Hn : (0 < length domain)%nat)
    by (destruct domain; [congruence | simpl; lia]).
  destruct (rows_of mfs) as [|first rows] eqn:Hrows; [congruence|].
  inversion Hshape as [|? ? Hf Hr]; subst.
  destruct (sums_of_rows (length domain) rows first Hf Hr Hnonneg)
    as (Hlen & Hall & Hge).
  set (sums := fold_left (Np.zip_with Qplus) rows first) in *.
  assert (Hcode : center_of_sums domain mfs
                  = Ok (f64_div (Np.sum (Np.zip_with Qmult domain sums))
                          (Np.sum sums))).
  { unfold center_of_sums. destruct mfs as [a | rows0]; simpl in Hrows.
    - injection Hrows as -> <-. destruct first; [simpl in Hf; lia|].
      cbn [rbind]. subst sums. cbn [fold_left] in *.
      rewrite Hf, Nat.eqb_refl. reflexivity.
    - subst rows0.
      assert (E : forallb (fun r => Nat.eqb (length r) (length first)) rows
                  = true).
      { apply forallb_forall. intros r Hin. rewrite Forall_forall in Hr.
        apply Nat.eqb_eq. rewrite (Hr r Hin). congruence. }
      rewrite E. cbn [rbind]. fold sums. rewrite Hlen, Nat.eqb_refl.
      reflexivity. }
  assert (Hpos : 0 < Np.sum sums).
  { apply Exists_exists in Hsome. destruct Hsome as (r & Hin & Hex).
    rewrite Forall_forall in Hnonneg.
    pose proof (sum_pos_some r (Hnonneg r Hin) Hex).
    specialize (Hge r Hin). lra. }
  assert (Hdom : Forall (fun o => nth 0 domain 0 <= o
                                  <= nth (length domain - 1) domain 0)
                   domain).
  { apply Forall_forall. intros o Ho. apply (In_nth _ _ 0) in Ho.
    destruct Ho as (i & Hi & <-). split; apply sorted_nth_le; auto; lia. }
  pose proof (dot_between domain sums _ _ (eq_sym Hlen) Hall Hdom) as Hdot.
  rewrite Hcode. unfold f64_div.
  destruct (Qeq_bool (Np.sum sums) 0) eqn:Ez.
  { apply Qeq_bool_iff in Ez. lra. }
  eexists. split; [reflexivity|].
  split; [apply div_ge_iff | apply div_le_iff]; lra.
Qed.

Lemma center_of_sums_within_domain_witness :
  exists v,
    center_of_sums [1; 2; 4] (ManyArrays [[0; 1 # 2; 0]; [0; 1 # 4; 1]])
    = Ok (Finite v) /\
    nth 0 [1; 2; 4] 0 <= v <= nth (length [1; 2; 4] - 1) [1; 2; 4] 0.
Proof.
  apply (center_of_sums_within_domain [1; 2; 4]
           (ManyArrays [[0; 1 # 2; 0]; [0; 1 # 4; 1]])).
  - discriminate.
  - repeat constructor; vm_compute; discriminate.
  - split; [discriminate | repeat constructor].
  - repeat constructor; vm_compute; discriminate.
  - apply Exists_cons_hd, Exists_cons_tl, Exists_cons_hd. reflexivity.
Defined.

(** ** The outcome of [__find_k] *)

(** X27.  On a nonempty ascending domain [__find_k] raises [IndexError]
    exactly for an argument below the first domain value; for any other
    argument it returns the last index whose domain value is at most the
    argument. *)
Theorem find_k_outcome (c : Q) (domain : Np.array) :
  domain <> [] -> Sorted Qle domain ->
  (c < nth 0 domain 0 -> find_k c domain = Raise IndexError) /\
  (nth 0 domain 0 <= c ->
   exists k,
     find_k c domain = Ok k /\ (k < length domain)%nat /\
     nth k domain 0 <= c /\
     forall j, (k < j < length domain)%nat -> c < nth j domain 0).
Proof.
  intros Hne Hasc.
  assert (Hn : (0 < length domain)%nat)
    by (destruct domain; [congruence | simpl; lia]).
  split.
  - intros Hlow. destruct (find_k c domain) as [k|e] eqn:E.
    + apply find_k_ok_iff in E. destruct E as (Hk & Hle & _).
      pose proof (sorted_nth_le domain 0 k Hasc ltac:(lia)). lra.
    + apply find_k_raise in E. destruct E as [-> _]. reflexivity.
  - intros Hge. destruct (find_k_total c domain 0 Hn Hge) as (k & Hk).
    exists k. split; [exact Hk|].
    apply find_k_ok_iff in Hk. destruct Hk as (Hlt & Hle & Hlast).
    repeat split; auto. intros j Hj. specialize (Hlast j Hj). lra.
Qed.

Lemma find_k_outcome_witness :
  (5 # 2 < nth 0 [1; 2; 4] 0 -> find_k (5 # 2) [1; 2; 4] = Raise IndexError)
  /\
  (nth 0 [1; 2; 4] 0 <= 5 # 2 ->
   exists k,
     find_k (5 # 2) [1; 2; 4] = Ok k /\ (k < 3)%nat /\
     nth k [1; 2; 4] 0 <= 5 # 2 /\
     forall j, (k < j < 3)%nat -> 5 # 2 < nth j [1; 2; 4] 0).
Proof.
  apply (find_k_outcome (5 # 2) [1; 2; 4]).
  - discriminate.
  - repeat constructor; vm_compute; discriminate.
Defined.

(** ** [infer] with [weighted_average] *)

Lemma scalar_firings_ok (firings : list degree) :
  Forall (fun d => exists v, d = Scalar v /\ 0 <= v) firings ->
  exists fs,
    scalar_firings firings = Ok fs /\ length fs = length firings /\
    Forall (fun v => 0 <= v) fs.
Proof.
  induction 1 as [|d firings (v & -> & Hv) _ (fs & Hfs & Hlen & Hall)].
  - exists []. repeat split. constructor.
  - exists (v :: fs). simpl. rewrite Hfs. simpl.
    repeat split; [congruence | constructor; assumption].
Qed.

(** X28.  A sample of [infer] that is not in the cache, defuzzified by
    [weighted_average] over Type-1 firings none of which is negative:
    when the rules return their outputs and firings, the conclusion is
    returned, it lies between any two bounds of the rules' outputs (on
    exact numbers), and it is what the cache holds for the sample
    afterwards. *)
Theorem infer_sample_weighted_average (self : TakagiSugenoInferenceSystem)
    (single_features : list (clause_id * degree))
    (single_measures : list (variable_id * Q)) (w : world)
    (pairs : list (Q * degree)) (lo hi : Q) :
  cache_lookup (get_input_tuple self (map snd single_measures))
    (class_cache w) = None ->
  rules_return (rule_base self) single_measures single_features pairs ->
  pairs <> [] ->
  Forall (fun p => exists v, snd p = Scalar v /\ 0 <= v) pairs ->
  Forall (fun p => lo <= fst p <= hi) pairs ->
  exists c w',
    infer_sample self weighted_average_method single_features
      single_measures w = (Ok c, w') /\
    lo <= c <= hi /\
    cache_lookup (get_input_tuple self (map snd single_measures))
      (class_cache w') = Some c.
Proof.
  intros Hmiss Hret Hne Hfir Hout.
  set (key := get_input_tuple self (map snd single_measures)) in *.
  set (sorted := sort_by fst pairs).
  assert (Hperm : Permutation sorted pairs) by apply sort_by_perm.
  assert (Hfir' : Forall (fun d => exists v, d = Scalar v /\ 0 <= v)
                    (map snd sorted)).
  { apply Forall_map, Forall_forall. intros p Hp.
    rewrite Forall_forall in Hfir.
    apply Hfir, (Permutation_in _ Hperm), Hp. }
  assert (Hout' : Forall (fun o => lo <= o <= hi) (map fst sorted)).
  { apply Forall_map, Forall_forall. intros p Hp.
    rewrite Forall_forall in Hout.
    apply Hout, (Permutation_in _ Hperm), Hp. }
  destruct (scalar_firings_ok _ Hfir') as (fs & Hfs & Hlen & Hnn).
  rewrite length_map in Hlen.
  assert (Hsne : sorted <> []).
  { intros E. rewrite E in Hperm. apply Permutation_nil in Hperm.
    contradiction. }
  pose proof (add_scalar_positive fs Hnn) as Hw.
  assert (Hpos : 0 < Np.sum (Np.add_scalar fs bias)).
  { apply sum_pos; [|exact Hw].
    destruct fs, sorted; simpl in *; congruence. }
  assert (Hlen' : length (map fst sorted)
                  = length (Np.add_scalar fs bias))
    by (rewrite add_scalar_length, length_map; congruence).
  assert (Hw0 : Forall (fun v => 0 <= v) (Np.add_scalar fs bias)).
  { revert Hw. apply Forall_impl. intros; lra. }
  pose proof (dot_between (map fst sorted) _ lo hi Hlen' Hw0 Hout') as Hdot.
  set (c := Np.sum (Np.zip_with Qmult (map fst sorted)
                      (Np.add_scalar fs bias))
            / Np.sum (Np.add_scalar fs bias)).
  assert (Hd : weighted_average_method (map snd sorted) (map fst sorted)
               = Ok c).
  { unfold weighted_average_method. rewrite Hfs. cbn [rbind].
    unfold weighted_average. apply average_ok; [exact Hlen' | lra]. }
  exists c. eexists. split; [|split].
  - unfold infer_sample. fold key.
    unfold sbind at 1. rewrite (cached_miss key w Hmiss).
    unfold sbind at 1.
    rewrite (evaluate_rules_returns _ _ _ pairs Hret). simpl.
    rewrite combine_fst_snd. fold sorted.
    unfold sbind, logged, cache_setitem, sret. rewrite Hd. simpl.
    reflexivity.
  - subst c. split; [apply div_ge_iff | apply div_le_iff]; lra.
  - simpl. rewrite key_eqb_refl. reflexivity.
Qed.

Lemma infer_sample_weighted_average_witness :
  exists c w',
    infer_sample system_a weighted_average_method
      [(0%nat, Scalar 1); (1%nat, Scalar 0)] [(0%nat, 5)] empty_world
    = (Ok c, w') /\
    5 <= c <= 10 /\
    cache_lookup (get_input_tuple system_a (map snd [(0%nat, 5)]))
      (class_cache w') = Some c.
Proof.
  apply (infer_sample_weighted_average system_a
           [(0%nat, Scalar 1); (1%nat, Scalar 0)] [(0%nat, 5)] empty_world
           [(1 * 5, Scalar 1); (2 * 5, Scalar 0)] 5 10).
  - reflexivity.
  - repeat constructor.
  - discriminate.
  - repeat constructor; eexists; split; try reflexivity; lra.
  - repeat constructor; vm_compute; discriminate.
Defined.
